(** * mcp-server-comfy-selfie: the generate-selfie tool and its session registry

    A shallow embedding of [src/index.ts]: the seed drawn for every
    invocation, the callback adapter around [CallWrapper] that turns the
    remote job's callbacks into one awaited result, the turns the hooks
    take on the event loop, the optional S3 re-hosting with its fallback,
    the tool handler's [try]/[catch] boundary, the environment schema, and
    the [transports] lookup object behind [POST /messages]; the earlier
    revision of the handler is embedded from [src/unnamed/part_001]. *)

From Stdlib Require Import ZArith QArith Lia Bool String Ascii List.
From stdpp Require Import base option list strings gmap pretty.
Import ListNotations.

Local Open Scope string_scope.
Local Open Scope Z_scope.
Local Open Scope list_scope.

(* ===================================================================== *)
(** ** The seed: [Math.floor(Math.random() * 1_000_000)]                  *)
(* ===================================================================== *)

Module Seed.

(** A value of [Math.random()]: a double in [0,1).  Every such double is
    [mant * 2^-exp2] with a 53-bit mantissa and [53 <= exp2 <= 1074]
    (normal numbers below 1 have an exponent of at most -1, subnormals
    sit at 2^-1074). *)
Record unit_double : Type := UnitDouble { mant : Z; exp2 : Z }.

Definition valid_draw (d : unit_double) : Prop :=
  0 <= mant d < 2 ^ 53 /\ 53 <= exp2 d <= 1074.

Definition valid_drawb (d : unit_double) : bool :=
  (0 <=? mant d) && (mant d <? 2 ^ 53) && (53 <=? exp2 d) && (exp2 d <=? 1074).

(** IEEE-754 round-to-nearest-even of a non-negative integer to 53
    significant bits: the rounding the double product performs on the
    exact product of the two mantissas. *)
Definition round_to_53 (n : Z) : Z :=
  let s := Z.log2 n - 52 in
  if s <=? 0 then n
  else
    let q := Z.shiftr n s in
    let r := Z.land n (Z.ones s) in
    let half := Z.shiftl 1 (s - 1) in
    let up := (half <? r) || ((r =? half) && Z.odd q) in
    Z.shiftl (if up then q + 1 else q) s.

(** [Math.floor(x * k)] for [x = mant * 2^-exp2] and an integer [k] that is
    itself a double: the exact product is [mant * k * 2^-exp2], it is
    rounded to 53 bits, and the floor drops the [exp2] fractional bits.
    (A product small enough to be subnormal is rounded more coarsely by
    the hardware, but it is below 1 either way and its floor is 0.) *)
Definition floor_mul (d : unit_double) (k : Z) : Z :=
  Z.shiftr (round_to_53 (mant d * k)) (exp2 d).

(** [.input("seed", Math.floor(Math.random() * 1_000_000))] *)
Definition generate_seed (d : unit_double) : Z := floor_mul d 1000000.

(** One draw per tool invocation: the seeds of a run of invocations. *)
Definition seeds_of (draws : list unit_double) : list Z :=
  generate_seed <$> draws.

End Seed.

(* ===================================================================== *)
(** ** JavaScript values the handler manipulates                          *)
(* ===================================================================== *)

Module Js.

(** What a [catch] clause or a promise rejection can carry. *)
Inductive js_error : Type :=
| JsError (message : string)   (** an instance of [Error] *)
| JsThrown (shown : string).   (** any other value; [shown] is [String(value)] *)

#[global] Instance js_error_eq_dec : EqDecision js_error.
Proof. solve_decision. Defined.

(** [error instanceof Error ? error.message : String(error)] *)
Definition error_message (e : js_error) : string :=
  match e with
  | JsError m => m
  | JsThrown s => s
  end.

(** [err instanceof Error ? err : new Error(String(err))] *)
Definition to_Error (e : js_error) : js_error :=
  match e with
  | JsError m => JsError m
  | JsThrown s => JsError s
  end.

(** A promise of a string, with the language's settle-once rule:
    [resolve] and [reject] act on a pending promise only. *)
Inductive promise : Type :=
| Pending
| Fulfilled (value : string)
| Rejected (reason : js_error).

#[global] Instance promise_eq_dec : EqDecision promise.
Proof. solve_decision. Defined.

Definition resolve (v : string) (p : promise) : promise :=
  match p with
  | Pending => Fulfilled v
  | _ => p
  end.

Definition reject (e : js_error) (p : promise) : promise :=
  match p with
  | Pending => Rejected e
  | _ => p
  end.

Definition settled (p : promise) : bool :=
  match p with
  | Pending => false
  | _ => true
  end.

(** Numbers are doubles.  A division yields a finite double, given here
    by its exact value (every finite double is a dyadic rational), [NaN]
    (0/0) or a signed infinity (x/0). *)
Inductive js_number : Type :=
| Finite (q : Q)
| NaN
| Infinity (negative : bool).

(** The double nearest to [x / y] for integers [0 < x], [0 < y] below
    2^53 (every such integer is a double, and the quotient lies in the
    normal range).  The quotient is scaled by [2^k] so that its integer
    part has 54 or 55 bits, a sticky bit records a remainder, and the
    whole is rounded to 53 bits, ties to even.  The result is the pair
    [(m, e)] standing for [m * 2^-e]. *)
Definition nearest_quotient (x y : Z) : Z * Z :=
  let k := 54 + Z.log2 y - Z.log2 x in
  let q := (x * 2 ^ k) / y in
  let sticky := if (x * 2 ^ k) mod y =? 0 then 0 else 1 in
  (Seed.round_to_53 (2 * q + sticky), k + 1).

(** The value [m * 2^-e], with its sign, in lowest terms. *)
Definition dyadic (negative : bool) (m e : Z) : Q :=
  Qred ((if negative then - m else m) # Z.to_pos (2 ^ e)).

(** [x / y] on integer-valued doubles (magnitudes below 2^53): the
    double division of IEEE-754, rounding to nearest, ties to even. *)
Definition js_div (x y : Z) : js_number :=
  if y =? 0 then
    if x =? 0 then NaN else Infinity (x <? 0)
  else if x =? 0 then Finite 0
  else
    let '(m, e) := nearest_quotient (Z.abs x) (Z.abs y) in
    Finite (dyadic (xorb (x <? 0) (y <? 0)) m e).

(** [String.prototype.toLowerCase] on ASCII letters. *)
Definition lower_ascii (c : ascii) : ascii :=
  let n := N_of_ascii c in
  if ((65 <=? n) && (n <=? 90))%N then ascii_of_N (n + 32) else c.

Fixpoint toLowerCase (s : string) : string :=
  match s with
  | EmptyString => EmptyString
  | String c r => String (lower_ascii c) (toLowerCase r)
  end.

(** [hay.includes(needle)] *)
Fixpoint includes (needle hay : string) : bool :=
  String.prefix needle hay ||
  match hay with
  | EmptyString => false
  | String _ rest => includes needle rest
  end.

(** [!s] is false exactly for the non-empty strings. *)
Definition truthy_string (s : string) : bool :=
  match s with
  | EmptyString => false
  | _ => true
  end.

End Js.

(* ===================================================================== *)
(** ** The Job Adapter: the promise executor around [CallWrapper]          *)
(* ===================================================================== *)

Module Adapter.
Import Js.

(** [_meta.progressToken] is a string or a number. *)
Inductive progress_token : Type :=
| TokString (s : string)
| TokNumber (n : Z).

(** The guard [if (_meta?.progressToken)]: the token must be there and
    truthy (a non-empty string, a non-zero number). *)
Definition truthy_token (t : progress_token) : bool :=
  match t with
  | TokString s => truthy_string s
  | TokNumber n => negb (n =? 0)
  end.

Definition guard_token (meta : option progress_token) : option progress_token :=
  match meta with
  | Some t => if truthy_token t then Some t else None
  | None => None
  end.

(** A progress message: its [method] and the two [params]. *)
Record progress_notification : Type := ProgressNotification {
  method : string;
  progress : js_number;
  progressToken : progress_token
}.

Definition progress_zero : js_number := Finite 0.

(** [info] of [onProgress]: the node and its step counter, integers as
    the remote engine counts them (below 2^53 every integer is a double). *)
Record progress_info : Type := ProgressInfo {
  node : string;
  value : Z;
  max : Z
}.

(** The image descriptor handed to [api.getPathImage]. *)
Record image_info : Type := ImageInfo {
  filename : string;
  subfolder : string;
  type_ : string
}.

(** [data.generated_image]: the output node's data; [images] may be missing. *)
Record node_output : Type := NodeOutput {
  images : option (list image_info)
}.

(** [data] of [onFinished]: the mapped outputs; the slot may be missing. *)
Record job_output : Type := JobOutput {
  generated_image : option node_output
}.

(** The five hooks registered on the [CallWrapper]. *)
Inductive callback : Type :=
| OnStart
| OnPending
| OnProgress (info : progress_info)
| OnFinished (data : job_output)
| OnFailed (err : js_error) (promptId : option string).

Definition terminal (c : callback) : bool :=
  match c with
  | OnFinished _ | OnFailed _ _ => true
  | _ => false
  end.


(** Everything the handler does to the outside while a job runs. *)
Inductive effect : Type :=
| Submit (prompt : string) (seed : Z)       (** [.run()] with the built prompt *)
| Notify (n : progress_notification)        (** [sendNotification(n)] *)
| ReadAborted (b : bool)                    (** [signal.aborted] was read as [b] *)
| Interrupt                                 (** [api.interrupt()] *)
| CallResolve (url : string)                (** [resolve(url)] *)
| CallReject (e : js_error)                 (** [reject(e)] *)
| HookRejected (e : js_error).              (** an async hook ended by throwing [e] *)

(** State threaded through the handler: the promise being awaited and the
    effects so far, oldest first. *)
Record state : Type := State {
  awaited : promise;
  trace : list effect
}.

Definition initial : state := State Pending [].

(** Code either completes, throws, or waits on a promise nobody settles. *)
Inductive outcome (A : Type) : Type :=
| Done (a : A)
| Threw (e : js_error)
| Waiting.
Arguments Done {A} a.
Arguments Threw {A} e.
Arguments Waiting {A}.

Definition M (A : Type) : Type := state -> outcome A * state.

#[global] Instance M_ret : MRet M := fun A a s => (Done a, s).
#[global] Instance M_bind : MBind M := fun A B f m s =>
  match m s with
  | (Done a, s') => f a s'
  | (Threw e, s') => (Threw e, s')
  | (Waiting, s') => (Waiting, s')
  end.

Definition throw {A} (e : js_error) : M A := fun s => (Threw e, s).

(** [try { body } catch (err) { handler(err) }] *)
Definition try_catch {A} (body : M A) (handler : js_error -> M A) : M A :=
  fun s =>
    match body s with
    | (Threw e, s') => handler e s'
    | r => r
    end.

Definition emit (e : effect) : M unit :=
  fun s => (Done tt, State (awaited s) (trace s ++ [e])).

(** [resolve(url)] and [reject(e)] of the promise under construction. *)
Definition call_resolve (url : string) : M unit :=
  fun s => (Done tt, State (resolve url (awaited s)) (trace s ++ [CallResolve url])).

Definition call_reject (e : js_error) : M unit :=
  fun s => (Done tt, State (reject e (awaited s)) (trace s ++ [CallReject e])).

(** [await sendNotification(n)]: the message is handed to the protocol
    layer, whose promise resolves ([None]) or rejects ([Some e]). *)
Definition sendNotification (result : option js_error) (n : progress_notification) : M unit :=
  emit (Notify n);;
  match result with
  | None => mret tt
  | Some e => throw e
  end.

(** [if (_meta?.progressToken) { await sendNotification({...}) }] *)
Definition notify_progress (meta : option progress_token)
    (result : option js_error) (p : js_number) : M unit :=
  match guard_token meta with
  | Some tok => sendNotification result (ProgressNotification "notifications/progress" p tok)
  | None => mret tt
  end.

(** [if (signal.aborted) { api.interrupt(); }] *)
Definition check_cancellation (aborted : bool) : M unit :=
  emit (ReadAborted aborted);;
  if aborted then emit Interrupt else mret tt.

(** [await promise] *)
Definition await_result : M string :=
  fun s =>
    match awaited s with
    | Pending => (Waiting, s)
    | Fulfilled v => (Done v, s)
    | Rejected e => (Threw e, s)
    end.

(** [api.getPathImage]: the remote client's URL-building rule; it is the
    client's code and may throw. *)
Definition path_builder : Type := image_info -> js_error + string.

Definition not_found_message : string :=
  "Generated image data not found in ComfyUI response.".

(** [!outputData || !outputData.images || outputData.images.length === 0] *)
Definition output_missing (outputData : option node_output) : bool :=
  match outputData with
  | None => true
  | Some o =>
      match images o with
      | None => true
      | Some l => (Z.of_nat (length l) =? 0)
      end
  end.

(** [outputData.images[0]] *)
Definition first_image (outputData : option node_output) : option image_info :=
  o ← outputData; l ← images o; l !! 0%nat.

Definition onFinished (getPathImage : path_builder) (data : job_output) : M unit :=
  try_catch
    (let outputData := generated_image data in
     if output_missing outputData then call_reject (JsError not_found_message)
     else
       match first_image outputData with
       | Some imageInfo =>
           match getPathImage imageInfo with
           | inr url => call_resolve url
           | inl e => throw e
           end
       | None => throw (JsError "Cannot read properties of undefined")
       end)
    (fun err => call_reject (to_Error err)).

Definition onFailed (err : js_error) (promptId : option string) : M unit :=
  call_reject err.

Definition onStart (meta : option progress_token) (send : option js_error) : M unit :=
  notify_progress meta send progress_zero.

Definition onPending (meta : option progress_token) (send : option js_error)
    (aborted : bool) : M unit :=
  notify_progress meta send progress_zero;;
  check_cancellation aborted.

Definition onProgress (meta : option progress_token) (send : option js_error)
    (aborted : bool) (info : progress_info) : M unit :=
  notify_progress meta send (js_div (value info) (max info));;
  check_cancellation aborted.

(** One hook invocation by the remote client, with what the outside
    answers during it: how the awaited [sendNotification] ends, and what
    [signal.aborted] reads. *)
Record delivery : Type := Delivery {
  hook : callback;
  send_result : option js_error;
  aborted : bool
}.

(** The per-call context the hooks close over. *)
Record context : Type := Context {
  meta : option progress_token;
  getPathImage : path_builder
}.

Definition run_hook (c : context) (d : delivery) : M unit :=
  match hook d with
  | OnStart => onStart (meta c) (send_result d)
  | OnPending => onPending (meta c) (send_result d) (aborted d)
  | OnProgress info => onProgress (meta c) (send_result d) (aborted d) info
  | OnFinished data => onFinished (getPathImage c) data
  | OnFailed err promptId => onFailed err promptId
  end.

(** A hook run in one piece: the notification it awaits settles before
    anything else happens (module [Loop] below runs the hooks turn by
    turn).  A hook that throws rejects the promise it returns, not the
    awaited one, which stays as it was.  Nothing handles that rejection:
    [HookRejected] marks the point at which the process ends on it.  The
    promise and the trace computed for the events behind a [HookRejected]
    are those of a process that outlives the rejection; [Loop.reply_of]
    has the process end there. *)
Definition deliver (c : context) (s : state) (d : delivery) : state :=
  match run_hook c d s with
  | (Threw e, s') => State (awaited s') (trace s' ++ [HookRejected e])
  | (_, s') => s'
  end.

(** What reaches the handler from the remote client: the hook
    invocations.  The handler registers no listener of its own on the
    connection, so a lost connection reaches it the way the client
    reports it: as a call of [onFailed]. *)
Inductive engine_event : Type :=
| Hook (d : delivery).

Definition react (c : context) (s : state) (ev : engine_event) : state :=
  match ev with
  | Hook d => deliver c s d
  end.

Definition run_events (c : context) (evs : list engine_event) (s : state) : state :=
  foldl (react c) s evs.

Definition terminal_event (ev : engine_event) : bool :=
  match ev with
  | Hook d => terminal (hook d)
  end.

(** The awaited promise after each event, oldest first. *)
Fixpoint history (c : context) (evs : list engine_event) (s : state) : list promise :=
  match evs with
  | [] => []
  | ev :: rest => awaited (react c s ev) :: history c rest (react c s ev)
  end.

(** How many times the promise changed along a history that starts at [p]. *)
Fixpoint changes (p : promise) (ps : list promise) : nat :=
  match ps with
  | [] => 0
  | q :: rest => ((if decide (p = q) then 0 else 1) + changes q rest)%nat
  end.

Definition settle_count (c : context) (evs : list engine_event) : nat :=
  changes Pending (history c evs initial).

Definition no_terminal (evs : list engine_event) : bool :=
  forallb (fun ev => negb (terminal_event ev)) evs.

(** The effects of one hook invocation taken on its own. *)
Definition hook_effects (c : context) (d : delivery) : list effect :=
  trace (deliver c initial d).

(** The hooks whose body reads [signal.aborted]. *)
Definition polling_hook (cb : callback) : bool :=
  match cb with
  | OnPending | OnProgress _ => true
  | _ => false
  end.

(** The notification step of a hook goes through: there is nothing to
    send, or the awaited send resolves. *)
Definition notification_completes (c : context) (d : delivery) : bool :=
  match guard_token (meta c), send_result d with
  | Some _, Some _ => false
  | _, _ => true
  end.

(** What a polling hook does once its notification was handed over: the
    hook ends there if the send rejected, else it reads the signal. *)
Definition after_notification (sr : option js_error) (ab : bool) : list effect :=
  match sr with
  | Some e => [HookRejected e]
  | None => ReadAborted ab :: (if ab then [Interrupt] else [])
  end.

(** The effects of a run of events, hook by hook. *)
Definition events_effects (c : context) (evs : list engine_event) : list effect :=
  flat_map (fun ev => match ev with
                      | Hook d => hook_effects c d
                      end) evs.

Definition notifications (tr : list effect) : list progress_notification :=
  omap (fun e => match e with Notify n => Some n | _ => None end) tr.

Definition is_interrupt (e : effect) : bool :=
  match e with
  | Interrupt => true
  | _ => false
  end.

Definition interrupts (tr : list effect) : nat :=
  length (List.filter is_interrupt tr).

Definition polls (tr : list effect) : list bool :=
  omap (fun e => match e with ReadAborted b => Some b | _ => None end) tr.

End Adapter.

(* ===================================================================== *)
(** ** [uploadToS3]: re-hosting the image                                  *)
(* ===================================================================== *)

Module Upload.
Import Js.

(** The part of the parsed environment the upload reads.  The schema
    admits ["true"] and ["false"] for [S3_UPLOAD_ENABLED]. *)
Record environment : Type := Env {
  S3_UPLOAD_ENABLED : string;
  S3_BUCKET_NAME : string;
  S3_PUBLIC_ENDPOINT : string;
  S3_KEY_PREFIX : string
}.

Inductive s3_client : Type := S3Client.

(** [let s3Client = null; if (env.S3_UPLOAD_ENABLED === "true") { s3Client = new S3Client(...) }] *)
Definition s3Client (env : environment) : option s3_client :=
  if String.eqb (S3_UPLOAD_ENABLED env) "true" then Some S3Client else None.

(** The [fetch] response, as far as it is inspected. *)
Record response : Type := Response {
  ok : bool;
  status : Z;
  content_type : option string;          (** [headers.get("content-type")] *)
  arrayBuffer : js_error + string        (** the body, or the read failing *)
}.

(** What the outside answers during one upload. *)
Record oracle : Type := Oracle {
  now : Z;                               (** [Date.now()] *)
  randomString : string;                 (** [Math.random().toString(36).substring(2, 10)] *)
  fetch_result : js_error + response;    (** [await fetch(imageUrl)] *)
  put_result : option js_error           (** [await s3Client.send(new PutObjectCommand(..))] *)
}.

(** [response.headers.get("content-type") || "image/png"] *)
Definition contentType (r : response) : string :=
  match content_type r with
  | Some s => if truthy_string s then s else "image/png"
  | None => "image/png"
  end.

Definition fileExtension (ct : string) : string :=
  if includes "jpeg" ct || includes "jpg" ct then ".jpg"
  else if includes "webp" ct then ".webp"
  else if includes "gif" ct then ".gif"
  else ".png".

Definition uploadToS3 (env : environment) (o : oracle) (imageUrl : string)
  : js_error + string :=
  match s3Client env with
  | None => inl (JsError "S3 client or configuration not available")
  | Some _ =>
      if negb (String.eqb (S3_UPLOAD_ENABLED env) "true")
      then inl (JsError "S3 client or configuration not available")
      else
        match fetch_result o with
        | inl e => inl e
        | inr resp =>
            if negb (ok resp)
            then inl (JsError ("Failed to download image: " +:+ pretty (status resp)))
            else
              let ct := contentType resp in
              let name := S3_KEY_PREFIX env +:+ pretty (now o) +:+ "-"
                            +:+ randomString o +:+ fileExtension ct in
              match arrayBuffer resp with
              | inl e => inl e
              | inr _ =>
                  match put_result o with
                  | Some e => inl e
                  | None => inr (S3_PUBLIC_ENDPOINT env +:+ "/" +:+ name)
                  end
              end
        end
  end.

End Upload.

(* ===================================================================== *)
(** ** The [generate-selfie] tool handler                                  *)
(* ===================================================================== *)

Module Tool.
Import Js Adapter.

Record text_content : Type := TextContent {
  type : string;
  text : string
}.

(** [CallToolResult]: [isError] is left out on success. *)
Record CallToolResult : Type := ToolResult {
  content : list text_content;
  isError : option bool
}.

(** What the collaborators do during one call. *)
Record world : Type := World {
  init_result : option js_error;       (** [await api.init()] *)
  builder_result : option js_error;    (** the [PromptBuilder] chain *)
  draw : Seed.unit_double;             (** [Math.random()] for the seed *)
  prestart_send : option js_error;     (** the notification before the job *)
  wrapper_result : option js_error;    (** building the [CallWrapper] in the executor *)
  events : list engine_event;          (** what the remote client then delivers *)
  upload : Upload.oracle
}.

(** A collaborator call that may throw. *)
Definition attempt (r : option js_error) : M unit :=
  match r with
  | None => mret tt
  | Some e => throw e
  end.

Definition lift_result {A} (r : js_error + A) : M A :=
  match r with
  | inl e => throw e
  | inr a => mret a
  end.

(** The hooks running as the remote client calls them. *)
Definition deliver_events (c : context) (evs : list engine_event) : M unit :=
  fun s => (Done tt, run_events c evs s).

(** An executor that throws rejects the promise it was building. *)
Definition executor_threw (e : js_error) : M unit :=
  fun s => (Done tt, State (reject e (awaited s)) (trace s)).

(** [new Promise((resolve, reject) => { new CallWrapper(...)...run(); })] *)
Definition new_promise (c : context) (prompt : string) (w : world) : M unit :=
  match wrapper_result w with
  | Some e => executor_threw e
  | None =>
      emit (Submit prompt (Seed.generate_seed (draw w)));;
      deliver_events c (events w)
  end.

(** [if (env.S3_UPLOAD_ENABLED && s3Client) { try { finalImageUrl = await
    uploadToS3(comfyImageUrl) } catch (s3Error) { } }] *)
Definition rehost (env : Upload.environment) (o : Upload.oracle)
    (comfyImageUrl : string) : M string :=
  if truthy_string (Upload.S3_UPLOAD_ENABLED env) && bool_decide (is_Some (Upload.s3Client env))
  then try_catch (lift_result (Upload.uploadToS3 env o comfyImageUrl))
                 (fun _ => mret comfyImageUrl)
  else mret comfyImageUrl.

(** The body of the handler's [try] block. *)
Definition try_block (env : Upload.environment) (c : context)
    (prompt : string) (w : world) : M CallToolResult :=
  attempt (init_result w);;
  attempt (builder_result w);;
  notify_progress (meta c) (prestart_send w) progress_zero;;
  new_promise c prompt w;;
  comfyImageUrl ← await_result;
  finalImageUrl ← rehost env (upload w) comfyImageUrl;
  mret (ToolResult [TextContent "text" finalImageUrl] None).

(** The [catch] block. *)
Definition catch_block (error : js_error) : M CallToolResult :=
  let errorMessage := error_message error in
  mret (ToolResult [TextContent "text" ("Error generating image: " +:+ errorMessage)]
                   (Some true)).

Definition generate_selfie (env : Upload.environment) (c : context)
    (prompt : string) (w : world) : M CallToolResult :=
  try_catch (try_block env c prompt w) catch_block.

(** The call gets as far as submitting the job: nothing before the
    promise threw. *)
Definition reaches_job (c : context) (w : world) : bool :=
  bool_decide (init_result w = None) && bool_decide (builder_result w = None)
  && match guard_token (meta c), prestart_send w with
     | Some _, Some _ => false
     | _, _ => true
     end
  && bool_decide (wrapper_result w = None).

Definition with_prestart_send (r : option js_error) (w : world) : world :=
  World (init_result w) (builder_result w) (draw w) r (wrapper_result w)
        (events w) (upload w).

Definition with_events (evs : list engine_event) (w : world) : world :=
  World (init_result w) (builder_result w) (draw w) (prestart_send w)
        (wrapper_result w) evs (upload w).

(** One tool call from a fresh state. *)
Definition call (env : Upload.environment) (c : context)
    (prompt : string) (w : world) : outcome CallToolResult * state :=
  generate_selfie env c prompt w initial.

Definition result_of (env : Upload.environment) (c : context)
    (prompt : string) (w : world) : outcome CallToolResult :=
  fst (call env c prompt w).

Definition trace_of (env : Upload.environment) (c : context)
    (prompt : string) (w : world) : list effect :=
  trace (snd (call env c prompt w)).

(** A success carries the URL as its one text item and no [isError]. *)
Definition is_success (r : CallToolResult) (url : string) : Prop :=
  r = ToolResult [TextContent "text" url] None.

(** An error result carries a description and [isError: true]. *)
Definition is_error_result (r : CallToolResult) (description : string) : Prop :=
  r = ToolResult [TextContent "text" description] (Some true).

Definition well_formed (r : CallToolResult) : Prop :=
  (exists url, is_success r url) \/ (exists description, is_error_result r description).

End Tool.

(* ===================================================================== *)
(** ** The hooks on the event loop                                         *)
(* ===================================================================== *)

Module Loop.
Import Js Adapter.

(** [onStart], [onPending] and [onProgress] are [async] functions with an
    [await sendNotification(...)] inside: such a hook runs up to the
    [await] in the turn in which the remote client calls it, and goes on
    in a later turn, once the notification's promise has settled.  Other
    callbacks can run in between.  Nothing handles the promise a hook
    returns ([CallWrapper] is given the hooks, the handler's [try] is not
    around them): a hook that ends by rejecting leaves an unhandled
    rejection, on which [node index.js] ends the process. *)

(** One turn of the event loop while the job runs.  [aborted] is what
    [signal.aborted] reads during the turn. *)
Inductive turn : Type :=
| Invoke (cb : callback) (aborted : bool)
    (** the remote client calls a hook *)
| Settle (index : nat) (result : option js_error) (aborted : bool)
    (** the notification awaited by the suspended hook number [index]
        resolves ([None]) or rejects ([Some e]) *)
| InterruptSettled (result : option js_error).
    (** the promise of an earlier [api.interrupt()], which the hook did
        not await, resolves or rejects *)

Record process : Type := Process {
  core : state;                 (** the awaited promise and the effects so far *)
  suspended : list callback;    (** the hooks stopped at their [await], oldest first *)
  interrupts_settled : nat;     (** how many [api.interrupt()] promises have settled *)
  exited : option js_error      (** the unhandled rejection that ended the process *)
}.

Definition start : process := Process initial [] 0 None.

Definition on_core (m : M unit) (p : process) : process :=
  Process (snd (m (core p))) (suspended p) (interrupts_settled p) (exited p).

(** What is left of a hook after its notification: [onPending] and
    [onProgress] go on to [if (signal.aborted) { api.interrupt(); }],
    [onStart] returns. *)
Definition resume (cb : callback) (aborted : bool) : M unit :=
  if polling_hook cb then check_cancellation aborted else mret tt.

(** [if (_meta?.progressToken) { await sendNotification({...}) }] and the
    rest of the hook: with a truthy token the message is handed over and
    the hook is suspended; without one nothing is awaited and the hook
    runs on in the same turn. *)
Definition notify_then (c : context) (cb : callback) (value : js_number)
    (aborted : bool) (p : process) : process :=
  match guard_token (meta c) with
  | Some tok =>
      Process
        (snd (emit (Notify (ProgressNotification "notifications/progress" value tok))
                   (core p)))
        (suspended p ++ [cb]) (interrupts_settled p) (exited p)
  | None => on_core (resume cb aborted) p
  end.

Definition invoke (c : context) (cb : callback) (aborted : bool) (p : process)
  : process :=
  match cb with
  | OnStart | OnPending => notify_then c cb progress_zero aborted p
  | OnProgress info => notify_then c cb (js_div (value info) (max info)) aborted p
  | OnFinished data => on_core (onFinished (getPathImage c) data) p
  | OnFailed err promptId => on_core (onFailed err promptId) p
  end.

Definition settle (index : nat) (result : option js_error) (aborted : bool)
    (p : process) : process :=
  match suspended p !! index with
  | None => p
  | Some cb =>
      match result with
      | None =>
          Process (snd (resume cb aborted (core p)))
                  (delete index (suspended p)) (interrupts_settled p) (exited p)
      | Some e =>
          Process (snd (emit (HookRejected e) (core p)))
                  (delete index (suspended p)) (interrupts_settled p) (Some e)
      end
  end.

(** [api.interrupt()] is called without [await] and without a handler:
    if its promise rejects, that rejection is unhandled as well. *)
Definition interrupt_settled (result : option js_error) (p : process) : process :=
  if (interrupts_settled p <? interrupts (trace (core p)))%nat
  then Process (core p) (suspended p) (S (interrupts_settled p))
               (match result with
                | Some e => Some e
                | None => exited p
                end)
  else p.

(** Nothing runs in a process that has ended. *)
Definition step (c : context) (p : process) (t : turn) : process :=
  match exited p with
  | Some _ => p
  | None =>
      match t with
      | Invoke cb aborted => invoke c cb aborted p
      | Settle index result aborted => settle index result aborted p
      | InterruptSettled result => interrupt_settled result p
      end
  end.

Definition run (c : context) (ts : list turn) (p : process) : process :=
  foldl (step c) p ts.

(** The effects a turn adds to the trace. *)
Definition added (c : context) (p : process) (t : turn) : list effect :=
  drop (length (trace (core p))) (trace (core (step c p t))).

Definition rejected (t : turn) : bool :=
  match t with
  | Settle _ (Some _) _ | InterruptSettled (Some _) => true
  | _ => false
  end.

Definition no_rejection (ts : list turn) : bool :=
  forallb (fun t => negb (rejected t)) ts.

Definition verdict (t : turn) : bool :=
  match t with
  | Invoke cb _ => terminal cb
  | _ => false
  end.

Definition no_verdict (ts : list turn) : bool :=
  forallb (fun t => negb (verdict t)) ts.

Definition signal_of (t : turn) : bool :=
  match t with
  | Invoke _ aborted => aborted
  | Settle _ _ aborted => aborted
  | InterruptSettled _ => false
  end.

(** The value a hook reports. *)
Definition sent (cb : callback) : js_number :=
  match cb with
  | OnProgress info => js_div (value info) (max info)
  | _ => progress_zero
  end.

(** The effects of [if (signal.aborted) { api.interrupt(); }] in the
    hooks that have it. *)
Definition checked (cb : callback) (aborted : bool) : list effect :=
  if polling_hook cb then ReadAborted aborted :: (if aborted then [Interrupt] else [])
  else [].

(** The turns in which [signal.aborted] is read: an [onPending] or
    [onProgress] called without a token, or resumed after its
    notification went through. *)
Definition reads_signal (c : context) (p : process) (t : turn) : bool :=
  match t with
  | Invoke cb _ => polling_hook cb && negb (bool_decide (is_Some (guard_token (meta c))))
  | Settle index None _ =>
      match suspended p !! index with
      | Some cb => polling_hook cb
      | None => false
      end
  | Settle _ (Some _) _ => false
  | InterruptSettled _ => false
  end.

(** A hook that is resumed before anything else happens. *)
Definition turns_of (d : delivery) : list turn :=
  [Invoke (hook d) (aborted d); Settle 0 (send_result d) (aborted d)].

(** What the caller of the tool gets. *)
Inductive reply : Type :=
| Answered (r : Tool.CallToolResult)   (** the handler returned [r] *)
| Faulted (e : js_error)               (** the handler's own promise rejected *)
| NoReply                              (** the handler is still waiting *)
| ProcessExited (e : js_error).        (** the process ended first *)

Definition of_outcome (o : outcome Tool.CallToolResult) : reply :=
  match o with
  | Done r => Answered r
  | Threw e => Faulted e
  | Waiting => NoReply
  end.

(** The turns up to the one that settles the awaited promise or ends the
    process.  (What the remote client delivers after that runs while the
    rest of the handler, with its upload, is under way.) *)
Fixpoint run_to_verdict (c : context) (ts : list turn) (p : process) : process :=
  match ts with
  | [] => p
  | t :: rest =>
      let p' := step c p t in
      if settled (awaited (core p')) || bool_decide (is_Some (exited p'))
      then p' else run_to_verdict c rest p'
  end.

(** The handler from [await new Promise(...)] on, inside its [try]. *)
Definition conclude (env : Upload.environment) (o : Upload.oracle)
  : M Tool.CallToolResult :=
  try_catch
    (comfyImageUrl ← await_result;
     finalImageUrl ← Tool.rehost env o comfyImageUrl;
     mret (Tool.ToolResult [Tool.TextContent "text" finalImageUrl] None))
    Tool.catch_block.

(** One tool call whose job is run by the turns [ts]. *)
Definition reply_of (env : Upload.environment) (c : context) (prompt : string)
    (w : Tool.world) (ts : list turn) : reply :=
  if Tool.reaches_job c w then
    let p := run_to_verdict c ts start in
    match exited p with
    | Some e => ProcessExited e
    | None => of_outcome (fst (conclude env (Tool.upload w) (core p)))
    end
  else of_outcome (Tool.result_of env c prompt w).

End Loop.

(* ===================================================================== *)
(** ** The session registry: the [transports] object and [POST /messages] *)
(* ===================================================================== *)

Module Registry.
Import Js.

Record SSEServerTransport : Type := Transport {
  sessionId : string
}.

(** The names every object literal inherits from [Object.prototype]; all
    of them hold a function or an object. *)
Definition object_prototype_keys : list string :=
  [ "constructor"; "__defineGetter__"; "__defineSetter__"; "hasOwnProperty";
    "__lookupGetter__"; "__lookupSetter__"; "isPrototypeOf";
    "propertyIsEnumerable"; "toString"; "valueOf"; "__proto__";
    "toLocaleString" ].

(** The value of a property read [transports[key]] on the object literal
    [{}]: an own entry, else what the prototype holds, else [undefined]. *)
Inductive property : Type :=
| Own (t : SSEServerTransport)
| Inherited (name : string)
| Undefined.

Definition get (transports : gmap string SSEServerTransport) (key : string) : property :=
  match transports !! key with
  | Some t => Own t
  | None => if bool_decide (key ∈ object_prototype_keys) then Inherited key else Undefined
  end.

(** [if (transport)] *)
Definition truthy (p : property) : bool :=
  match p with
  | Own _ | Inherited _ => true
  | Undefined => false
  end.

(** [GET /sse]: [transports[transport.sessionId] = transport] *)
Definition register (t : SSEServerTransport) (transports : gmap string SSEServerTransport)
  : gmap string SSEServerTransport :=
  <[sessionId t := t]> transports.

(** [res.on("close", () => { delete transports[transport.sessionId] })] *)
Definition on_close (t : SSEServerTransport) (transports : gmap string SSEServerTransport)
  : gmap string SSEServerTransport :=
  delete (sessionId t) transports.

(** How [POST /messages] ends. *)
Inductive post_result : Type :=
| HandlePostMessage (t : SSEServerTransport)   (** the body goes to the protocol layer *)
| Respond (status : Z) (body : string)
| PostThrew (e : js_error).

(** [req.query["sessionId"] as string] used as a property key: a missing
    parameter is [undefined], which indexes as ["undefined"]. *)
Definition property_key (query : option string) : string :=
  match query with
  | Some s => s
  | None => "undefined"
  end.

Definition post_messages (transports : gmap string SSEServerTransport)
    (query : option string) : post_result :=
  let transport := get transports (property_key query) in
  if truthy transport then
    match transport with
    | Own t => HandlePostMessage t
    | _ => PostThrew (JsError "transport.handlePostMessage is not a function")
    end
  else Respond 400 "No transport found for sessionId".

(** Tool logic is reachable from this endpoint only through
    [handlePostMessage]. *)
Definition runs_tool_logic (r : post_result) : bool :=
  match r with
  | HandlePostMessage _ => true
  | _ => false
  end.

End Registry.

(* ===================================================================== *)
(** ** The channel lifecycle: [GET /sse] and the [close] listener          *)
(* ===================================================================== *)

Module Lifecycle.
Import Registry.

(** What happens to the push channels over time: a client opens one
    ([transports[transport.sessionId] = transport]) or its response closes
    ([delete transports[transport.sessionId]]). *)
Inductive connection_event : Type :=
| Opened (t : SSEServerTransport)
| Closed (t : SSEServerTransport).

Definition session_of (ev : connection_event) : string :=
  match ev with
  | Opened t | Closed t => sessionId t
  end.

Definition step (transports : gmap string SSEServerTransport)
    (ev : connection_event) : gmap string SSEServerTransport :=
  match ev with
  | Opened t => register t transports
  | Closed t => on_close t transports
  end.

Definition serve (evs : list connection_event)
    (transports : gmap string SSEServerTransport) : gmap string SSEServerTransport :=
  foldl step transports evs.

(** The most recent event about one session identifier, if any. *)
Fixpoint last_about (id : string) (evs : list connection_event)
  : option connection_event :=
  match evs with
  | [] => None
  | ev :: rest =>
      match last_about id rest with
      | Some later => Some later
      | None => if String.eqb (session_of ev) id then Some ev else None
      end
  end.

(** Identifiers come from the transport ([randomUUID()]); the one key an
    assignment cannot turn into an own property is ["__proto__"]. *)
Definition storable (id : string) : Prop := id <> "__proto__".

End Lifecycle.

(* ===================================================================== *)
(** ** The environment schema: [envSchema.parse(process.env)]              *)
(* ===================================================================== *)

Module Config.

(** The issues a failed parse reports, by the key they are about. *)
Inductive issue_code : Type :=
| Required               (** a string is expected and the variable is not set *)
| ExpectedNumber         (** [z.number()] met a string *)
| InvalidUrl             (** [.url()] refused the string *)
| InvalidDiscriminator.  (** [S3_UPLOAD_ENABLED] is neither ["true"] nor ["false"] *)

Record issue : Type := Issue {
  path : string;
  code : issue_code
}.

(** A parse gives the value or every issue found, in schema order. *)
Definition validation (A : Type) : Type := list issue + A.

Definition ap {A B : Type} (f : validation (A -> B)) (x : validation A)
  : validation B :=
  match f, x with
  | inr g, inr a => inr (g a)
  | inl issues, inr _ => inl issues
  | inr _, inl issues => inl issues
  | inl issues, inl more => inl (issues ++ more)
  end.

Record base : Type := Base {
  COMFYUI_URL : string;
  WORKFLOW_FILE_PATH : string;
  POSITIVE_PROMPT_NODE_ID : string;
  POSITIVE_PROMPT_INPUT_NAME : string;
  OUTPUT_NODE_ID : string;
  SEED_NODE_ID : string;
  SEED_INPUT_NAME : string;
  PORT : Z
}.

Record s3_settings : Type := S3Settings {
  S3_REGION : string;
  S3_ACCESS_KEY_ID : string;
  S3_SECRET_ACCESS_KEY : string;
  S3_ENDPOINT : string;
  S3_BUCKET_NAME : string;
  S3_PUBLIC_ENDPOINT : string;
  S3_KEY_PREFIX : string
}.

(** The two members of the discriminated union on [S3_UPLOAD_ENABLED]. *)
Inductive storage : Type :=
| StorageOn (s : s3_settings)
| StorageOff.

Record env : Type := Env {
  settings : base;
  store : storage
}.

Section Schema.

(** The test behind [z.string().url()]. *)
Variable is_url : string -> bool.

(** [process.env]: every variable that is set holds a string. *)
Variable vars : gmap string string.

(** [z.string()] *)
Definition z_string (key : string) : validation string :=
  match vars !! key with
  | Some v => inr v
  | None => inl [Issue key Required]
  end.

(** [z.string().url()] *)
Definition z_string_url (key : string) : validation string :=
  match vars !! key with
  | Some v => if is_url v then inr v else inl [Issue key InvalidUrl]
  | None => inl [Issue key Required]
  end.

(** [z.string().default(d)] *)
Definition z_string_default (key d : string) : validation string :=
  match vars !! key with
  | Some v => inr v
  | None => inr d
  end.

(** [z.number().default(d)]: a variable that is set is a string, and a
    string is not a number. *)
Definition z_number_default (key : string) (d : Z) : validation Z :=
  match vars !! key with
  | Some _ => inl [Issue key ExpectedNumber]
  | None => inr d
  end.

Definition parse_base : validation base :=
  ap (ap (ap (ap (ap (ap (ap (ap (inr Base)
    (z_string_url "COMFYUI_URL"))
    (z_string_default "WORKFLOW_FILE_PATH" "workflow.json"))
    (z_string "POSITIVE_PROMPT_NODE_ID"))
    (z_string "POSITIVE_PROMPT_INPUT_NAME"))
    (z_string "OUTPUT_NODE_ID"))
    (z_string "SEED_NODE_ID"))
    (z_string "SEED_INPUT_NAME"))
    (z_number_default "PORT" 8000).

Definition parse_s3 : validation s3_settings :=
  ap (ap (ap (ap (ap (ap (ap (inr S3Settings)
    (z_string "S3_REGION"))
    (z_string "S3_ACCESS_KEY_ID"))
    (z_string "S3_SECRET_ACCESS_KEY"))
    (z_string_url "S3_ENDPOINT"))
    (z_string "S3_BUCKET_NAME"))
    (z_string_url "S3_PUBLIC_ENDPOINT"))
    (z_string_default "S3_KEY_PREFIX" "selfie/").

(** [z.discriminatedUnion("S3_UPLOAD_ENABLED", [s3Schema, {"false"}])] *)
Definition parse_storage : validation storage :=
  match vars !! "S3_UPLOAD_ENABLED" with
  | Some v =>
      if String.eqb v "true" then ap (inr StorageOn) parse_s3
      else if String.eqb v "false" then inr StorageOff
      else inl [Issue "S3_UPLOAD_ENABLED" InvalidDiscriminator]
  | None => inl [Issue "S3_UPLOAD_ENABLED" InvalidDiscriminator]
  end.

(** [z.object({..}).and(z.discriminatedUnion(..))]: both sides are
    parsed, and their issues add up. *)
Definition parse : validation env :=
  ap (ap (inr Env) parse_base) parse_storage.

End Schema.

(** What [uploadToS3] and the handler read of the parsed environment.
    With the switch off the S3 fields do not exist; they are then never
    read, and stand here as empty strings. *)
Definition upload_environment (e : env) : Upload.environment :=
  match store e with
  | StorageOn s =>
      Upload.Env "true" (S3_BUCKET_NAME s) (S3_PUBLIC_ENDPOINT s) (S3_KEY_PREFIX s)
  | StorageOff => Upload.Env "false" "" "" ""
  end.

Definition keys_of (issues : list issue) : list string := path <$> issues.

Definition accepted {A : Type} (v : validation A) : bool :=
  match v with
  | inr _ => true
  | inl _ => false
  end.

Definition issues_of {A : Type} (v : validation A) : list issue :=
  match v with
  | inr _ => []
  | inl issues => issues
  end.

(** The variables only [s3Schema] reads. *)
Definition s3_keys : list string :=
  [ "S3_REGION"; "S3_ACCESS_KEY_ID"; "S3_SECRET_ACCESS_KEY"; "S3_ENDPOINT";
    "S3_BUCKET_NAME"; "S3_PUBLIC_ENDPOINT"; "S3_KEY_PREFIX" ].

End Config.

(* ===================================================================== *)
(** ** [uploadToS3] with the calls it makes                                *)
(* ===================================================================== *)

Module UploadCalls.
Import Js Upload.

(** The input of the [PutObjectCommand]. *)
Record put_object : Type := PutObject {
  Bucket : string;
  Key : string;
  Body : string;
  ContentType : string;
  ACL : string
}.

(** The outside calls of one upload, in order. *)
Inductive call : Type :=
| Fetch (url : string)          (** [fetch(imageUrl)] *)
| ArrayBuffer                   (** [response.arrayBuffer()] *)
| Send (cmd : put_object).      (** [s3Client.send(new PutObjectCommand(cmd))] *)

Definition filename (env : environment) (o : oracle) (ct : string) : string :=
  S3_KEY_PREFIX env +:+ pretty (now o) +:+ "-" +:+ randomString o +:+ fileExtension ct.

(** [uploadToS3], returning its result together with the calls made. *)
Definition upload_run (env : environment) (o : oracle) (imageUrl : string)
  : (js_error + string) * list call :=
  match s3Client env with
  | None => (inl (JsError "S3 client or configuration not available"), [])
  | Some _ =>
      if negb (String.eqb (S3_UPLOAD_ENABLED env) "true")
      then (inl (JsError "S3 client or configuration not available"), [])
      else
        match fetch_result o with
        | inl e => (inl e, [Fetch imageUrl])
        | inr resp =>
            if negb (ok resp)
            then (inl (JsError ("Failed to download image: " +:+ pretty (status resp))),
                  [Fetch imageUrl])
            else
              let ct := contentType resp in
              let name := filename env o ct in
              match arrayBuffer resp with
              | inl e => (inl e, [Fetch imageUrl; ArrayBuffer])
              | inr imageBuffer =>
                  let uploadParams :=
                    PutObject (S3_BUCKET_NAME env) name imageBuffer ct "public-read" in
                  match put_result o with
                  | Some e => (inl e, [Fetch imageUrl; ArrayBuffer; Send uploadParams])
                  | None => (inr (S3_PUBLIC_ENDPOINT env +:+ "/" +:+ name),
                             [Fetch imageUrl; ArrayBuffer; Send uploadParams])
                  end
              end
        end
  end.

Definition sends (calls : list call) : list put_object :=
  omap (fun c => match c with Send cmd => Some cmd | _ => None end) calls.

Definition extensions : list string := [".jpg"; ".webp"; ".gif"; ".png"].

(** [needle] occurs somewhere in [hay]. *)
Definition occurs_in (needle hay : string) : Prop :=
  exists before after, hay = before +:+ needle +:+ after.

End UploadCalls.

(* ===================================================================== *)
(** ** Views of a call used to state its properties                        *)
(* ===================================================================== *)

Module Views.
Import Js Adapter Tool.

Definition with_upload (o : Upload.oracle) (w : world) : world :=
  World (init_result w) (builder_result w) (draw w) (prestart_send w)
        (wrapper_result w) (events w) o.

Definition is_submit (e : effect) : bool :=
  match e with
  | Submit _ _ => true
  | _ => false
  end.

Definition submits (tr : list effect) : nat := length (List.filter is_submit tr).

(** A hook invocation that requests an interrupt: it reads the signal (a
    polling hook whose notification went through) and finds it set. *)
Definition interrupting (c : context) (ev : engine_event) : bool :=
  match ev with
  | Hook d => polling_hook (hook d) && notification_completes c d && aborted d
  end.

(** A hook invocation that sends a notification when a token is there. *)
Definition reporting (ev : engine_event) : bool :=
  match ev with
  | Hook d => negb (terminal (hook d))
  end.

Definition is_error (r : CallToolResult) : bool :=
  match isError r with
  | Some true => true
  | _ => false
  end.

End Views.

(* ===================================================================== *)
(** ** The earlier handler: progress pushed through the session registry   *)
(* ===================================================================== *)

(** The repository's other copy of the server: its [generateSelfie] tool
    has neither cancellation nor storage, and reports progress by sending
    on the push channel registered for the call's session. *)
Module Legacy.
Import Js Registry.

(** [params.progress]: the literal ["0%"], or the template
    [`${(info.value / info.max) * 100}%`], kept as the pair its number is
    computed from. *)
Inductive progress_text : Type :=
| ZeroPercent
| PercentOf (value max : Z).

Record message : Type := Message {
  jsonrpc : string;
  method : string;
  progress : progress_text
}.

Definition progress_message (p : progress_text) : message :=
  Message "2.0" "progress" p.

(** The promise being awaited and what was sent, to whom, oldest first. *)
Record state : Type := State {
  awaited : promise;
  outbox : list (SSEServerTransport * message)
}.

Definition initial : state := State Pending [].

(** [if (sessionId) { transports[sessionId]?.send(msg) }]: the optional
    chain stops at [undefined] only; on an inherited value [.send] is not a
    function and the call throws. *)
Definition send_progress (transports : gmap string SSEServerTransport)
    (sessionId : option string) (p : progress_text) (s : state)
  : Adapter.outcome unit * state :=
  match sessionId with
  | Some id =>
      if truthy_string id then
        match get transports id with
        | Own t =>
            (Adapter.Done tt, State (awaited s) (outbox s ++ [(t, progress_message p)]))
        | Inherited _ =>
            (Adapter.Threw (JsError "transports[sessionId]?.send is not a function"), s)
        | Undefined => (Adapter.Done tt, s)
        end
      else (Adapter.Done tt, s)
  | None => (Adapter.Done tt, s)
  end.

(** What [onFinished] and [onFailed] do to the promise: the same bodies as
    in the later handler. *)
Definition settle (getPathImage : Adapter.path_builder) (cb : Adapter.callback)
    (p : promise) : promise :=
  match cb with
  | Adapter.OnFinished data =>
      Adapter.awaited (snd (Adapter.onFinished getPathImage data (Adapter.State p [])))
  | Adapter.OnFailed err _ => reject err p
  | _ => p
  end.

(** One hook invocation, with the registry as it is at that moment. *)
Record delivery : Type := Delivery {
  hook : Adapter.callback;
  transports_now : gmap string SSEServerTransport
}.

(** A hook that throws leaves the promise as it is. *)
Definition deliver (sessionId : option string) (getPathImage : Adapter.path_builder)
    (s : state) (d : delivery) : state :=
  match hook d with
  | Adapter.OnStart | Adapter.OnPending =>
      snd (send_progress (transports_now d) sessionId ZeroPercent s)
  | Adapter.OnProgress info =>
      snd (send_progress (transports_now d) sessionId
             (PercentOf (Adapter.value info) (Adapter.max info)) s)
  | cb => State (settle getPathImage cb (awaited s)) (outbox s)
  end.

Record world : Type := World {
  init_result : option js_error;       (** [await api.init()] *)
  builder_result : option js_error;    (** the [PromptBuilder] chain *)
  transports_at_start : gmap string SSEServerTransport;
  wrapper_result : option js_error;    (** building the [CallWrapper] *)
  deliveries : list delivery
}.

Definition error_result (error : js_error) : Tool.CallToolResult :=
  Tool.ToolResult
    [Tool.TextContent "text" ("Error generating image: " +:+ error_message error)]
    (Some true).

(** The handler: the [try] block with its [catch]. *)
Definition generateSelfie (sessionId : option string)
    (getPathImage : Adapter.path_builder) (w : world)
  : Adapter.outcome Tool.CallToolResult * state :=
  match init_result w with
  | Some e => (Adapter.Done (error_result e), initial)
  | None =>
      match builder_result w with
      | Some e => (Adapter.Done (error_result e), initial)
      | None =>
          match send_progress (transports_at_start w) sessionId ZeroPercent initial with
          | (Adapter.Threw e, s) => (Adapter.Done (error_result e), s)
          | (_, s) =>
              match wrapper_result w with
              | Some e => (Adapter.Done (error_result e), s)
              | None =>
                  let s' := foldl (deliver sessionId getPathImage) s (deliveries w) in
                  match awaited s' with
                  | Pending => (Adapter.Waiting, s')
                  | Fulfilled imageUrl =>
                      (Adapter.Done (Tool.ToolResult [Tool.TextContent "text" imageUrl] None), s')
                  | Rejected e => (Adapter.Done (error_result e), s')
                  end
              end
          end
      end
  end.


(** The same call with no channel registered at any moment. *)
Definition without_channels (w : world) : world :=
  World (init_result w) (builder_result w) ∅ (wrapper_result w)
        ((fun d => Delivery (hook d) ∅) <$> deliveries w).

(** The same behaviour of the collaborators, as the later handler sees it:
    every notification goes through and the signal is never aborted. *)
Definition as_modern (d : Seed.unit_double) (o : Upload.oracle) (w : world)
  : Tool.world :=
  Tool.World (init_result w) (builder_result w) d None (wrapper_result w)
    ((fun x => Adapter.Hook (Adapter.Delivery (hook x) None false)) <$> deliveries w) o.

End Legacy.

(* ===================================================================== *)
(** ** Concrete inputs used to exercise the model                          *)
(* ===================================================================== *)

Module Sample.
Import Js Adapter.

Definition comfy_path : path_builder :=
  fun i => inr ("http://comfy:8188/view?filename=" +:+ filename i).

Definition with_token : context := Context (Some (TokString "tok-1")) comfy_path.
Definition without_token : context := Context None comfy_path.

Definition selfie : image_info := ImageInfo "selfie_00001_.png" "" "output".

Definition hook_of (cb : callback) : engine_event := Hook (Delivery cb None false).

Definition finished_with (l : list image_info) : callback :=
  OnFinished (JobOutput (Some (NodeOutput (Some l)))).

Definition failed : callback :=
  OnFailed (JsError "Execution failed") (Some "prompt-1").

Definition s3_on : Upload.environment :=
  Upload.Env "true" "selfies" "https://cdn.example.org" "selfie/".

Definition s3_off : Upload.environment := Upload.Env "false" "" "" "".

Definition jpeg : Upload.response :=
  Upload.Response true 200 (Some "image/jpeg") (inr "bytes").

Definition upload_denied : Upload.oracle :=
  Upload.Oracle 1700000000000 "k3j9x0a1" (inr jpeg) (Some (JsError "AccessDenied")).

Definition upload_fine : Upload.oracle :=
  Upload.Oracle 1700000000000 "k3j9x0a1" (inr jpeg) None.

Definition half : Seed.unit_double := Seed.UnitDouble (2 ^ 52) 53.

Definition world_of (evs : list engine_event) (o : Upload.oracle) : Tool.world :=
  Tool.World None None half None None evs o.

Definition world_drawing (d : Seed.unit_double) : Tool.world :=
  Tool.World None None d None None [hook_of (finished_with [selfie])] upload_fine.

End Sample.

Module Cases.
Import Js Adapter.

Definition alice : Registry.SSEServerTransport :=
  Registry.Transport "3f0c7a52-9d1e-4b8a-a2f4-0b6c1d2e3f40".

Definition bob : Registry.SSEServerTransport :=
  Registry.Transport "b81d9e07-5a3c-4f6e-9c1b-7d2a4e6f8a90".

Definition accept_http (s : string) : bool := String.prefix "http" s.

Definition minimal_vars : gmap string string :=
  list_to_map
    [ ("COMFYUI_URL", "http://comfy:8188");
      ("POSITIVE_PROMPT_NODE_ID", "6");
      ("POSITIVE_PROMPT_INPUT_NAME", "text");
      ("OUTPUT_NODE_ID", "9");
      ("SEED_NODE_ID", "3");
      ("SEED_INPUT_NAME", "seed");
      ("S3_UPLOAD_ENABLED", "false") ].

Definition s3_vars : gmap string string :=
  list_to_map
    [ ("COMFYUI_URL", "http://comfy:8188");
      ("POSITIVE_PROMPT_NODE_ID", "6");
      ("POSITIVE_PROMPT_INPUT_NAME", "text");
      ("OUTPUT_NODE_ID", "9");
      ("SEED_NODE_ID", "3");
      ("SEED_INPUT_NAME", "seed");
      ("S3_UPLOAD_ENABLED", "true");
      ("S3_REGION", "auto");
      ("S3_ACCESS_KEY_ID", "key");
      ("S3_SECRET_ACCESS_KEY", "secret");
      ("S3_ENDPOINT", "https://s3.example.org");
      ("S3_BUCKET_NAME", "selfies");
      ("S3_PUBLIC_ENDPOINT", "https://cdn.example.org") ].

Definition no_header : Upload.response :=
  Upload.Response true 200 None (inr "bytes").

Definition upload_plain : Upload.oracle :=
  Upload.Oracle 1700000000000 "k3j9x0a1" (inr no_header) None.

Definition download_404 : Upload.oracle :=
  Upload.Oracle 1700000000000 "k3j9x0a1"
    (inr (Upload.Response false 404 (Some "text/html") (inr ""))) None.

Definition second : image_info := ImageInfo "selfie_00002_.png" "" "output".

Definition broken_path : path_builder := fun _ => inl (JsThrown "boom").

Definition send_fails : Tool.world :=
  Tool.World None None Sample.half (Some (JsError "Not connected")) None
    [Sample.hook_of (Sample.finished_with [Sample.selfie])] Sample.upload_fine.

Definition busy_events : list engine_event :=
  [ Sample.hook_of OnStart;
    Hook (Delivery OnPending None true);
    Hook (Delivery (OnProgress (ProgressInfo "3" 1 4)) (Some (JsError "Not connected")) true);
    Sample.hook_of (Sample.finished_with [Sample.selfie]);
    Hook (Delivery (OnProgress (ProgressInfo "3" 4 4)) None true) ].

Definition legacy_call : Legacy.world :=
  Legacy.World None None (Registry.register alice (Registry.register bob ∅)) None
    [ Legacy.Delivery OnStart (Registry.register alice (Registry.register bob ∅));
      Legacy.Delivery (OnProgress (ProgressInfo "3" 1 4)) (Registry.register bob ∅);
      Legacy.Delivery (Sample.finished_with [Sample.selfie]) (Registry.register bob ∅) ].

End Cases.

(* ===================================================================== *)
(** * Properties                                                          *)
(* ===================================================================== *)

(** Unfolds the monad so that a hook body computes on a symbolic state. *)
Ltac run_m :=
  unfold Adapter.deliver, Adapter.run_hook, Adapter.onStart, Adapter.onPending,
    Adapter.onProgress, Adapter.onFinished, Adapter.onFailed,
    Adapter.notify_progress, Adapter.check_cancellation,
    Adapter.sendNotification, Adapter.call_resolve, Adapter.call_reject,
    Adapter.try_catch, Adapter.emit, Adapter.throw,
    mbind, Adapter.M_bind, mret, Adapter.M_ret in *;
  cbn [fst snd Adapter.awaited Adapter.trace Adapter.hook Adapter.send_result
       Adapter.aborted] in *.

Module SeedFacts.
Import Seed.

Lemma valid_drawb_spec d : valid_drawb d = true <-> valid_draw d.
Proof.
  unfold valid_drawb, valid_draw.
  rewrite !andb_true_iff, !Z.leb_le, Z.ltb_lt. tauto.
Qed.

Lemma round_to_53_nonneg n : 0 <= n -> 0 <= round_to_53 n.
Proof.
  intros Hn. unfold round_to_53.
  destruct (Z.leb_spec (Z.log2 n - 52) 0) as [|Hs]; [lia|].
  apply Z.shiftl_nonneg.
  assert (0 <= Z.shiftr n (Z.log2 n - 52)) by (apply Z.shiftr_nonneg; lia).
  destruct (_ || _); lia.
Qed.

(** The rounded product of a draw with 10^6 stays strictly below 10^6. *)
Lemma round_to_53_below n :
  0 <= n <= (2 ^ 53 - 1) * 1000000 ->
  round_to_53 n < 1000000 * 2 ^ 53.
Proof.
  intros [Hn0 Hn]. unfold round_to_53.
  destruct (Z.leb_spec (Z.log2 n - 52) 0) as [|Hs]; [lia|].
  set (s := Z.log2 n - 52) in *.
  assert (Hpos : 0 < n).
  { destruct (Z.eq_dec n 0) as [->|]; [|lia]. cbn in s. lia. }
  destruct (Z.log2_spec n Hpos) as [Hlo Hhi].
  assert (Hlog : Z.log2 n = s + 52) by lia.
  assert (Hs20 : s <= 20).
  { assert (Z.log2 n < 73); [|lia].
    apply Z.log2_lt_pow2; lia. }
  rewrite Hlog in Hlo, Hhi.
  rewrite Z.shiftl_mul_pow2, Z.shiftr_div_pow2, Z.land_ones by lia.
  rewrite Z.shiftl_mul_pow2 by lia. rewrite Z.mul_1_l.
  replace (Z.succ (s + 52)) with (53 + s) in Hhi by lia.
  rewrite Z.pow_add_r in Hhi by lia.
  assert (H2s : 0 < 2 ^ s) by (apply Z.pow_pos_nonneg; lia).
  assert (Hq : n / 2 ^ s < 2 ^ 53).
  { apply Z.div_lt_upper_bound; lia. }
  destruct (Z.eq_dec s 20) as [Hs'|Hs'].
  - rewrite Hs' in *. clear Hlo Hhi H2s.
    change (2 ^ (20 - 1)) with 524288.
    change (2 ^ 20) with 1048576 in *.
    change (2 ^ 53) with 9007199254740992 in *.
    pose proof (Z.div_mod n 1048576 ltac:(lia)) as Hdm.
    pose proof (Z.mod_pos_bound n 1048576 ltac:(lia)) as Hmb.
    set (q := n / 1048576) in *. set (r := n mod 1048576) in *.
    destruct (Z.ltb_spec 524288 r) as [Hr|Hr]; cbn [orb].
    + lia.
    + destruct (Z.eqb_spec r 524288) as [Hr'|Hr']; cbn [andb]; [|lia].
      destruct (Z.odd q); lia.
  - assert (Hle : 2 ^ s <= 2 ^ 19) by (apply Z.pow_le_mono_r; lia).
    assert (Hup : (if (2 ^ (s - 1) <? n mod 2 ^ s)
                      || ((n mod 2 ^ s =? 2 ^ (s - 1)) && Z.odd (n / 2 ^ s))
                   then n / 2 ^ s + 1 else n / 2 ^ s) <= 2 ^ 53).
    { destruct (_ || _); lia. }
    change (2 ^ 19) with 524288 in Hle.
    change (2 ^ 53) with 9007199254740992 in *.
    nia.
Qed.

(** Every seed is one of the million integers 0 .. 999999. *)
Lemma generate_seed_range d :
  valid_draw d -> 0 <= generate_seed d <= 999999.
Proof.
  intros [[Hm0 Hm] [He _]]. unfold generate_seed, floor_mul.
  rewrite Z.shiftr_div_pow2 by lia.
  assert (Hn : 0 <= mant d * 1000000 <= (2 ^ 53 - 1) * 1000000) by lia.
  pose proof (round_to_53_nonneg _ (proj1 Hn)) as Hlo.
  pose proof (round_to_53_below _ Hn) as Hhi.
  assert (Hpow : 2 ^ 53 <= 2 ^ exp2 d) by (apply Z.pow_le_mono_r; lia).
  assert (Hpos : 0 < 2 ^ exp2 d) by lia.
  split.
  - apply Z.div_pos; lia.
  - assert (round_to_53 (mant d * 1000000) / 2 ^ exp2 d < 1000000); [|lia].
    apply Z.div_lt_upper_bound; [lia|]. nia.
Qed.

(** Rounding never passes a power of two: powers of two are doubles. *)
Lemma round_to_53_le_pow2 n j :
  0 <= j -> 0 <= n <= 2 ^ j -> round_to_53 n <= 2 ^ j.
Proof.
  intros Hj [Hn0 Hn]. unfold round_to_53.
  destruct (Z.leb_spec (Z.log2 n - 52) 0) as [|Hs]; [lia|].
  assert (Hpos : 0 < n).
  { destruct (Z.eq_dec n 0) as [->|]; [|lia]. cbn in Hs. lia. }
  destruct (Z.log2_spec n Hpos) as [Hlo Hhi].
  remember (Z.log2 n - 52) as s eqn:Es.
  assert (Hlog : Z.log2 n = s + 52) by lia.
  rewrite Hlog in Hlo, Hhi.
  rewrite Z.shiftl_mul_pow2, Z.shiftr_div_pow2, Z.land_ones by lia.
  rewrite Z.shiftl_mul_pow2 by lia. rewrite Z.mul_1_l.
  replace (Z.succ (s + 52)) with (53 + s) in Hhi by lia.
  rewrite Z.pow_add_r in Hhi by lia.
  assert (H2s : 0 < 2 ^ s) by (apply Z.pow_pos_nonneg; lia).
  assert (Hq : n / 2 ^ s < 2 ^ 53).
  { apply Z.div_lt_upper_bound; lia. }
  assert (Hjs : s + 52 <= j).
  { destruct (Z.le_gt_cases (s + 52) j) as [|Hlt]; [assumption|].
    assert (2 ^ j < 2 ^ (s + 52)) by (apply Z.pow_lt_mono_r; lia). lia. }
  destruct (Z.eq_dec j (s + 52)) as [->|Hne].
  - assert (Hn' : n = 2 ^ 52 * 2 ^ s).
    { rewrite <- Z.pow_add_r by lia. replace (52 + s) with (s + 52) by lia. lia. }
    assert (Hmod : n mod 2 ^ s = 0) by (rewrite Hn'; apply Z.mod_mul; lia).
    assert (Hdiv : n / 2 ^ s = 2 ^ 52) by (rewrite Hn'; apply Z.div_mul; lia).
    rewrite Hmod, Hdiv.
    assert (Hh : 0 < 2 ^ (s - 1)) by (apply Z.pow_pos_nonneg; lia).
    destruct (Z.ltb_spec (2 ^ (s - 1)) 0); [lia|].
    destruct (Z.eqb_spec 0 (2 ^ (s - 1))); [lia|]. cbn [orb andb]. lia.
  - assert (Hle : 2 ^ (53 + s) <= 2 ^ j) by (apply Z.pow_le_mono_r; lia).
    rewrite Z.pow_add_r in Hle by lia.
    assert (Hup : (if (2 ^ (s - 1) <? n mod 2 ^ s)
                      || ((n mod 2 ^ s =? 2 ^ (s - 1)) && Z.odd (n / 2 ^ s))
                   then n / 2 ^ s + 1 else n / 2 ^ s) <= 2 ^ 53).
    { destruct (_ || _); lia. }
    nia.
Qed.

(** Rounding to 53 bits moves a number to one of its two neighbours
    among the multiples of the dropped power of two, the nearer one. *)
Lemma half_ulp_exact (R S y d : Z) :
  0 < y -> 0 <= R < S ->
  (d = - R /\ 2 * R <= S) \/ (d = S - R /\ S <= 2 * R) ->
  2 * Z.abs (d * y) <= S * y.
Proof.
  intros Hy HR Hd. rewrite Z.abs_mul, (Z.abs_eq y) by lia.
  assert (2 * Z.abs d <= S) by (destruct Hd as [[-> ?]|[-> ?]]; lia).
  rewrite Z.mul_assoc. apply Z.mul_le_mono_nonneg_r; lia.
Qed.

Lemma half_ulp_sticky (R S y r d : Z) :
  0 < r < y -> 0 <= R < S -> R mod 2 = 1 -> S mod 4 = 0 ->
  (d = - R /\ 2 * R <= S) \/ (d = S - R /\ S <= 2 * R) ->
  2 * Z.abs (d * y + y - 2 * r) <= S * y.
Proof.
  intros Hr HR Hodd Hfour Hd.
  pose proof (Z.div_mod R 2 ltac:(lia)) as HR2. rewrite Hodd in HR2.
  pose proof (Z.div_mod S 4 ltac:(lia)) as HS4. rewrite Hfour in HS4.
  assert (Hgap : 2 * Z.abs d + 2 <= S \/ False \/ 2 * Z.abs d + 2 <= S).
  { destruct Hd as [[-> ?]|[-> ?]]; lia. }
  assert (Hb : 2 * Z.abs d + 2 <= S) by tauto. clear Hgap Hd HR2 HS4 Hodd Hfour HR.
  assert (H1 : 0 <= (S - 2 * d - 2) * y) by (apply Z.mul_nonneg_nonneg; lia).
  assert (H2 : 0 <= (S + 2 * d - 2) * y) by (apply Z.mul_nonneg_nonneg; lia).
  lia.
Qed.

Lemma round_to_53_cases n :
  2 ^ 53 <= n ->
  let s := Z.log2 n - 52 in
  let r := n mod 2 ^ s in
  (round_to_53 n = n - r /\ 2 * r <= 2 ^ s) \/
  (round_to_53 n = n - r + 2 ^ s /\ 2 ^ s <= 2 * r).
Proof.
  intros Hn. cbv zeta. unfold round_to_53.
  assert (Hpos : 0 < n) by lia.
  assert (Hl : 53 <= Z.log2 n) by (apply Z.log2_le_pow2; lia).
  destruct (Z.leb_spec (Z.log2 n - 52) 0) as [|Hs]; [lia|].
  remember (Z.log2 n - 52) as s eqn:Es.
  rewrite Z.shiftl_mul_pow2, Z.shiftr_div_pow2, Z.land_ones by lia.
  rewrite Z.shiftl_mul_pow2 by lia. rewrite Z.mul_1_l.
  assert (H2s : 0 < 2 ^ s) by (apply Z.pow_pos_nonneg; lia).
  assert (Hh : 2 ^ s = 2 * 2 ^ (s - 1)).
  { rewrite <- Z.pow_succ_r by lia. f_equal. lia. }
  pose proof (Z.div_mod n (2 ^ s) ltac:(lia)) as Hdm.
  pose proof (Z.mod_pos_bound n (2 ^ s) ltac:(lia)) as Hmb.
  set (q := n / 2 ^ s) in *. set (r := n mod 2 ^ s) in *.
  destruct (Z.ltb_spec (2 ^ (s - 1)) r) as [Hr|Hr]; cbn [orb].
  - right. lia.
  - destruct (Z.eqb_spec r (2 ^ (s - 1))) as [Hr'|Hr']; cbn [andb].
    + destruct (Z.odd q); [right|left]; lia.
    + left. lia.
Qed.

(** Draws in the same millionth of the unit interval give the same seed:
    here the two smallest positive multiples of 2^-53. *)
Lemma generate_seed_collision :
  generate_seed (UnitDouble 1 53) = generate_seed (UnitDouble 2 53).
Proof. reflexivity. Qed.

End SeedFacts.

Module JsFacts.
Import Seed Js SeedFacts.

(** For a counter that does not exceed its maximum the rounded quotient
    does not exceed 1. *)
Lemma nearest_quotient_fraction x y :
  0 < x <= y -> y < 2 ^ 53 ->
  0 <= fst (nearest_quotient x y) <= 2 ^ snd (nearest_quotient x y)
  /\ 0 < snd (nearest_quotient x y).
Proof.
  intros [Hx Hxy] Hy. unfold nearest_quotient. cbn [fst snd].
  set (k := 54 + Z.log2 y - Z.log2 x).
  assert (Hlx : 0 <= Z.log2 x) by apply Z.log2_nonneg.
  assert (Hly : Z.log2 x <= Z.log2 y) by (apply Z.log2_le_mono; lia).
  assert (Hk : 54 <= k) by (unfold k; lia).
  assert (H2k : 0 < 2 ^ k) by (apply Z.pow_pos_nonneg; lia).
  pose proof (Z.div_mod (x * 2 ^ k) y ltac:(lia)) as Hdm.
  pose proof (Z.mod_pos_bound (x * 2 ^ k) y ltac:(lia)) as Hmb.
  set (q := x * 2 ^ k / y) in *. set (r := (x * 2 ^ k) mod y) in *.
  assert (Hq0 : 0 <= q) by (apply Z.div_pos; nia).
  assert (Hn : 0 <= 2 * q + (if r =? 0 then 0 else 1) <= 2 ^ (k + 1)).
  { rewrite Z.pow_add_r by lia. change (2 ^ 1) with 2.
    destruct (Z.eqb_spec r 0) as [Hr|Hr]; [nia|].
    assert (q < 2 ^ k) by nia. lia. }
  split; [split|lia].
  - apply round_to_53_nonneg. lia.
  - apply round_to_53_le_pow2; [lia|exact Hn].
Qed.

(** The pair computed by [nearest_quotient] is a double (a 53-bit
    mantissa times a power of two) within half a unit in the last place
    of the exact quotient. *)
Lemma nearest_quotient_nearest x y :
  0 < x < 2 ^ 53 -> 0 < y < 2 ^ 53 ->
  exists s, 2 <= s <= 3 /\
    fst (nearest_quotient x y) mod 2 ^ s = 0 /\
    2 ^ 52 <= fst (nearest_quotient x y) / 2 ^ s <= 2 ^ 53 /\
    2 * Z.abs (fst (nearest_quotient x y) * y - x * 2 ^ snd (nearest_quotient x y))
      <= 2 ^ s * y.
Proof.
  intros [Hx Hx'] [Hy Hy']. unfold nearest_quotient. cbn [fst snd].
  destruct (Z.log2_spec x Hx) as [Hxl Hxh].
  destruct (Z.log2_spec y Hy) as [Hyl Hyh].
  assert (Hlx : 0 <= Z.log2 x <= 52).
  { split; [apply Z.log2_nonneg|]. assert (Z.log2 x < 53); [|lia].
    apply Z.log2_lt_pow2; lia. }
  assert (Hly : 0 <= Z.log2 y) by apply Z.log2_nonneg.
  remember (54 + Z.log2 y - Z.log2 x) as k eqn:Ek.
  assert (Hk : 2 <= k) by lia.
  assert (H2k : 0 < 2 ^ k) by (apply Z.pow_pos_nonneg; lia).
  assert (Hlow : 2 ^ 53 * y < x * 2 ^ k).
  { assert (2 ^ 53 * 2 ^ Z.succ (Z.log2 y) <= 2 ^ Z.log2 x * 2 ^ k); [|nia].
    rewrite <- !Z.pow_add_r by lia. apply Z.pow_le_mono_r; lia. }
  assert (Hhigh : x * 2 ^ k < 2 ^ 55 * y).
  { assert (2 ^ Z.succ (Z.log2 x) * 2 ^ k <= 2 ^ 55 * 2 ^ Z.log2 y); [|nia].
    rewrite <- !Z.pow_add_r by lia. apply Z.pow_le_mono_r; lia. }
  pose proof (Z.div_mod (x * 2 ^ k) y ltac:(lia)) as Hdm.
  pose proof (Z.mod_pos_bound (x * 2 ^ k) y ltac:(lia)) as Hmb.
  set (q := x * 2 ^ k / y) in *. set (r := (x * 2 ^ k) mod y) in *.
  assert (Hq : 2 ^ 53 <= q < 2 ^ 55) by nia.
  set (st := if r =? 0 then 0 else 1).
  assert (Hst : (st = 0 /\ r = 0) \/ (st = 1 /\ 0 < r)).
  { unfold st. destruct (Z.eqb_spec r 0); lia. }
  set (n := 2 * q + st).
  assert (Hn : 2 ^ 54 <= n < 2 ^ 56) by (unfold n; lia).
  assert (Hln : 54 <= Z.log2 n <= 55).
  { split; [apply Z.log2_le_pow2; lia|].
    assert (Z.log2 n < 56); [|lia]. apply Z.log2_lt_pow2; lia. }
  pose proof (round_to_53_cases n ltac:(lia)) as Hc. cbv zeta in Hc.
  destruct (Z.log2_spec n ltac:(lia)) as [Hnl Hnh].
  remember (Z.log2 n - 52) as s eqn:Es.
  exists s. split; [lia|].
  assert (H2s : 0 < 2 ^ s) by (apply Z.pow_pos_nonneg; lia).
  assert (Hlog : Z.log2 n = 52 + s) by lia.
  rewrite Hlog in Hnl. replace (Z.succ (Z.log2 n)) with (53 + s) in Hnh by lia.
  rewrite Z.pow_add_r in Hnl, Hnh by lia.
  pose proof (Z.div_mod n (2 ^ s) ltac:(lia)) as Hdn.
  pose proof (Z.mod_pos_bound n (2 ^ s) ltac:(lia)) as Hmn.
  set (Q := n / 2 ^ s) in *. set (R := n mod 2 ^ s) in *.
  assert (HQ : 2 ^ 52 <= Q < 2 ^ 53) by nia.
  assert (Hpar : st = 1 -> R mod 2 = 1).
  { intros H1. assert (Hs2 : 2 ^ s = 2 * 2 ^ (s - 1)).
    { rewrite <- Z.pow_succ_r by lia. f_equal. lia. }
    assert (R = 1 + 2 * (q - Q * 2 ^ (s - 1))) as -> by (unfold n in Hdn; nia).
    rewrite (Z.mul_comm 2), Z.mod_add by lia. reflexivity. }
  assert (Heven : (2 ^ s) mod 4 = 0).
  { replace s with (2 + (s - 2)) by lia. rewrite Z.pow_add_r by lia.
    change (2 ^ 2) with 4. rewrite Z.mul_comm. apply Z.mod_mul. lia. }
  replace (k + 1) with (1 + k) by lia. rewrite Z.pow_add_r by lia.
  change (2 ^ 1) with 2.
  assert (Hm : round_to_53 n = Q * 2 ^ s \/ round_to_53 n = (Q + 1) * 2 ^ s).
  { destruct Hc as [[-> _]|[-> _]]; [left|right]; lia. }
  split; [|split].
  - destruct Hm as [-> | ->]; apply Z.mod_mul; lia.
  - destruct Hm as [-> | ->]; rewrite Z.div_mul by lia; lia.
  - assert (Hexact : x * (2 * 2 ^ k) = (n - st) * y + 2 * r) by (unfold n; nia).
    rewrite Hexact.
    assert (Hd : (round_to_53 n - n = - R /\ 2 * R <= 2 ^ s) \/
                 (round_to_53 n - n = 2 ^ s - R /\ 2 ^ s <= 2 * R)).
    { destruct Hc as [[-> Hb]|[-> Hb]]; [left|right]; split; lia. }
    destruct Hst as [[H0 Hr0]|[H1 Hr1]].
    + replace (round_to_53 n * y - ((n - st) * y + 2 * r))
        with ((round_to_53 n - n) * y) by (rewrite H0, Hr0; ring).
      apply (half_ulp_exact R); [lia|lia|exact Hd].
    + replace (round_to_53 n * y - ((n - st) * y + 2 * r))
        with ((round_to_53 n - n) * y + y - 2 * r) by (rewrite H1; ring).
      apply (half_ulp_sticky R); auto; lia.
Qed.

(** [js_div] yields the double nearest to the exact quotient. *)
Lemma js_div_nearest x y :
  0 < x < 2 ^ 53 -> 0 < y < 2 ^ 53 ->
  exists m e s,
    js_div x y = Finite (dyadic false m e) /\
    2 <= s <= 3 /\ m mod 2 ^ s = 0 /\ 2 ^ 52 <= m / 2 ^ s <= 2 ^ 53 /\
    2 * Z.abs (m * y - x * 2 ^ e) <= 2 ^ s * y.
Proof.
  intros Hx Hy.
  destruct (nearest_quotient_nearest x y Hx Hy) as (s & Hs & Hm).
  exists (fst (nearest_quotient x y)), (snd (nearest_quotient x y)), s.
  split; [|split; [exact Hs|exact Hm]].
  unfold js_div.
  destruct (Z.eqb_spec y 0); [lia|]. destruct (Z.eqb_spec x 0); [lia|].
  rewrite (Z.abs_eq x), (Z.abs_eq y) by lia.
  destruct (Z.ltb_spec x 0); [lia|]. destruct (Z.ltb_spec y 0); [lia|].
  destruct (nearest_quotient x y). reflexivity.
Qed.

Lemma js_div_fraction x y :
  0 <= x <= y -> 0 < y < 2 ^ 53 ->
  exists q, js_div x y = Finite q /\ (0 <= q)%Q /\ (q <= 1)%Q.
Proof.
  intros [Hx Hxy] [Hy Hy']. unfold js_div.
  destruct (Z.eqb_spec y 0); [lia|].
  destruct (Z.eqb_spec x 0).
  - exists 0%Q. repeat split; unfold Qle; cbn; lia.
  - rewrite (Z.abs_eq x), (Z.abs_eq y) by lia.
    destruct (Z.ltb_spec x 0); [lia|]. destruct (Z.ltb_spec y 0); [lia|].
    pose proof (nearest_quotient_fraction x y ltac:(lia) Hy') as [[Hm0 Hm] He].
    destruct (nearest_quotient x y) as [m e]. cbn [fst snd xorb] in *.
    eexists; split; [reflexivity|].
    assert (H2e : 0 < 2 ^ e) by (apply Z.pow_pos_nonneg; lia).
    unfold dyadic. split.
    + rewrite Qred_correct. unfold Qle; cbn. lia.
    + rewrite Qred_correct. unfold Qle; cbn. rewrite Z2Pos.id by lia. lia.
Qed.

End JsFacts.

Module AdapterFacts.
Import Js Adapter.

(** A hook acts on the promise it finds and appends to the trace; what it
    appends does not depend on the state. *)
Ltac split_hook :=
  repeat match goal with
  | |- context [guard_token ?m] => destruct (guard_token m)
  | |- context [match ?x with _ => _ end] =>
      match x with
      | output_missing _ => destruct x eqn:?
      | first_image _ => destruct x eqn:?
      | getPathImage _ _ => destruct x eqn:?
      | _ => is_var x; destruct x
      end
  | |- context [if ?x then _ else _] => is_var x; destruct x
  end.

Lemma deliver_frame c s d :
  deliver c s d =
  State (awaited (deliver c (State (awaited s) []) d))
        (trace s ++ hook_effects c d).
Proof.
  unfold hook_effects, initial. destruct s as [p tr], d as [cb sr ab].
  run_m.
  destruct cb as [| |info|data|err pid]; cbn [hook]; split_hook;
    cbn; rewrite <- ?app_assoc, ?app_nil_r; reflexivity.
Qed.

Lemma trace_deliver c s d : trace (deliver c s d) = trace s ++ hook_effects c d.
Proof. now rewrite deliver_frame. Qed.

Lemma awaited_deliver_trace c p tr d :
  awaited (deliver c (State p tr) d) = awaited (deliver c (State p []) d).
Proof. now rewrite deliver_frame. Qed.

(** A settled promise is out of every hook's reach. *)
Lemma awaited_deliver_settled c s d :
  settled (awaited s) = true -> awaited (deliver c s d) = awaited s.
Proof.
  destruct s as [p tr], d as [cb sr ab]. cbn [awaited]. intros Hp.
  run_m.
  destruct cb as [| |info|data|err pid]; cbn [hook]; split_hook;
    cbn; destruct p; try discriminate; reflexivity.
Qed.

(** Only [onFinished] and [onFailed] touch the promise. *)
Lemma awaited_deliver_nonterminal c s d :
  terminal (hook d) = false -> awaited (deliver c s d) = awaited s.
Proof.
  destruct s as [p tr], d as [cb sr ab]. cbn [hook]. intros Hcb.
  run_m.
  destruct cb as [| |info|data|err pid]; try discriminate; split_hook;
    reflexivity.
Qed.

(** [onFinished] and [onFailed] always settle the promise they find. *)
Lemma awaited_deliver_terminal c s d :
  terminal (hook d) = true -> settled (awaited (deliver c s d)) = true.
Proof.
  destruct s as [p tr], d as [cb sr ab]. cbn [hook]. intros Hcb.
  run_m.
  destruct cb as [| |info|data|err pid]; try discriminate; split_hook;
    cbn; destruct p; reflexivity.
Qed.

Lemma awaited_react_settled c s ev :
  settled (awaited s) = true -> awaited (react c s ev) = awaited s.
Proof. destruct ev; cbn; apply awaited_deliver_settled. Qed.

Lemma awaited_react_nonterminal c s ev :
  terminal_event ev = false -> awaited (react c s ev) = awaited s.
Proof. destruct ev; cbn; apply awaited_deliver_nonterminal. Qed.

Lemma awaited_react_terminal c s ev :
  terminal_event ev = true -> settled (awaited (react c s ev)) = true.
Proof. destruct ev; cbn; apply awaited_deliver_terminal. Qed.

Lemma awaited_react_trace c p tr ev :
  awaited (react c (State p tr) ev) = awaited (react c (State p []) ev).
Proof. destruct ev; cbn; apply awaited_deliver_trace. Qed.

Lemma run_events_app c evs1 evs2 s :
  run_events c (evs1 ++ evs2) s = run_events c evs2 (run_events c evs1 s).
Proof. apply foldl_app. Qed.

Lemma run_events_cons c ev evs s :
  run_events c (ev :: evs) s = run_events c evs (react c s ev).
Proof. reflexivity. Qed.

Lemma no_terminal_cons ev evs :
  no_terminal (ev :: evs) = negb (terminal_event ev) && no_terminal evs.
Proof. reflexivity. Qed.

Lemma awaited_run_settled c evs : forall s,
  settled (awaited s) = true -> awaited (run_events c evs s) = awaited s.
Proof.
  induction evs as [|ev evs IH]; intros s Hs; [reflexivity|].
  rewrite run_events_cons, IH; rewrite awaited_react_settled; auto.
Qed.

Lemma awaited_run_no_terminal c evs : forall s,
  no_terminal evs = true -> awaited (run_events c evs s) = awaited s.
Proof.
  induction evs as [|ev evs IH]; intros s Hn; [reflexivity|].
  rewrite no_terminal_cons in Hn. apply andb_true_iff in Hn as [Hev Hn].
  apply negb_true_iff in Hev.
  rewrite run_events_cons, IH by assumption.
  now apply awaited_react_nonterminal.
Qed.

Lemma awaited_run_trace c evs : forall p tr,
  awaited (run_events c evs (State p tr)) = awaited (run_events c evs (State p [])).
Proof.
  induction evs as [|ev evs IH]; intros p tr; [reflexivity|].
  rewrite !run_events_cons.
  destruct (react c (State p tr) ev) as [p1 tr1] eqn:E1.
  destruct (react c (State p []) ev) as [p2 tr2] eqn:E2.
  assert (p1 = p2) as ->.
  { change p1 with (awaited (State p1 tr1)). rewrite <- E1.
    change p2 with (awaited (State p2 tr2)). rewrite <- E2.
    apply awaited_react_trace. }
  rewrite IH. symmetry. apply IH.
Qed.

Lemma no_terminal_app evs1 evs2 :
  no_terminal (evs1 ++ evs2) = no_terminal evs1 && no_terminal evs2.
Proof. apply forallb_app. Qed.

(** A run settles the promise exactly when it contains a terminal hook. *)
Lemma settled_run_iff c evs : forall s,
  awaited s = Pending ->
  settled (awaited (run_events c evs s)) = negb (no_terminal evs).
Proof.
  induction evs as [|ev evs IH]; intros s Hs.
  - cbn. now rewrite Hs.
  - rewrite run_events_cons, no_terminal_cons.
    destruct (terminal_event ev) eqn:Hev; cbn [negb andb].
    + rewrite awaited_run_settled; now apply awaited_react_terminal.
    + apply IH. now rewrite awaited_react_nonterminal.
Qed.

(** *** The history of the promise *)

Lemma history_app c evs1 evs2 : forall s,
  history c (evs1 ++ evs2) s =
  history c evs1 s ++ history c evs2 (run_events c evs1 s).
Proof.
  induction evs1 as [|ev evs1 IH]; intros s; [reflexivity|].
  cbn [app history]. now rewrite IH.
Qed.

Lemma last_cons_default {A} (l : list A) : forall q p,
  List.last (q :: l) p = List.last l q.
Proof.
  induction l as [|r l IH]; intros q p; [reflexivity|].
  change (List.last (q :: r :: l) p) with (List.last (r :: l) p).
  now rewrite (IH r p), (IH r q).
Qed.

Lemma changes_app p l1 l2 :
  changes p (l1 ++ l2) = (changes p l1 + changes (List.last l1 p) l2)%nat.
Proof.
  revert p. induction l1 as [|q l1 IH]; intros p; [reflexivity|].
  cbn [app changes]. rewrite IH, last_cons_default. lia.
Qed.

Lemma changes_settled c evs : forall s,
  settled (awaited s) = true -> changes (awaited s) (history c evs s) = 0%nat.
Proof.
  induction evs as [|ev evs IH]; intros s Hs; [reflexivity|].
  cbn [history changes].
  pose proof (awaited_react_settled c s ev Hs) as Hkeep.
  destruct (decide (awaited s = awaited (react c s ev))) as [_|Hne];
    [|congruence].
  cbn [Nat.add]. apply IH. now rewrite Hkeep.
Qed.

Lemma changes_no_terminal c evs : forall s,
  no_terminal evs = true -> changes (awaited s) (history c evs s) = 0%nat.
Proof.
  induction evs as [|ev evs IH]; intros s Hn; [reflexivity|].
  rewrite no_terminal_cons in Hn. apply andb_true_iff in Hn as [Hev Hn].
  apply negb_true_iff in Hev.
  cbn [history changes].
  pose proof (awaited_react_nonterminal c s ev Hev) as Hkeep.
  destruct (decide (awaited s = awaited (react c s ev))) as [_|Hne];
    [|congruence].
  cbn [Nat.add]. now apply IH.
Qed.

(** The promise changes at most once along any run. *)
Lemma changes_at_most_once c evs : forall s,
  (changes (awaited s) (history c evs s) <= 1)%nat.
Proof.
  induction evs as [|ev evs IH]; intros s; cbn [history changes]; [lia|].
  destruct (decide (awaited s = awaited (react c s ev))) as [Heq|Hne].
  - apply IH.
  - rewrite changes_settled; [lia|].
    destruct (settled (awaited s)) eqn:Hs.
    + exfalso. apply Hne. symmetry. now apply awaited_react_settled.
    + destruct (terminal_event ev) eqn:Hev.
      * now apply awaited_react_terminal.
      * exfalso. apply Hne. symmetry. now apply awaited_react_nonterminal.
Qed.

Lemma settle_count_at_most_once c evs : (settle_count c evs <= 1)%nat.
Proof. apply (changes_at_most_once c evs initial). Qed.

(** Counting exactly: no settlement without a terminal hook, one with. *)
Lemma changes_from_pending c evs : forall s,
  awaited s = Pending ->
  changes (awaited s) (history c evs s) = if no_terminal evs then 0%nat else 1%nat.
Proof.
  induction evs as [|ev evs IH]; intros s Hs; [reflexivity|].
  rewrite no_terminal_cons. cbn [history changes].
  destruct (terminal_event ev) eqn:Hev; cbn [negb andb].
  - pose proof (awaited_react_terminal c s ev Hev) as Hset.
    rewrite (changes_settled c evs _ Hset).
    destruct (decide _) as [Heq|_]; [|reflexivity].
    rewrite <- Heq, Hs in Hset. discriminate.
  - pose proof (awaited_react_nonterminal c s ev Hev) as Hkeep.
    destruct (decide _) as [_|Hne]; [|congruence].
    cbn [Nat.add]. apply IH. now rewrite Hkeep.
Qed.

Lemma settle_count_exact c evs :
  settle_count c evs = if no_terminal evs then 0%nat else 1%nat.
Proof. apply (changes_from_pending c evs initial eq_refl). Qed.

(** *** What each hook does, effect by effect *)

Lemma hook_effects_start c sr ab :
  hook_effects c (Delivery OnStart sr ab) =
  match guard_token (meta c) with
  | Some tok =>
      Notify (ProgressNotification "notifications/progress" progress_zero tok)
      :: match sr with Some e => [HookRejected e] | None => [] end
  | None => []
  end.
Proof.
  unfold hook_effects, initial. run_m.
  destruct (guard_token (meta c)), sr; reflexivity.
Qed.

Lemma hook_effects_pending c sr ab :
  hook_effects c (Delivery OnPending sr ab) =
  match guard_token (meta c) with
  | Some tok =>
      Notify (ProgressNotification "notifications/progress" progress_zero tok)
      :: after_notification sr ab
  | None => ReadAborted ab :: (if ab then [Interrupt] else [])
  end.
Proof.
  unfold hook_effects, initial. run_m.
  destruct (guard_token (meta c)), sr, ab; reflexivity.
Qed.

Lemma hook_effects_progress c sr ab info :
  hook_effects c (Delivery (OnProgress info) sr ab) =
  match guard_token (meta c) with
  | Some tok =>
      Notify (ProgressNotification "notifications/progress"
                (js_div (value info) (max info)) tok)
      :: after_notification sr ab
  | None => ReadAborted ab :: (if ab then [Interrupt] else [])
  end.
Proof.
  unfold hook_effects, initial. run_m.
  destruct (guard_token (meta c)), sr, ab; reflexivity.
Qed.

Lemma hook_effects_failed c sr ab err pid :
  hook_effects c (Delivery (OnFailed err pid) sr ab) = [CallReject err].
Proof. reflexivity. Qed.

Lemma hook_effects_finished c sr ab data :
  exists e, hook_effects c (Delivery (OnFinished data) sr ab) = [e] /\
            ((exists url, e = CallResolve url) \/ (exists err, e = CallReject err)).
Proof.
  unfold hook_effects, initial. run_m. split_hook; cbn; eauto.
Qed.

(** Every notification a hook sends carries the guarded token. *)
Lemma hook_notifications_token c d n :
  n ∈ notifications (hook_effects c d) ->
  guard_token (meta c) = Some (progressToken n).
Proof.
  destruct d as [cb sr ab]. destruct cb as [| |info|data|err pid].
  - rewrite hook_effects_start.
    destruct (guard_token (meta c)), sr; cbn;
      rewrite ?elem_of_cons, ?elem_of_nil; intros H;
      intuition (subst; reflexivity).
  - rewrite hook_effects_pending.
    destruct (guard_token (meta c)), sr, ab; cbn;
      rewrite ?elem_of_cons, ?elem_of_nil; intros H;
      intuition (subst; reflexivity).
  - rewrite hook_effects_progress.
    destruct (guard_token (meta c)), sr, ab; cbn;
      rewrite ?elem_of_cons, ?elem_of_nil; intros H;
      intuition (subst; reflexivity).
  - destruct (hook_effects_finished c sr ab data) as (e & -> & [[url ->]|[err ->]]);
      cbn; rewrite elem_of_nil; tauto.
  - rewrite hook_effects_failed. cbn. rewrite elem_of_nil. tauto.
Qed.

Lemma guard_token_Some m tok :
  guard_token m = Some tok -> m = Some tok /\ truthy_token tok = true.
Proof.
  destruct m as [t|]; cbn; [|discriminate].
  destruct (truthy_token t) eqn:Ht; [|discriminate].
  intros [= ->]. now split.
Qed.

Lemma trace_run_events c evs : forall s,
  trace (run_events c evs s) = trace s ++ events_effects c evs.
Proof.
  induction evs as [|ev evs IH]; intros s; cbn [events_effects flat_map].
  - now rewrite app_nil_r.
  - rewrite run_events_cons, IH. destruct ev as [d]; cbn [react].
    rewrite trace_deliver, <- app_assoc. reflexivity.
Qed.

(** C9: with a truthy progress token (a non-empty string or a non-zero
    number), [onProgress] sends exactly one notification; its value is the
    double [info.value / info.max], unclamped, and it carries the caller's
    token.  The value lies in [0,1] whenever the counters satisfy
    0 <= value <= max with max > 0 (integer counters below 2^53). *)
Theorem progress_is_value_over_max c info sr ab tok :
  guard_token (meta c) = Some tok ->
  notifications (hook_effects c (Delivery (OnProgress info) sr ab))
  = [ProgressNotification "notifications/progress"
       (js_div (value info) (max info)) tok] /\
  meta c = Some tok /\ truthy_token tok = true /\
  (0 <= value info <= max info -> 0 < max info < 2 ^ 53 ->
   exists q, js_div (value info) (max info) = Finite q /\ (0 <= q)%Q /\ (q <= 1)%Q).
Proof.
  intros Htok. split; [|split; [|split]].
  - rewrite hook_effects_progress, Htok. destruct sr, ab; reflexivity.
  - now apply guard_token_Some in Htok.
  - now apply guard_token_Some in Htok.
  - apply JsFacts.js_div_fraction.
Qed.

Lemma progress_is_value_over_max_witness :
  notifications (hook_effects Sample.with_token
                   (Delivery (OnProgress (ProgressInfo "3" 1 3)) None false))
  = [ProgressNotification "notifications/progress"
       (Finite (6004799503160661 # 18014398509481984)) (TokString "tok-1")] /\
  exists q, js_div 1 3 = Finite q /\ (0 <= q)%Q /\ (q <= 1)%Q.
Proof.
  pose proof (progress_is_value_over_max Sample.with_token
                (ProgressInfo "3" 1 3) None false (TokString "tok-1") eq_refl)
    as (Hsent & _ & _ & Hrange).
  split; [exact Hsent|].
  apply Hrange; cbn; lia.
Defined.

(** The emitted value leaves [0,1] when the remote engine reports a
    counter above its maximum, and is not a number when both are 0. *)
Lemma progress_outside_unit_interval :
  notifications (hook_effects Sample.with_token
                   (Delivery (OnProgress (ProgressInfo "3" 3 2)) None false))
  = [ProgressNotification "notifications/progress" (Finite (3 # 2)) (TokString "tok-1")] /\
  ~ (3 # 2 <= 1)%Q /\
  notifications (hook_effects Sample.with_token
                   (Delivery (OnProgress (ProgressInfo "3" 0 0)) None false))
  = [ProgressNotification "notifications/progress" NaN (TokString "tok-1")].
Proof.
  split; [reflexivity|]. split; [|reflexivity].
  unfold Qle; cbn. lia.
Qed.

Lemma last_history c evs : forall s,
  List.last (history c evs s) (awaited s) = awaited (run_events c evs s).
Proof.
  induction evs as [|ev evs IH]; intros s; [reflexivity|].
  cbn [history]. rewrite last_cons_default, run_events_cons. apply IH.
Qed.

(** The first terminal hook decides: the run ends with the verdict that
    hook gives on a fresh pending promise. *)
Lemma first_terminal_decides c pre t post :
  no_terminal pre = true ->
  terminal_event t = true ->
  awaited (run_events c (pre ++ t :: post) initial) = awaited (react c initial t).
Proof.
  intros Hpre Ht.
  rewrite run_events_app, run_events_cons.
  rewrite awaited_run_settled by now apply awaited_react_terminal.
  pose proof (awaited_run_no_terminal c pre initial Hpre) as Hp.
  destruct (run_events c pre initial) as [p tr]. cbn in Hp. subst p.
  apply awaited_react_trace.
Qed.

(** [onFinished] without a usable image list calls [reject] with the
    "not found" error, whatever state it finds. *)
Lemma deliver_missing_output c s data sr ab :
  output_missing (generated_image data) = true ->
  awaited (deliver c s (Delivery (OnFinished data) sr ab))
  = reject (JsError not_found_message) (awaited s).
Proof.
  intros Hmiss. destruct s as [p tr]. run_m. now rewrite Hmiss.
Qed.

Lemma deliver_failed c s err pid sr ab :
  awaited (deliver c s (Delivery (OnFailed err pid) sr ab)) = reject err (awaited s).
Proof. now destruct s. Qed.

(** C1: for a sequence of callbacks that contains a terminal one, the
    awaited promise changes state exactly once; it is still pending before
    the first terminal callback, that callback settles it with the verdict
    it would give on a fresh pending promise, and nothing delivered
    afterwards (further terminal callbacks included) changes it. *)
Theorem settles_once_by_first_terminal c pre t post :
  no_terminal pre = true ->
  terminal_event t = true ->
  settle_count c (pre ++ t :: post) = 1%nat /\
  awaited (run_events c pre initial) = Pending /\
  settled (awaited (run_events c (pre ++ [t]) initial)) = true /\
  awaited (run_events c (pre ++ t :: post) initial) = awaited (react c initial t) /\
  (forall extra,
     awaited (run_events c ((pre ++ t :: post) ++ extra) initial)
     = awaited (run_events c (pre ++ t :: post) initial)).
Proof.
  intros Hpre Ht.
  assert (Hp : awaited (run_events c pre initial) = Pending).
  { now rewrite awaited_run_no_terminal. }
  assert (Hverdict : awaited (react c (run_events c pre initial) t)
                     = awaited (react c initial t)).
  { destruct (run_events c pre initial) as [p tr]. cbn in Hp. subst p.
    apply awaited_react_trace. }
  assert (Hset : settled (awaited (react c (run_events c pre initial) t)) = true).
  { now apply awaited_react_terminal. }
  repeat split.
  - unfold settle_count. rewrite history_app, changes_app.
    pose proof (changes_no_terminal c pre initial Hpre) as Hquiet.
    pose proof (last_history c pre initial) as Hlast.
    cbn [awaited initial] in Hquiet, Hlast.
    rewrite Hquiet, Hlast, Hp. cbn [history changes].
    rewrite (changes_settled c post _ Hset).
    destruct (decide _) as [Heq|_]; [|reflexivity].
    rewrite <- Heq in Hset. discriminate.
  - exact Hp.
  - rewrite run_events_app. exact Hset.
  - rewrite run_events_app, run_events_cons, awaited_run_settled; assumption.
  - intros extra. rewrite (run_events_app c (pre ++ t :: post)).
    apply awaited_run_settled.
    rewrite run_events_app, run_events_cons, awaited_run_settled; assumption.
Qed.

Lemma settles_once_by_first_terminal_witness :
  settle_count Sample.with_token
    ([Sample.hook_of OnStart; Sample.hook_of OnPending]
       ++ Sample.hook_of (Sample.finished_with [Sample.selfie])
       :: [Sample.hook_of Sample.failed; Sample.hook_of (Sample.finished_with [])])
  = 1%nat /\
  awaited (run_events Sample.with_token
    ([Sample.hook_of OnStart; Sample.hook_of OnPending]
       ++ Sample.hook_of (Sample.finished_with [Sample.selfie])
       :: [Sample.hook_of Sample.failed; Sample.hook_of (Sample.finished_with [])])
    initial)
  = Fulfilled "http://comfy:8188/view?filename=selfie_00001_.png".
Proof.
  pose proof (settles_once_by_first_terminal Sample.with_token
    [Sample.hook_of OnStart; Sample.hook_of OnPending]
    (Sample.hook_of (Sample.finished_with [Sample.selfie]))
    [Sample.hook_of Sample.failed; Sample.hook_of (Sample.finished_with [])]
    eq_refl eq_refl) as (Hcount & _ & _ & Hfinal & _).
  split; [exact Hcount | exact Hfinal].
Defined.

End AdapterFacts.

Module UploadFacts.
Import Js Upload.

Lemma s3Client_enabled env :
  S3_UPLOAD_ENABLED env = "true" -> s3Client env = Some S3Client.
Proof. unfold s3Client. now intros ->. Qed.

(** Without the switch the client is never built and the upload refuses. *)
Lemma uploadToS3_disabled env o url :
  S3_UPLOAD_ENABLED env <> "true" ->
  uploadToS3 env o url = inl (JsError "S3 client or configuration not available").
Proof.
  intros Hoff. unfold uploadToS3, s3Client.
  destruct (String.eqb_spec (S3_UPLOAD_ENABLED env) "true"); [contradiction|reflexivity].
Qed.

(** The ways an enabled upload fails: the download throws or is not [ok],
    the body cannot be read, or the [PutObject] is refused. *)
Lemma uploadToS3_failure env o url e :
  S3_UPLOAD_ENABLED env = "true" ->
  uploadToS3 env o url = inl e <->
  fetch_result o = inl e \/
  (exists resp, fetch_result o = inr resp /\
     (ok resp = false /\ e = JsError ("Failed to download image: " +:+ pretty (status resp))
      \/ ok resp = true /\ arrayBuffer resp = inl e
      \/ ok resp = true /\ (exists body, arrayBuffer resp = inr body) /\
         put_result o = Some e)).
Proof.
  intros Hon. unfold uploadToS3. rewrite (s3Client_enabled env Hon), Hon. cbn.
  destruct (fetch_result o) as [e0|resp].
  - split; [intros [= ->]; now left|].
    intros [[= ->]|(resp & [=] & _)]. reflexivity.
  - destruct (ok resp) eqn:Hok; cbn.
    + destruct (arrayBuffer resp) as [e1|body] eqn:Hbody.
      * split; [intros [= ->]; right; exists resp; intuition|].
        intros [[=]|(r & [= <-] & [[Hk _]|[[_ He]|(_ & [b Hb] & _)]])];
          congruence.
      * destruct (put_result o) as [e2|] eqn:Hput.
        -- split; [intros [= ->]; right; exists resp; intuition eauto|].
           intros [[=]|(r & [= <-] & [[Hk _]|[[_ He]|(_ & _ & Hp)]])];
             congruence.
        -- split; [discriminate|].
           intros [[=]|(r & [= <-] & [[Hk _]|[[_ He]|(_ & _ & Hp)]])];
             congruence.
    + split; [intros [= <-]; right; exists resp; intuition|].
      intros [[=]|(r & [= <-] & [[_ ->]|[[Hk _]|(Hk & _)]])]; congruence.
Qed.

(** A completed upload answers with the public URL of the new object. *)
Lemma uploadToS3_success env o url hosted :
  uploadToS3 env o url = inr hosted ->
  exists resp,
    fetch_result o = inr resp /\ ok resp = true /\ put_result o = None /\
    hosted = S3_PUBLIC_ENDPOINT env +:+ "/" +:+
             (S3_KEY_PREFIX env +:+ pretty (now o) +:+ "-" +:+ randomString o
                +:+ fileExtension (contentType resp)).
Proof.
  unfold uploadToS3. destruct (s3Client env); [|discriminate].
  destruct (negb _); [discriminate|].
  destruct (fetch_result o) as [e|resp]; [discriminate|].
  destruct (ok resp) eqn:Hok; [|discriminate]. cbn.
  destruct (arrayBuffer resp); [discriminate|].
  destruct (put_result o); [discriminate|].
  intros [= <-]. exists resp. auto.
Qed.

Example upload_fine_url :
  uploadToS3 Sample.s3_on Sample.upload_fine
    "http://comfy:8188/view?filename=selfie_00001_.png"
  = inr "https://cdn.example.org/selfie/1700000000000-k3j9x0a1.jpg".
Proof. reflexivity. Qed.

Example upload_denied_error :
  uploadToS3 Sample.s3_on Sample.upload_denied
    "http://comfy:8188/view?filename=selfie_00001_.png"
  = inl (JsError "AccessDenied").
Proof. reflexivity. Qed.

End UploadFacts.

Module ToolFacts.
Import Js Adapter Tool AdapterFacts.

Ltac run_tool :=
  unfold result_of, trace_of, call, generate_selfie, try_block, catch_block,
    new_promise, executor_threw, deliver_events, attempt, rehost, lift_result,
    await_result, initial in *;
  run_m.

(** The text of an error result. *)
Lemma error_text_shape e :
  is_error_result
    (ToolResult [TextContent "text" ("Error generating image: " +:+ error_message e)]
                (Some true))
    ("Error generating image: " +:+ error_message e).
Proof. reflexivity. Qed.

(** A call that fails before the job is submitted returns an error result. *)
Lemma call_not_reached env c prompt w :
  reaches_job c w = false ->
  exists e,
    result_of env c prompt w =
    Done (ToolResult [TextContent "text" ("Error generating image: " +:+ error_message e)]
                     (Some true)).
Proof.
  unfold reaches_job. intros H. run_tool.
  destruct (init_result w) as [e|]; [exists e; reflexivity|].
  destruct (builder_result w) as [e|]; [exists e; reflexivity|].
  destruct (guard_token (meta c)) as [tok|], (prestart_send w) as [e|];
    try (exists e; reflexivity);
    (destruct (wrapper_result w) as [e'|]; [exists e'; reflexivity|]);
    cbn in H; discriminate.
Qed.

(** A call that submits the job returns what the awaited promise says:
    it waits while the promise is pending, turns a rejection into an error
    result, and passes a fulfilment through the optional re-hosting. *)
Lemma call_reached env c prompt w :
  reaches_job c w = true ->
  result_of env c prompt w =
  match awaited (run_events c (events w) initial) with
  | Pending => Waiting
  | Rejected e =>
      Done (ToolResult [TextContent "text" ("Error generating image: " +:+ error_message e)]
                       (Some true))
  | Fulfilled url =>
      Done (ToolResult
              [TextContent "text"
                 (if truthy_string (Upload.S3_UPLOAD_ENABLED env)
                     && bool_decide (is_Some (Upload.s3Client env))
                  then match Upload.uploadToS3 env (upload w) url with
                       | inr hosted => hosted
                       | inl _ => url
                       end
                  else url)]
              None)
  end.
Proof.
  unfold reaches_job. intros H. run_tool.
  destruct (init_result w) as [e|]; [cbn in H; discriminate|].
  destruct (builder_result w) as [e|]; [cbn in H; discriminate|].
  destruct (wrapper_result w) as [e|];
    [rewrite andb_false_r in H; discriminate|].
  destruct (guard_token (meta c)) as [tok|], (prestart_send w) as [e|];
    try (cbn in H; discriminate); cbn;
    match goal with
    | |- context [run_events c (events w) (State Pending ?tr)] =>
        pose proof (awaited_run_trace c (events w) Pending tr) as Hsame;
        destruct (run_events c (events w) (State Pending tr)) as [p tr'];
        cbn [awaited] in Hsame; rewrite <- Hsame
    end;
    (destruct p as [|url|err]; cbn; try reflexivity;
     destruct (truthy_string _ && _); cbn; try reflexivity;
     destruct (Upload.uploadToS3 env (upload w) url); reflexivity).
Qed.

(** The effects of a whole call: the notification before the job, the
    submission, then whatever the hooks do. *)
Lemma trace_of_shape env c prompt w :
  trace_of env c prompt w =
  match init_result w, builder_result w with
  | None, None =>
      let job :=
        match wrapper_result w with
        | Some _ => []
        | None => Submit prompt (Seed.generate_seed (draw w))
                  :: events_effects c (events w)
        end in
      match guard_token (meta c) with
      | Some tok =>
          Notify (ProgressNotification "notifications/progress" progress_zero tok)
          :: match prestart_send w with Some _ => [] | None => job end
      | None => job
      end
  | _, _ => []
  end.
Proof.
  run_tool.
  destruct (init_result w) as [e|]; [reflexivity|].
  destruct (builder_result w) as [e|]; [reflexivity|].
  destruct (guard_token (meta c)) as [tok|], (prestart_send w) as [e|];
    try reflexivity;
    (destruct (wrapper_result w) as [e'|]; cbn; [reflexivity|]);
    match goal with
    | |- context [run_events c (events w) (State Pending ?tr)] =>
        pose proof (trace_run_events c (events w) (State Pending tr)) as Htr;
        destruct (run_events c (events w) (State Pending tr)) as [p tr'];
        cbn [trace] in Htr; subst tr'
    end;
    (destruct p as [|url|err]; cbn; try reflexivity;
     destruct (truthy_string _ && _); cbn; try reflexivity;
     destruct (Upload.uploadToS3 env (upload w) url); reflexivity).
Qed.

Lemma elem_of_events_effects c evs e :
  e ∈ events_effects c evs <-> exists d, Hook d ∈ evs /\ e ∈ hook_effects c d.
Proof.
  unfold events_effects. rewrite list_elem_of_In, in_flat_map. split.
  - intros (ev & Hin & He). destruct ev as [d].
    exists d. now rewrite !list_elem_of_In.
  - intros (d & Hin & He). exists (Hook d). now rewrite <- !list_elem_of_In.
Qed.

(** Every effect of a call is the notification before the job, the
    submission, or an effect of one of the delivered hooks. *)
Lemma elem_of_trace_of env c prompt w e :
  e ∈ trace_of env c prompt w ->
  (exists tok, guard_token (meta c) = Some tok /\
     e = Notify (ProgressNotification "notifications/progress" progress_zero tok)) \/
  e = Submit prompt (Seed.generate_seed (draw w)) \/
  (exists d, Hook d ∈ events w /\ e ∈ hook_effects c d).
Proof.
  rewrite trace_of_shape.
  destruct (init_result w), (builder_result w);
    try (rewrite elem_of_nil; tauto).
  destruct (guard_token (meta c)) as [tok|] eqn:Htok,
           (prestart_send w), (wrapper_result w);
    cbn; rewrite ?elem_of_cons, ?elem_of_nil, ?elem_of_events_effects;
    intuition eauto.
Qed.

(** C2: when the first terminal callback is an [onFinished] whose output
    slot is missing, has no image list, or has an empty one, the awaited
    promise is rejected with the "not found" error and the tool returns an
    error result ([isError: true]) whose text contains "not found"; such
    a callback calls [reject], never [resolve], in whatever state it
    finds the promise. *)
Theorem missing_output_is_error env c prompt w pre data sr ab post :
  reaches_job c w = true ->
  events w = pre ++ Hook (Delivery (OnFinished data) sr ab) :: post ->
  no_terminal pre = true ->
  output_missing (generated_image data) = true ->
  awaited (run_events c (events w) initial) = Rejected (JsError not_found_message) /\
  includes "not found" (toLowerCase (error_message (JsError not_found_message))) = true /\
  (exists description,
     result_of env c prompt w
     = Done (ToolResult [TextContent "text" description] (Some true)) /\
     includes "not found" (toLowerCase description) = true) /\
  (forall s, awaited (deliver c s (Delivery (OnFinished data) sr ab))
             = reject (JsError not_found_message) (awaited s)).
Proof.
  intros Hreach Hevs Hpre Hmiss.
  assert (Hrej : awaited (run_events c (events w) initial)
                 = Rejected (JsError not_found_message)).
  { rewrite Hevs, first_terminal_decides by (assumption || reflexivity).
    cbn [react]. now rewrite deliver_missing_output. }
  split; [exact Hrej|]. split; [reflexivity|]. split.
  - eexists. rewrite (call_reached env c prompt w Hreach), Hrej.
    split; reflexivity.
  - intros s. now apply deliver_missing_output.
Qed.

Lemma missing_output_is_error_witness :
  awaited (run_events Sample.with_token
             [Sample.hook_of OnStart; Sample.hook_of (Sample.finished_with [])]
             initial)
  = Rejected (JsError not_found_message) /\
  exists description,
    result_of Sample.s3_off Sample.with_token "smiling, outdoors"
      (Sample.world_of [Sample.hook_of OnStart;
                        Sample.hook_of (Sample.finished_with [])]
                       Sample.upload_fine)
    = Done (ToolResult [TextContent "text" description] (Some true)) /\
    includes "not found" (toLowerCase description) = true.
Proof.
  destruct (missing_output_is_error Sample.s3_off Sample.with_token
              "smiling, outdoors"
              (Sample.world_of [Sample.hook_of OnStart;
                                Sample.hook_of (Sample.finished_with [])]
                               Sample.upload_fine)
              [Sample.hook_of OnStart]
              (JobOutput (Some (NodeOutput (Some [])))) None false []
              eq_refl eq_refl eq_refl eq_refl)
    as (Hrej & _ & Hres & _).
  split; [exact Hrej | exact Hres].
Defined.

Lemma well_formed_error e :
  well_formed
    (ToolResult [TextContent "text" ("Error generating image: " +:+ error_message e)]
                (Some true)).
Proof. right. eexists. reflexivity. Qed.

Lemma well_formed_success url :
  well_formed (ToolResult [TextContent "text" url] None).
Proof. left. eexists. reflexivity. Qed.

(** The call returns unless it is left waiting for a terminal hook. *)
Lemma call_returns_or_waits env c prompt w :
  if reaches_job c w && no_terminal (events w)
  then result_of env c prompt w = Waiting
  else exists r, result_of env c prompt w = Done r /\ well_formed r.
Proof.
  destruct (reaches_job c w) eqn:Hreach; cbn [andb].
  - rewrite (call_reached env c prompt w Hreach).
    pose proof (settled_run_iff c (events w) initial eq_refl) as Hset.
    destruct (awaited (run_events c (events w) initial)) as [|url|e];
      destruct (no_terminal (events w)); cbn in Hset; try discriminate.
    + reflexivity.
    + eexists. split; [reflexivity|]. apply well_formed_success.
    + eexists. split; [reflexivity|]. apply well_formed_error.
  - destruct (call_not_reached env c prompt w Hreach) as [e He].
    eexists. split; [exact He|]. apply well_formed_error.
Qed.

(** C4: with S3 upload enabled, a job that succeeded and an upload that
    fails (whatever the failure) still give a success result: the upload is
    attempted, its error is swallowed, and the text of the result is the
    URL the remote engine built, not a storage URL. *)
Theorem upload_failure_falls_back env c prompt w url e :
  Upload.S3_UPLOAD_ENABLED env = "true" ->
  reaches_job c w = true ->
  awaited (run_events c (events w) initial) = Fulfilled url ->
  Upload.uploadToS3 env (upload w) url = inl e ->
  truthy_string (Upload.S3_UPLOAD_ENABLED env)
    && bool_decide (is_Some (Upload.s3Client env)) = true /\
  result_of env c prompt w = Done (ToolResult [TextContent "text" url] None).
Proof.
  intros Hon Hreach Hjob Hup. split.
  - rewrite (UploadFacts.s3Client_enabled env Hon), Hon. reflexivity.
  - rewrite (call_reached env c prompt w Hreach), Hjob, Hup.
    now destruct (truthy_string _ && _).
Qed.

Lemma upload_failure_falls_back_witness :
  result_of Sample.s3_on Sample.with_token "smiling, outdoors"
    (Sample.world_of [Sample.hook_of (Sample.finished_with [Sample.selfie])]
                     Sample.upload_denied)
  = Done (ToolResult
            [TextContent "text" "http://comfy:8188/view?filename=selfie_00001_.png"]
            None).
Proof.
  apply (proj2 (upload_failure_falls_back Sample.s3_on Sample.with_token
           "smiling, outdoors"
           (Sample.world_of [Sample.hook_of (Sample.finished_with [Sample.selfie])]
                            Sample.upload_denied)
           "http://comfy:8188/view?filename=selfie_00001_.png"
           (JsError "AccessDenied") eq_refl eq_refl eq_refl eq_refl)).
Defined.

(** Scenario A: one image, no re-hosting. *)
Example scenario_success :
  result_of Sample.s3_off Sample.with_token "smiling, outdoors"
    (Sample.world_of [Sample.hook_of OnStart; Sample.hook_of OnPending;
                      Sample.hook_of (OnProgress (ProgressInfo "3" 5 20));
                      Sample.hook_of (Sample.finished_with [Sample.selfie])]
                     Sample.upload_fine)
  = Done (ToolResult
            [TextContent "text" "http://comfy:8188/view?filename=selfie_00001_.png"]
            None).
Proof. reflexivity. Qed.

(** The same job with re-hosting on and a working bucket. *)
Example scenario_rehosted :
  result_of Sample.s3_on Sample.with_token "smiling, outdoors"
    (Sample.world_of [Sample.hook_of (Sample.finished_with [Sample.selfie])]
                     Sample.upload_fine)
  = Done (ToolResult
            [TextContent "text" "https://cdn.example.org/selfie/1700000000000-k3j9x0a1.jpg"]
            None).
Proof. reflexivity. Qed.

(** *** Cancellation *)

Lemma polls_hook_effects c d :
  polls (hook_effects c d) =
  if polling_hook (hook d) && notification_completes c d then [aborted d] else [].
Proof.
  destruct d as [cb sr ab]. unfold notification_completes. cbn [hook send_result aborted].
  destruct cb as [| |info|data|err pid]; cbn [polling_hook andb].
  - rewrite hook_effects_start. destruct (guard_token (meta c)), sr; reflexivity.
  - rewrite hook_effects_pending. destruct (guard_token (meta c)), sr, ab; reflexivity.
  - rewrite hook_effects_progress. destruct (guard_token (meta c)), sr, ab; reflexivity.
  - destruct (hook_effects_finished c sr ab data) as (e & -> & [[url ->]|[err ->]]);
      reflexivity.
  - reflexivity.
Qed.

Ltac by_position i :=
  destruct i as [|[|[|[|i]]]]; cbn; rewrite ?lookup_nil; congruence.

Lemma interrupt_follows_poll c d i :
  hook_effects c d !! i = Some (ReadAborted true) ->
  hook_effects c d !! S i = Some Interrupt.
Proof.
  destruct d as [cb sr ab]. destruct cb as [| |info|data|err pid].
  - rewrite hook_effects_start.
    destruct (guard_token (meta c)), sr; by_position i.
  - rewrite hook_effects_pending.
    destruct (guard_token (meta c)), sr, ab; by_position i.
  - rewrite hook_effects_progress.
    destruct (guard_token (meta c)), sr, ab; by_position i.
  - destruct (hook_effects_finished c sr ab data) as (e & -> & [[url ->]|[err ->]]);
      by_position i.
  - rewrite hook_effects_failed. by_position i.
Qed.

Lemma elem_of_polls tr b : ReadAborted b ∈ tr <-> b ∈ polls tr.
Proof.
  unfold polls. rewrite list_elem_of_omap. split.
  - intros H. exists (ReadAborted b). auto.
  - intros (e & He & Hb). destruct e; try discriminate. now injection Hb as ->.
Qed.

(** *** The seed *)

Lemma hook_effects_no_submit c d p sd : Submit p sd ∉ hook_effects c d.
Proof.
  destruct d as [cb sr ab]. destruct cb as [| |info|data|err pid].
  - rewrite hook_effects_start. destruct (guard_token (meta c)), sr;
      rewrite ?elem_of_cons, ?elem_of_nil; intuition discriminate.
  - rewrite hook_effects_pending. destruct (guard_token (meta c)), sr, ab; cbn;
      rewrite ?elem_of_cons, ?elem_of_nil; intuition discriminate.
  - rewrite hook_effects_progress. destruct (guard_token (meta c)), sr, ab; cbn;
      rewrite ?elem_of_cons, ?elem_of_nil; intuition discriminate.
  - destruct (hook_effects_finished c sr ab data) as (e & -> & [[url ->]|[err ->]]);
      rewrite ?elem_of_cons, ?elem_of_nil; intuition discriminate.
  - rewrite hook_effects_failed.
    rewrite ?elem_of_cons, ?elem_of_nil; intuition discriminate.
Qed.

(** C8: a call submits its job with the caller's prompt and with the seed
    computed from that call's own [Math.random()] draw, an integer between
    0 and 999999. *)
Theorem seed_is_one_bounded_draw env c prompt w p sd :
  Seed.valid_draw (draw w) ->
  Submit p sd ∈ trace_of env c prompt w ->
  p = prompt /\ sd = Seed.generate_seed (draw w) /\ 0 <= sd <= 999999.
Proof.
  intros Hdraw Hin.
  destruct (elem_of_trace_of env c prompt w _ Hin)
    as [(tok & _ & [=]) | [[= -> ->] | (d & _ & Hd)]].
  - split; [reflexivity|]. split; [reflexivity|].
    now apply SeedFacts.generate_seed_range.
  - now apply hook_effects_no_submit in Hd.
Qed.

Lemma seed_is_one_bounded_draw_witness :
  "smiling, outdoors" = "smiling, outdoors" /\
  500000 = Seed.generate_seed Sample.half /\ 0 <= 500000 <= 999999.
Proof.
  apply (seed_is_one_bounded_draw Sample.s3_off Sample.without_token
           "smiling, outdoors" (Sample.world_drawing Sample.half)).
  - apply SeedFacts.valid_drawb_spec. reflexivity.
  - apply list_elem_of_here.
Defined.

(** Two calls whose draws differ submit the same seed. *)
Lemma seed_reused_by_two_calls :
  Seed.valid_draw (Seed.UnitDouble 1 53) /\
  Seed.valid_draw (Seed.UnitDouble 2 53) /\
  trace_of Sample.s3_off Sample.without_token "smiling"
    (Sample.world_drawing (Seed.UnitDouble 1 53))
  = [Submit "smiling" 0;
     CallResolve "http://comfy:8188/view?filename=selfie_00001_.png"] /\
  trace_of Sample.s3_off Sample.without_token "waving"
    (Sample.world_drawing (Seed.UnitDouble 2 53))
  = [Submit "waving" 0;
     CallResolve "http://comfy:8188/view?filename=selfie_00001_.png"].
Proof.
  split; [apply SeedFacts.valid_drawb_spec; reflexivity|].
  split; [apply SeedFacts.valid_drawb_spec; reflexivity|].
  split; reflexivity.
Qed.

(** *** The progress token *)

(** What a hook does to the promise does not depend on the token. *)
Lemma awaited_deliver_meta m m' gp s s' d :
  awaited s = awaited s' ->
  awaited (deliver (Context m gp) s d) = awaited (deliver (Context m' gp) s' d).
Proof.
  destruct s as [p tr], s' as [p' tr'], d as [cb sr ab].
  cbn [awaited]. intros <-.
  destruct cb as [| |info|data|err pid].
  - rewrite !awaited_deliver_nonterminal; reflexivity.
  - rewrite !awaited_deliver_nonterminal; reflexivity.
  - rewrite !awaited_deliver_nonterminal; reflexivity.
  - rewrite (awaited_deliver_trace _ p tr), (awaited_deliver_trace _ p tr').
    reflexivity.
  - reflexivity.
Qed.

Lemma awaited_run_meta m m' gp evs : forall s s',
  awaited s = awaited s' ->
  awaited (run_events (Context m gp) evs s) = awaited (run_events (Context m' gp) evs s').
Proof.
  induction evs as [|ev evs IH]; intros s s' Hs; [exact Hs|].
  rewrite !run_events_cons. apply IH.
  destruct ev as [d]; cbn [react]. now apply awaited_deliver_meta.
Qed.

Lemma elem_of_notifications tr n : n ∈ notifications tr <-> Notify n ∈ tr.
Proof.
  unfold notifications. rewrite list_elem_of_omap. split.
  - intros (e & He & Hn). destruct e; try discriminate. now injection Hn as ->.
  - intros H. exists (Notify n). auto.
Qed.

(** Whatever is sent during a call is sent under a present, truthy token
    and carries it. *)
Lemma notification_needs_token env c prompt w n :
  n ∈ notifications (trace_of env c prompt w) ->
  exists tok, meta c = Some tok /\ truthy_token tok = true /\ progressToken n = tok.
Proof.
  intros Hn. apply elem_of_notifications in Hn.
  destruct (elem_of_trace_of env c prompt w _ Hn)
    as [(tok & Htok & [= ->]) | [[=] | (d & _ & Hd)]].
  - apply guard_token_Some in Htok as [? ?]. exists tok. auto.
  - apply elem_of_notifications, hook_notifications_token in Hd.
    apply guard_token_Some in Hd as [? ?]. eauto.
Qed.

(** C10: a call without a progress token sends no notification at all,
    before the job or from any hook, and returns what the same call returns
    with a token whose first send goes through; every notification of any
    call is sent under a present (and truthy) token, which it carries. *)
Theorem no_token_no_notifications env gp prompt w :
  notifications (trace_of env (Context None gp) prompt w) = [] /\
  (forall tok,
     result_of env (Context None gp) prompt w
     = result_of env (Context (Some tok) gp) prompt (with_prestart_send None w)) /\
  (forall c n, n ∈ notifications (trace_of env c prompt w) ->
     exists tok, meta c = Some tok /\ truthy_token tok = true /\ progressToken n = tok).
Proof.
  split; [|split].
  - destruct (notifications (trace_of env (Context None gp) prompt w))
      as [|n l] eqn:Hl; [reflexivity|].
    destruct (notification_needs_token env (Context None gp) prompt w n)
      as (tok & Hmeta & _).
    + rewrite Hl. apply list_elem_of_here.
    + discriminate.
  - intros tok.
    destruct (reaches_job (Context None gp) w) eqn:Hreach.
    + assert (Hreach' : reaches_job (Context (Some tok) gp) (with_prestart_send None w)
                        = true).
      { revert Hreach. unfold reaches_job. cbn.
        now destruct (truthy_token tok). }
      rewrite (call_reached _ _ _ _ Hreach), (call_reached _ _ _ _ Hreach').
      cbn [events upload with_prestart_send].
      now rewrite (awaited_run_meta None (Some tok) gp (events w) initial initial eq_refl).
    + revert Hreach. unfold reaches_job. run_tool. cbn.
      destruct (init_result w) as [e|]; [reflexivity|].
      destruct (builder_result w) as [e|]; [reflexivity|].
      destruct (wrapper_result w) as [e|]; [|discriminate].
      now destruct (truthy_token tok).
  - intros c n. apply notification_needs_token.
Qed.

Lemma no_token_no_notifications_witness :
  notifications
    (trace_of Sample.s3_off Sample.without_token "smiling, outdoors"
       (Sample.world_of
          [Sample.hook_of OnStart; Sample.hook_of OnPending;
           Sample.hook_of (OnProgress (ProgressInfo "3" 5 20));
           Sample.hook_of (Sample.finished_with [Sample.selfie])]
          Sample.upload_fine)) = [] /\
  exists tok, meta Sample.with_token = Some tok /\ truthy_token tok = true /\
    progressToken (ProgressNotification "notifications/progress"
                     (Finite (1 # 4)) (TokString "tok-1")) = tok.
Proof.
  split.
  - apply (proj1 (no_token_no_notifications Sample.s3_off Sample.comfy_path
                    "smiling, outdoors" _)).
  - apply (proj2 (proj2 (no_token_no_notifications Sample.s3_off Sample.comfy_path
                    "smiling, outdoors"
                    (Sample.world_of
                       [Sample.hook_of (OnProgress (ProgressInfo "3" 5 20))]
                       Sample.upload_fine))) Sample.with_token).
    apply list_elem_of_further, list_elem_of_here.
Defined.

End ToolFacts.

Module RegistryFacts.
Import Js Registry.

(** An identifier that is neither registered nor a name on
    [Object.prototype] is answered with status 400. *)
Lemma post_unknown_session (transports : gmap string SSEServerTransport) query :
  transports !! property_key query = None ->
  property_key query ∉ object_prototype_keys ->
  post_messages transports query = Respond 400 "No transport found for sessionId".
Proof.
  intros Hnone Hproto. unfold post_messages, get. rewrite Hnone.
  now rewrite bool_decide_eq_false_2.
Qed.

(** No unregistered identifier reaches the protocol layer. *)
Lemma post_unregistered_runs_nothing (transports : gmap string SSEServerTransport) query :
  transports !! property_key query = None ->
  runs_tool_logic (post_messages transports query) = false.
Proof.
  intros Hnone. unfold post_messages, get. rewrite Hnone.
  now destruct (bool_decide _).
Qed.

(** A registered identifier is forwarded to its own transport. *)
Lemma post_registered (transports : gmap string SSEServerTransport) query t :
  transports !! property_key query = Some t ->
  post_messages transports query = HandlePostMessage t.
Proof. intros Hsome. unfold post_messages, get. now rewrite Hsome. Qed.

Lemma register_then_close t (transports : gmap string SSEServerTransport) :
  on_close t (register t transports) !! sessionId t = None.
Proof. unfold on_close, register. apply lookup_delete_eq. Qed.

(** C5 at its failing input: the identifier ["constructor"] was never
    registered, yet the lookup finds [Object.prototype.constructor], the
    handler takes the forwarding branch and throws on the missing
    [handlePostMessage]; no 400 response is sent (and no tool logic runs). *)
Theorem post_prototype_key_is_not_rejected :
  (∅ : gmap string SSEServerTransport) !! "constructor" = None /\
  post_messages ∅ (Some "constructor")
  = PostThrew (JsError "transport.handlePostMessage is not a function") /\
  post_messages ∅ (Some "constructor") <> Respond 400 "No transport found for sessionId" /\
  runs_tool_logic (post_messages ∅ (Some "constructor")) = false.
Proof.
  split; [apply lookup_empty|]. split; [reflexivity|]. split; [|reflexivity].
  discriminate.
Qed.

End RegistryFacts.

Module LifecycleFacts.
Import Registry Lifecycle.

Lemma serve_cons ev evs (transports : gmap string SSEServerTransport) :
  serve (ev :: evs) transports = serve evs (step transports ev).
Proof. reflexivity. Qed.

Lemma lookup_step_same ev (transports : gmap string SSEServerTransport) :
  step transports ev !! session_of ev =
  match ev with Opened t => Some t | Closed _ => None end.
Proof.
  destruct ev as [t|t]; cbn.
  - apply lookup_insert_eq.
  - apply lookup_delete_eq.
Qed.

Lemma lookup_step_other ev id (transports : gmap string SSEServerTransport) :
  session_of ev <> id -> step transports ev !! id = transports !! id.
Proof.
  intros Hne. destruct ev as [t|t]; cbn in *.
  - now apply lookup_insert_ne.
  - now apply lookup_delete_ne.
Qed.

(** The entry under an identifier is decided by the latest event about it. *)
Lemma lookup_serve evs : forall (transports : gmap string SSEServerTransport) id,
  serve evs transports !! id =
  match last_about id evs with
  | Some (Opened t) => Some t
  | Some (Closed _) => None
  | None => transports !! id
  end.
Proof.
  induction evs as [|ev evs IH]; intros transports id; [reflexivity|].
  rewrite serve_cons, IH. cbn [last_about].
  destruct (last_about id evs) as [later|]; [reflexivity|].
  destruct (String.eqb_spec (session_of ev) id) as [<-|Hne].
  - rewrite lookup_step_same. now destruct ev.
  - now apply lookup_step_other.
Qed.

Lemma last_about_session id evs ev :
  last_about id evs = Some ev -> session_of ev = id.
Proof.
  induction evs as [|e evs IH]; [discriminate|]. cbn [last_about].
  destruct (last_about id evs) as [later|].
  - intros [= ->]. now apply IH.
  - destruct (String.eqb_spec (session_of e) id); [|discriminate].
    now intros [= <-].
Qed.

Lemma last_about_none id evs :
  Forall (fun ev => session_of ev <> id) evs -> last_about id evs = None.
Proof.
  induction 1 as [|ev evs Hev _ IH]; [reflexivity|]. cbn [last_about].
  rewrite IH. now destruct (String.eqb_spec (session_of ev) id).
Qed.

(** X1: after any history of channels opening and closing, a POST for an
    identifier is forwarded to a transport exactly when the latest event
    about that identifier is that transport's opening; an identifier that
    was never opened, or whose latest event is a close, gets the 400. *)
Theorem post_follows_latest_event evs id :
  Forall (fun ev => storable (session_of ev)) evs ->
  id ∉ object_prototype_keys ->
  post_messages (serve evs ∅) (Some id) =
  match last_about id evs with
  | Some (Opened t) => HandlePostMessage t
  | _ => Respond 400 "No transport found for sessionId"
  end.
Proof.
  intros _ Hid. unfold post_messages, get. cbn [property_key].
  rewrite lookup_serve, lookup_empty.
  destruct (last_about id evs) as [[t|t]|]; [reflexivity| |];
    now rewrite bool_decide_eq_false_2.
Qed.

Lemma post_follows_latest_event_witness :
  post_messages
    (serve [Opened Cases.alice; Opened Cases.bob; Closed Cases.alice] ∅)
    (Some (sessionId Cases.bob))
  = HandlePostMessage Cases.bob /\
  post_messages
    (serve [Opened Cases.alice; Opened Cases.bob; Closed Cases.alice] ∅)
    (Some (sessionId Cases.alice))
  = Respond 400 "No transport found for sessionId".
Proof.
  split.
  - apply (post_follows_latest_event
             [Opened Cases.alice; Opened Cases.bob; Closed Cases.alice]
             (sessionId Cases.bob)).
    + repeat constructor; discriminate.
    + apply (bool_decide_unpack _). exact I.
  - apply (post_follows_latest_event
             [Opened Cases.alice; Opened Cases.bob; Closed Cases.alice]
             (sessionId Cases.alice)).
    + repeat constructor; discriminate.
    + apply (bool_decide_unpack _). exact I.
Defined.

(** X2: the registry keeps every transport under that transport's own
    identifier: whatever opened and closed, an entry found under [id]
    holds a transport whose [sessionId] is [id]. *)
Theorem entries_sit_under_their_own_id evs id t :
  Forall (fun ev => storable (session_of ev)) evs ->
  serve evs ∅ !! id = Some t ->
  sessionId t = id.
Proof.
  intros _. rewrite lookup_serve, lookup_empty.
  destruct (last_about id evs) as [[t'|t']|] eqn:Hlast; try discriminate.
  intros [= <-]. now apply (last_about_session id evs (Opened t')).
Qed.

Lemma entries_sit_under_their_own_id_witness :
  sessionId Cases.bob = "b81d9e07-5a3c-4f6e-9c1b-7d2a4e6f8a90".
Proof.
  apply (entries_sit_under_their_own_id
           [Opened Cases.alice; Opened Cases.bob; Closed Cases.alice]
           "b81d9e07-5a3c-4f6e-9c1b-7d2a4e6f8a90" Cases.bob).
  - repeat constructor; discriminate.
  - reflexivity.
Defined.

(** X3: sessions do not interfere: channels of other identifiers opening
    and closing leave the answer to a POST for [id] as it was. *)
Theorem other_sessions_do_not_interfere evs (transports : gmap string SSEServerTransport) query :
  Forall (fun ev => storable (session_of ev)) evs ->
  Forall (fun ev => session_of ev <> property_key query) evs ->
  post_messages (serve evs transports) query = post_messages transports query.
Proof.
  intros _ Hother. unfold post_messages, get.
  now rewrite lookup_serve, (last_about_none _ _ Hother).
Qed.

Lemma other_sessions_do_not_interfere_witness :
  post_messages
    (serve [Opened Cases.bob; Closed Cases.bob] (register Cases.alice ∅))
    (Some (sessionId Cases.alice))
  = post_messages (register Cases.alice ∅) (Some (sessionId Cases.alice)).
Proof.
  apply (other_sessions_do_not_interfere [Opened Cases.bob; Closed Cases.bob]).
  - repeat constructor; discriminate.
  - repeat constructor; discriminate.
Defined.

End LifecycleFacts.

Module ConfigFacts.
Import Config.

Section Parsing.
Variable is_url : string -> bool.
Variable vars : gmap string string.

Lemma ap_accepted {A B} (f : validation (A -> B)) (x : validation A) :
  accepted (ap f x) = accepted f && accepted x.
Proof. now destruct f, x. Qed.

Lemma ap_issues {A B} (f : validation (A -> B)) (x : validation A) :
  issues_of (ap f x) = issues_of f ++ issues_of x.
Proof. destruct f, x; cbn; now rewrite ?app_nil_r. Qed.

Lemma accepted_inr {A} (v : validation A) :
  accepted v = true <-> exists a, v = inr a.
Proof.
  destruct v; cbn; split; try discriminate; eauto.
  now intros [a [=]].
Qed.

Lemma rejected_inl {A} (v : validation A) :
  accepted v = false -> v = inl (issues_of v).
Proof. now destruct v. Qed.

Lemma issues_parse :
  issues_of (parse is_url vars) =
  issues_of (parse_base is_url vars) ++ issues_of (parse_storage is_url vars).
Proof. unfold parse. now rewrite !ap_issues. Qed.

Lemma issues_default key d : issues_of (z_string_default vars key d) = [].
Proof. unfold z_string_default. destruct (vars !! key); reflexivity. Qed.

Lemma issues_parse_base :
  issues_of (parse_base is_url vars) =
  issues_of (z_string_url is_url vars "COMFYUI_URL")
  ++ issues_of (z_string vars "POSITIVE_PROMPT_NODE_ID")
  ++ issues_of (z_string vars "POSITIVE_PROMPT_INPUT_NAME")
  ++ issues_of (z_string vars "OUTPUT_NODE_ID")
  ++ issues_of (z_string vars "SEED_NODE_ID")
  ++ issues_of (z_string vars "SEED_INPUT_NAME")
  ++ issues_of (z_number_default vars "PORT" 8000).
Proof.
  unfold parse_base. rewrite !ap_issues. cbn [issues_of app].
  rewrite issues_default, app_nil_r, <- !app_assoc. reflexivity.
Qed.

Lemma issue_rejects {A} (v : validation A) i :
  i ∈ issues_of v -> exists issues, v = inl issues /\ i ∈ issues.
Proof.
  destruct v as [issues|a]; cbn; [eauto|]. now rewrite elem_of_nil.
Qed.

Ltac split_fields H :=
  unfold parse_base, parse_s3, z_string_url, z_string, z_string_default,
    z_number_default in H;
  repeat match type of H with
         | context [vars !! ?k] => destruct (vars !! k) eqn:?
         | context [is_url ?u] => destruct (is_url u) eqn:?
         end;
  cbn in H; try discriminate.

(** What an accepted base object holds: the variables as they are, the
    two defaults where a variable is not set. *)
Lemma parse_base_inv b :
  parse_base is_url vars = inr b ->
  vars !! "COMFYUI_URL" = Some (COMFYUI_URL b) /\
  is_url (COMFYUI_URL b) = true /\
  WORKFLOW_FILE_PATH b = default "workflow.json" (vars !! "WORKFLOW_FILE_PATH") /\
  vars !! "POSITIVE_PROMPT_NODE_ID" = Some (POSITIVE_PROMPT_NODE_ID b) /\
  vars !! "POSITIVE_PROMPT_INPUT_NAME" = Some (POSITIVE_PROMPT_INPUT_NAME b) /\
  vars !! "OUTPUT_NODE_ID" = Some (OUTPUT_NODE_ID b) /\
  vars !! "SEED_NODE_ID" = Some (SEED_NODE_ID b) /\
  vars !! "SEED_INPUT_NAME" = Some (SEED_INPUT_NAME b) /\
  vars !! "PORT" = None /\ PORT b = 8000.
Proof.
  intros Hb. split_fields Hb; injection Hb as <-; cbn; auto 12.
Qed.

Lemma parse_s3_inv s :
  parse_s3 is_url vars = inr s ->
  vars !! "S3_REGION" = Some (S3_REGION s) /\
  vars !! "S3_ACCESS_KEY_ID" = Some (S3_ACCESS_KEY_ID s) /\
  vars !! "S3_SECRET_ACCESS_KEY" = Some (S3_SECRET_ACCESS_KEY s) /\
  vars !! "S3_ENDPOINT" = Some (S3_ENDPOINT s) /\ is_url (S3_ENDPOINT s) = true /\
  vars !! "S3_BUCKET_NAME" = Some (S3_BUCKET_NAME s) /\
  vars !! "S3_PUBLIC_ENDPOINT" = Some (S3_PUBLIC_ENDPOINT s) /\
  is_url (S3_PUBLIC_ENDPOINT s) = true /\
  S3_KEY_PREFIX s = default "selfie/" (vars !! "S3_KEY_PREFIX").
Proof.
  intros Hs. split_fields Hs; injection Hs as <-; cbn; auto 12.
Qed.

Lemma parse_inv e :
  parse is_url vars = inr e ->
  parse_base is_url vars = inr (settings e) /\
  parse_storage is_url vars = inr (store e).
Proof.
  unfold parse.
  destruct (parse_base is_url vars) as [|b], (parse_storage is_url vars) as [|st];
    try discriminate.
  now intros [= <-].
Qed.

Lemma parse_storage_inv st :
  parse_storage is_url vars = inr st ->
  match st with
  | StorageOn s => vars !! "S3_UPLOAD_ENABLED" = Some "true"
                   /\ parse_s3 is_url vars = inr s
  | StorageOff => vars !! "S3_UPLOAD_ENABLED" = Some "false"
  end.
Proof.
  unfold parse_storage.
  destruct (vars !! "S3_UPLOAD_ENABLED") as [v|]; [|discriminate].
  destruct (String.eqb_spec v "true") as [->|_].
  - destruct (parse_s3 is_url vars) as [|s]; [discriminate|].
    now intros [= <-].
  - destruct (String.eqb_spec v "false") as [->|_]; [|discriminate].
    now intros [= <-].
Qed.

(** X4: the port cannot be configured: a [PORT] variable, whatever its
    value, makes the parse fail with an issue on [PORT] ([z.number()] never
    accepts the string), and every accepted environment has port 8000. *)
Theorem port_is_fixed_at_8000 :
  (forall v, vars !! "PORT" = Some v ->
     exists issues, parse is_url vars = inl issues /\
                    Issue "PORT" ExpectedNumber ∈ issues) /\
  (forall e, parse is_url vars = inr e ->
     PORT (settings e) = 8000 /\ vars !! "PORT" = None).
Proof.
  split.
  - intros v Hv. apply issue_rejects.
    rewrite issues_parse, issues_parse_base. unfold z_number_default at 1.
    rewrite Hv. cbn [issues_of]. rewrite !elem_of_app, elem_of_cons. tauto.
  - intros e He. apply parse_inv in He as [Hb _].
    apply parse_base_inv in Hb. tauto.
Qed.

Lemma accepted_z_string key :
  accepted (z_string vars key) = true <-> is_Some (vars !! key).
Proof.
  unfold z_string. destruct (vars !! key); cbn; split; done.
Qed.

Lemma accepted_z_string_url key :
  accepted (z_string_url is_url vars key) = true <->
  exists u, vars !! key = Some u /\ is_url u = true.
Proof.
  unfold z_string_url. destruct (vars !! key) as [u|]; cbn.
  - destruct (is_url u) eqn:Hu; cbn; split; try done; eauto.
    intros (u' & [= <-] & Hu'). congruence.
  - split; [done|]. now intros (u & [=] & _).
Qed.

Lemma accepted_z_number_default key d :
  accepted (z_number_default vars key d) = true <-> vars !! key = None.
Proof. unfold z_number_default. destruct (vars !! key); cbn; split; done. Qed.

Lemma accepted_z_string_default key d :
  accepted (z_string_default vars key d) = true.
Proof. unfold z_string_default. now destruct (vars !! key). Qed.

(** X5: the storage switch has no default: unless [S3_UPLOAD_ENABLED] is
    set to exactly ["true"] or ["false"], the parse fails with an issue on
    that variable. *)
Theorem storage_switch_is_mandatory :
  vars !! "S3_UPLOAD_ENABLED" <> Some "true" ->
  vars !! "S3_UPLOAD_ENABLED" <> Some "false" ->
  exists issues, parse is_url vars = inl issues /\
                 Issue "S3_UPLOAD_ENABLED" InvalidDiscriminator ∈ issues.
Proof.
  intros Htrue Hfalse. apply issue_rejects.
  rewrite issues_parse, elem_of_app. right. unfold parse_storage.
  destruct (vars !! "S3_UPLOAD_ENABLED") as [v|]; [|apply list_elem_of_here].
  destruct (String.eqb_spec v "true") as [->|_]; [congruence|].
  destruct (String.eqb_spec v "false") as [->|_]; [congruence|].
  apply list_elem_of_here.
Qed.

(** X6: an environment is accepted exactly when [COMFYUI_URL] is set to a
    URL, the five node and input names are set, [PORT] is not set, and
    the switch is ["false"], or ["true"] with region, both keys and the
    bucket set and both endpoints set to URLs. *)
Theorem accepted_environments :
  accepted (parse is_url vars) = true <->
  (exists u, vars !! "COMFYUI_URL" = Some u /\ is_url u = true) /\
  is_Some (vars !! "POSITIVE_PROMPT_NODE_ID") /\
  is_Some (vars !! "POSITIVE_PROMPT_INPUT_NAME") /\
  is_Some (vars !! "OUTPUT_NODE_ID") /\
  is_Some (vars !! "SEED_NODE_ID") /\
  is_Some (vars !! "SEED_INPUT_NAME") /\
  vars !! "PORT" = None /\
  (vars !! "S3_UPLOAD_ENABLED" = Some "false" \/
   vars !! "S3_UPLOAD_ENABLED" = Some "true" /\
   is_Some (vars !! "S3_REGION") /\
   is_Some (vars !! "S3_ACCESS_KEY_ID") /\
   is_Some (vars !! "S3_SECRET_ACCESS_KEY") /\
   (exists u, vars !! "S3_ENDPOINT" = Some u /\ is_url u = true) /\
   is_Some (vars !! "S3_BUCKET_NAME") /\
   (exists u, vars !! "S3_PUBLIC_ENDPOINT" = Some u /\ is_url u = true)).
Proof.
  assert (Hstore :
    accepted (parse_storage is_url vars) = true <->
    (vars !! "S3_UPLOAD_ENABLED" = Some "false" \/
     vars !! "S3_UPLOAD_ENABLED" = Some "true" /\
     accepted (parse_s3 is_url vars) = true)).
  { unfold parse_storage.
    destruct (vars !! "S3_UPLOAD_ENABLED") as [v|].
    - destruct (String.eqb_spec v "true") as [->|Ht].
      + rewrite ap_accepted. cbn [accepted andb]. split; [auto|].
        intros [[=]|[_ H]]. exact H.
      + destruct (String.eqb_spec v "false") as [->|Hf]; cbn.
        * split; auto.
        * split; [done|]. intros [[= ->]|[[= ->] _]]; congruence.
    - cbn. split; [done|]. intros [[=]|[[=] _]]. }
  unfold parse. rewrite !ap_accepted. cbn [accepted andb].
  rewrite andb_true_iff, Hstore.
  unfold parse_base, parse_s3. rewrite !ap_accepted. cbn [accepted andb].
  rewrite !andb_true_iff, !accepted_z_string, !accepted_z_string_url,
    accepted_z_number_default, !accepted_z_string_default.
  tauto.
Qed.

(** X7: an accepted environment holds the variables as they were set, with
    ["workflow.json"] for an unset [WORKFLOW_FILE_PATH] and, when storage
    is on, ["selfie/"] for an unset [S3_KEY_PREFIX]; with the switch off
    it holds no storage settings at all. *)
Theorem accepted_values e :
  parse is_url vars = inr e ->
  vars !! "COMFYUI_URL" = Some (COMFYUI_URL (settings e)) /\
  WORKFLOW_FILE_PATH (settings e)
  = default "workflow.json" (vars !! "WORKFLOW_FILE_PATH") /\
  vars !! "POSITIVE_PROMPT_NODE_ID" = Some (POSITIVE_PROMPT_NODE_ID (settings e)) /\
  vars !! "POSITIVE_PROMPT_INPUT_NAME" = Some (POSITIVE_PROMPT_INPUT_NAME (settings e)) /\
  vars !! "OUTPUT_NODE_ID" = Some (OUTPUT_NODE_ID (settings e)) /\
  vars !! "SEED_NODE_ID" = Some (SEED_NODE_ID (settings e)) /\
  vars !! "SEED_INPUT_NAME" = Some (SEED_INPUT_NAME (settings e)) /\
  match store e with
  | StorageOff => vars !! "S3_UPLOAD_ENABLED" = Some "false"
  | StorageOn s =>
      vars !! "S3_UPLOAD_ENABLED" = Some "true" /\
      vars !! "S3_REGION" = Some (S3_REGION s) /\
      vars !! "S3_ACCESS_KEY_ID" = Some (S3_ACCESS_KEY_ID s) /\
      vars !! "S3_SECRET_ACCESS_KEY" = Some (S3_SECRET_ACCESS_KEY s) /\
      vars !! "S3_ENDPOINT" = Some (S3_ENDPOINT s) /\
      vars !! "S3_BUCKET_NAME" = Some (S3_BUCKET_NAME s) /\
      vars !! "S3_PUBLIC_ENDPOINT" = Some (S3_PUBLIC_ENDPOINT s) /\
      S3_KEY_PREFIX s = default "selfie/" (vars !! "S3_KEY_PREFIX")
  end.
Proof.
  intros He. apply parse_inv in He as [Hb Hst].
  apply parse_base_inv in Hb. apply parse_storage_inv in Hst.
  destruct (store e) as [s|].
  - destruct Hst as [Hon Hs]. apply parse_s3_inv in Hs. tauto.
  - tauto.
Qed.

End Parsing.

Lemma port_is_fixed_at_8000_witness :
  (exists issues,
     parse Cases.accept_http (<["PORT" := "3000"]> Cases.minimal_vars) = inl issues /\
     Issue "PORT" ExpectedNumber ∈ issues) /\
  exists e, parse Cases.accept_http Cases.minimal_vars = inr e /\
            PORT (settings e) = 8000.
Proof.
  split.
  - apply (proj1 (port_is_fixed_at_8000 Cases.accept_http
                    (<["PORT" := "3000"]> Cases.minimal_vars)) "3000").
    reflexivity.
  - eexists. split; [reflexivity|].
    apply (proj2 (port_is_fixed_at_8000 Cases.accept_http Cases.minimal_vars)).
    reflexivity.
Defined.

Lemma storage_switch_is_mandatory_witness :
  exists issues,
    parse Cases.accept_http (delete "S3_UPLOAD_ENABLED" Cases.minimal_vars) = inl issues /\
    Issue "S3_UPLOAD_ENABLED" InvalidDiscriminator ∈ issues.
Proof.
  apply (storage_switch_is_mandatory Cases.accept_http
           (delete "S3_UPLOAD_ENABLED" Cases.minimal_vars));
    discriminate.
Defined.

Lemma accepted_values_witness :
  WORKFLOW_FILE_PATH
    (Base "http://comfy:8188" "workflow.json" "6" "text" "9" "3" "seed" 8000)
  = default "workflow.json" (Cases.s3_vars !! "WORKFLOW_FILE_PATH") /\
  S3_KEY_PREFIX
    (S3Settings "auto" "key" "secret" "https://s3.example.org" "selfies"
                "https://cdn.example.org" "selfie/")
  = default "selfie/" (Cases.s3_vars !! "S3_KEY_PREFIX").
Proof.
  pose proof (accepted_values Cases.accept_http Cases.s3_vars
    (Env (Base "http://comfy:8188" "workflow.json" "6" "text" "9" "3" "seed" 8000)
         (StorageOn (S3Settings "auto" "key" "secret" "https://s3.example.org"
                                "selfies" "https://cdn.example.org" "selfie/")))
    eq_refl) as (_ & Hpath & _ & _ & _ & _ & _ & _ & _ & _ & _ & _ & _ & _ & Hprefix).
  split; [exact Hpath | exact Hprefix].
Defined.

(** X8: with the switch at ["false"] the storage variables are not read:
    setting, changing or removing any of them leaves the parse as it is,
    accepted or not. *)
Theorem storage_variables_unread_when_off is_url (vars : gmap string string) key v :
  vars !! "S3_UPLOAD_ENABLED" = Some "false" ->
  key ∈ s3_keys ->
  parse is_url (<[key := v]> vars) = parse is_url vars /\
  parse is_url (delete key vars) = parse is_url vars.
Proof.
  intros Hoff Hkey. unfold s3_keys in Hkey.
  repeat (apply elem_of_cons in Hkey as [->|Hkey]);
    try (now apply elem_of_nil in Hkey);
    (split;
     unfold parse, parse_base, parse_storage, z_string_url, z_string,
       z_string_default, z_number_default;
     rewrite ?lookup_insert_ne, ?lookup_delete_ne by discriminate;
     rewrite Hoff; reflexivity).
Qed.

Lemma storage_variables_unread_when_off_witness :
  parse Cases.accept_http (<["S3_ENDPOINT" := "not a url"]> Cases.minimal_vars)
  = parse Cases.accept_http Cases.minimal_vars.
Proof.
  apply (proj1 (storage_variables_unread_when_off Cases.accept_http
                  Cases.minimal_vars "S3_ENDPOINT" "not a url" eq_refl
                  ltac:(unfold s3_keys; apply (bool_decide_unpack _); exact I))).
Defined.

End ConfigFacts.

Module UploadCallsFacts.
Import Js Upload UploadCalls.

Lemma append_cons c s t : String c s +:+ t = String c (s +:+ t).
Proof. reflexivity. Qed.

Lemma append_nil t : "" +:+ t = t.
Proof. reflexivity. Qed.

Lemma prefix_spec needle : forall hay,
  String.prefix needle hay = true <-> exists after, hay = needle +:+ after.
Proof.
  induction needle as [|a needle IH]; intros hay.
  - destruct hay; simpl; split; eauto.
  - setoid_rewrite append_cons. destruct hay as [|b hay]; simpl.
    + split; [discriminate|]. now intros [? [=]].
    + destruct (ascii_dec a b) as [->|Hne].
      * rewrite IH. split; intros [after H]; exists after; congruence.
      * split; [discriminate|]. intros [after H]. congruence.
Qed.

(** [includes] is the substring test. *)
Lemma includes_spec needle : forall hay,
  includes needle hay = true <-> occurs_in needle hay.
Proof.
  unfold occurs_in. induction hay as [|c hay IH]; cbn [includes].
  - rewrite orb_false_r, prefix_spec. split.
    + intros [after ->]. exists "", after. reflexivity.
    + intros ([|? before] & after & H); [eauto|].
      rewrite append_cons in H. discriminate.
  - rewrite orb_true_iff, prefix_spec, IH. split.
    + intros [[after ->]|(before & after & ->)].
      * exists "", after. reflexivity.
      * exists (String c before), after. reflexivity.
    + intros ([|b before] & after & H).
      * left. exists after. exact H.
      * right. rewrite append_cons in H. injection H as _ ->. eauto.
Qed.

Lemma includes_false needle hay :
  includes needle hay = false <-> ~ occurs_in needle hay.
Proof.
  rewrite <- includes_spec. destruct (includes needle hay); split; congruence.
Qed.

Lemma fileExtension_in ct : fileExtension ct ∈ extensions.
Proof.
  unfold fileExtension, extensions.
  destruct (_ || _); [apply list_elem_of_here|].
  destruct (includes "webp" ct); [apply list_elem_of_further, list_elem_of_here|].
  destruct (includes "gif" ct); rewrite !elem_of_cons; tauto.
Qed.

(** X9: the file extension is chosen by substring, in a fixed order:
    [".jpg"] exactly when the content type contains ["jpeg"] or ["jpg"]
    anywhere, else [".webp"] when it contains ["webp"], else [".gif"] when
    it contains ["gif"], and [".png"] in every other case. *)
Theorem extension_by_substring ct :
  let jpeg := occurs_in "jpeg" ct \/ occurs_in "jpg" ct in
  (fileExtension ct = ".jpg" <-> jpeg) /\
  (fileExtension ct = ".webp" <-> ~ jpeg /\ occurs_in "webp" ct) /\
  (fileExtension ct = ".gif" <->
     ~ jpeg /\ ~ occurs_in "webp" ct /\ occurs_in "gif" ct) /\
  (fileExtension ct = ".png" <->
     ~ jpeg /\ ~ occurs_in "webp" ct /\ ~ occurs_in "gif" ct) /\
  fileExtension ct ∈ extensions.
Proof.
  cbn zeta. unfold fileExtension, extensions.
  rewrite <- !includes_spec.
  destruct (includes "jpeg" ct), (includes "jpg" ct), (includes "webp" ct),
    (includes "gif" ct); cbn;
    repeat split; intros; try discriminate; try congruence; try tauto;
    try (rewrite !elem_of_cons; tauto); intuition congruence.
Qed.

Lemma fst_upload_run env o url : fst (upload_run env o url) = uploadToS3 env o url.
Proof.
  unfold upload_run, uploadToS3, filename.
  destruct (s3Client env); [|reflexivity].
  destruct (negb _); [reflexivity|].
  destruct (fetch_result o) as [|resp]; [reflexivity|].
  destruct (negb (ok resp)); [reflexivity|].
  destruct (arrayBuffer resp); [reflexivity|].
  destruct (put_result o); reflexivity.
Qed.

(** X10: an upload writes to the bucket at most once, and only after the
    image was downloaded: a [PutObject] is sent exactly when storage is on,
    the download answered [ok] and its body could be read; it then goes to
    the configured bucket, publicly readable, with the downloaded body and
    the content type that chose the extension. *)
Theorem bucket_written_only_after_download env o url :
  (length (sends (snd (upload_run env o url))) <= 1)%nat /\
  forall cmd,
    cmd ∈ sends (snd (upload_run env o url)) <->
    S3_UPLOAD_ENABLED env = "true" /\
    exists resp body,
      fetch_result o = inr resp /\ ok resp = true /\ arrayBuffer resp = inr body /\
      cmd = PutObject (S3_BUCKET_NAME env) (filename env o (contentType resp))
                      body (contentType resp) "public-read".
Proof.
  unfold upload_run, s3Client.
  destruct (String.eqb_spec (S3_UPLOAD_ENABLED env) "true") as [Hon|Hoff]; cbn.
  - destruct (fetch_result o) as [e|resp]; cbn.
    + split; [lia|]. intros cmd. rewrite elem_of_nil.
      split; [tauto|]. now intros (_ & resp & body & [=] & _).
    + destruct (ok resp) eqn:Hok; cbn.
      * destruct (arrayBuffer resp) as [e|body] eqn:Hbody; cbn.
        -- split; [lia|]. intros cmd. rewrite elem_of_nil.
           split; [tauto|]. intros (_ & r & b & [= <-] & _ & Hb & _). congruence.
        -- assert (Hsame : forall cmd,
             cmd ∈ [PutObject (S3_BUCKET_NAME env) (filename env o (contentType resp))
                              body (contentType resp) "public-read"] <->
             S3_UPLOAD_ENABLED env = "true" /\
             exists r b, @inr js_error _ resp = inr r /\ ok r = true /\
                         arrayBuffer r = inr b /\
                         cmd = PutObject (S3_BUCKET_NAME env)
                                 (filename env o (contentType r)) b (contentType r)
                                 "public-read").
           { intros cmd. rewrite list_elem_of_singleton. split.
             - intros ->. split; [exact Hon|]. exists resp, body. auto.
             - intros (_ & r & b & [= <-] & _ & Hb & ->). congruence. }
           destruct (put_result o); cbn; (split; [lia|exact Hsame]).
      * split; [lia|]. intros cmd. rewrite elem_of_nil.
        split; [tauto|]. intros (_ & r & b & [= <-] & Hk & _). congruence.
  - split; [lia|]. intros cmd. rewrite elem_of_nil. tauto.
Qed.

(** X11: the URL a completed upload returns is the public endpoint
    followed by the key of the object it has just written: the prefix, the
    time stamp, a dash, the random string and one of the four extensions. *)
Theorem hosted_url_is_the_written_key env o url hosted :
  uploadToS3 env o url = inr hosted ->
  exists cmd ext,
    snd (upload_run env o url) = [Fetch url; ArrayBuffer; Send cmd] /\
    hosted = S3_PUBLIC_ENDPOINT env +:+ "/" +:+ Key cmd /\
    Key cmd = S3_KEY_PREFIX env +:+ pretty (now o) +:+ "-" +:+ randomString o +:+ ext /\
    ext ∈ extensions /\
    Bucket cmd = S3_BUCKET_NAME env /\ ACL cmd = "public-read".
Proof.
  rewrite <- fst_upload_run. unfold upload_run.
  destruct (s3Client env); [|discriminate].
  destruct (negb _); [discriminate|].
  destruct (fetch_result o) as [|resp]; [discriminate|].
  destruct (negb (ok resp)); [discriminate|]. cbn zeta.
  destruct (arrayBuffer resp) as [|body]; [discriminate|].
  destruct (put_result o); [discriminate|]. cbn [fst snd].
  intros [= <-]. eexists _, (fileExtension (contentType resp)).
  repeat split. apply fileExtension_in.
Qed.

Lemma hosted_url_is_the_written_key_witness :
  exists cmd ext,
    snd (upload_run Sample.s3_on Sample.upload_fine
           "http://comfy:8188/view?filename=selfie_00001_.png")
    = [Fetch "http://comfy:8188/view?filename=selfie_00001_.png"; ArrayBuffer; Send cmd] /\
    "https://cdn.example.org/selfie/1700000000000-k3j9x0a1.jpg"
    = S3_PUBLIC_ENDPOINT Sample.s3_on +:+ "/" +:+ Key cmd /\
    Key cmd = S3_KEY_PREFIX Sample.s3_on +:+ pretty (now Sample.upload_fine) +:+ "-"
                +:+ randomString Sample.upload_fine +:+ ext /\
    ext ∈ extensions /\
    Bucket cmd = S3_BUCKET_NAME Sample.s3_on /\ ACL cmd = "public-read".
Proof.
  apply (hosted_url_is_the_written_key Sample.s3_on Sample.upload_fine
           "http://comfy:8188/view?filename=selfie_00001_.png"
           "https://cdn.example.org/selfie/1700000000000-k3j9x0a1.jpg").
  reflexivity.
Defined.

(** X12: when the download carries no content type, or an empty one, the
    object is stored as ["image/png"] under a key ending in [".png"]. *)
Theorem missing_content_type_means_png env o url hosted resp :
  uploadToS3 env o url = inr hosted ->
  fetch_result o = inr resp ->
  content_type resp = None \/ content_type resp = Some "" ->
  (exists cmd, Send cmd ∈ snd (upload_run env o url) /\ ContentType cmd = "image/png") /\
  hosted = S3_PUBLIC_ENDPOINT env +:+ "/" +:+
           (S3_KEY_PREFIX env +:+ pretty (now o) +:+ "-" +:+ randomString o +:+ ".png").
Proof.
  intros Hup Hfetch Hct.
  assert (Hpng : contentType resp = "image/png").
  { unfold contentType. now destruct Hct as [-> | ->]. }
  revert Hup. rewrite <- fst_upload_run. unfold upload_run, filename.
  rewrite Hfetch, Hpng.
  destruct (s3Client env); [|discriminate].
  destruct (negb _); [discriminate|].
  destruct (negb (ok resp)); [discriminate|]. cbn zeta.
  destruct (arrayBuffer resp) as [|body]; [discriminate|].
  destruct (put_result o); [discriminate|]. cbn [fst snd].
  intros [= <-]. split; [|reflexivity].
  eexists. split; [apply list_elem_of_further, list_elem_of_further, list_elem_of_here|].
  reflexivity.
Qed.

Lemma missing_content_type_means_png_witness :
  (exists cmd,
     Send cmd ∈ snd (upload_run Sample.s3_on Cases.upload_plain
                       "http://comfy:8188/view?filename=selfie_00001_.png") /\
     ContentType cmd = "image/png") /\
  "https://cdn.example.org/selfie/1700000000000-k3j9x0a1.png"
  = S3_PUBLIC_ENDPOINT Sample.s3_on +:+ "/" +:+
    (S3_KEY_PREFIX Sample.s3_on +:+ pretty (now Cases.upload_plain) +:+ "-"
       +:+ randomString Cases.upload_plain +:+ ".png").
Proof.
  apply (missing_content_type_means_png Sample.s3_on Cases.upload_plain
           "http://comfy:8188/view?filename=selfie_00001_.png"
           "https://cdn.example.org/selfie/1700000000000-k3j9x0a1.png"
           Cases.no_header eq_refl eq_refl).
  left. reflexivity.
Defined.

End UploadCallsFacts.

Module CallFacts.
Import Js Adapter Tool Views AdapterFacts ToolFacts.

Lemma filter_none {A} (f : A -> bool) (l : list A) :
  (forall x, x ∈ l -> f x = false) -> List.filter f l = [].
Proof.
  induction l as [|x l IH]; intros H; [reflexivity|]. cbn.
  rewrite (H x) by apply list_elem_of_here.
  apply IH. intros y Hy. apply H. now apply list_elem_of_further.
Qed.

Lemma submits_app l1 l2 : submits (l1 ++ l2) = (submits l1 + submits l2)%nat.
Proof. unfold submits. now rewrite List.filter_app, length_app. Qed.

Lemma submits_events c evs : submits (events_effects c evs) = 0%nat.
Proof.
  unfold submits. rewrite filter_none; [reflexivity|].
  intros e He. apply elem_of_events_effects in He as (d & _ & Hd).
  destruct e; try reflexivity.
  now apply hook_effects_no_submit in Hd.
Qed.

(** X13: a call submits exactly one job when every step before the
    submission went through, and none otherwise; no hook ever submits. *)
Theorem one_job_per_call env c prompt w :
  submits (trace_of env c prompt w) = if reaches_job c w then 1%nat else 0%nat.
Proof.
  rewrite trace_of_shape. unfold reaches_job.
  destruct (init_result w), (builder_result w); try reflexivity.
  destruct (guard_token (meta c)), (prestart_send w), (wrapper_result w);
    cbn -[submits events_effects]; try reflexivity;
    change (?a :: ?b :: ?l) with ([a] ++ b :: l);
    change (Submit ?p ?sd :: ?l) with ([Submit p sd] ++ l);
    rewrite ?submits_app, submits_events; reflexivity.
Qed.

(** X14: when a progress token is present and the notification sent before
    the job is rejected, the call ends there: it returns that rejection as
    an error result, and neither submits the job nor runs any hook. *)
Theorem failed_first_notification_ends_call env c prompt w tok e :
  guard_token (meta c) = Some tok ->
  init_result w = None ->
  builder_result w = None ->
  prestart_send w = Some e ->
  result_of env c prompt w
  = Done (ToolResult
            [TextContent "text" ("Error generating image: " +:+ error_message e)]
            (Some true)) /\
  trace_of env c prompt w
  = [Notify (ProgressNotification "notifications/progress" progress_zero tok)].
Proof.
  intros Htok Hinit Hbuild Hsend. split.
  - run_tool. now rewrite Hinit, Hbuild, Htok, Hsend.
  - rewrite trace_of_shape. now rewrite Hinit, Hbuild, Htok, Hsend.
Qed.

Lemma failed_first_notification_ends_call_witness :
  result_of Sample.s3_off Sample.with_token "smiling, outdoors" Cases.send_fails
  = Done (ToolResult [TextContent "text" "Error generating image: Not connected"]
                     (Some true)) /\
  trace_of Sample.s3_off Sample.with_token "smiling, outdoors" Cases.send_fails
  = [Notify (ProgressNotification "notifications/progress" progress_zero
               (TokString "tok-1"))].
Proof.
  apply (failed_first_notification_ends_call Sample.s3_off Sample.with_token
           "smiling, outdoors" Cases.send_fails (TokString "tok-1")
           (JsError "Not connected")); reflexivity.
Defined.

(** Before the job is submitted the events play no part. *)
Lemma result_not_reached_any env env' c prompt w evs o :
  reaches_job c w = false ->
  result_of env' c prompt (with_upload o (with_events evs w))
  = result_of env c prompt w.
Proof.
  unfold reaches_job. intros H. run_tool. cbn.
  destruct (init_result w) as [e|]; [reflexivity|].
  destruct (builder_result w) as [e|]; [reflexivity|].
  destruct (guard_token (meta c)) as [tok|], (prestart_send w) as [e|];
    try reflexivity;
    (destruct (wrapper_result w) as [e'|]; [reflexivity|discriminate]).
Qed.

(** *** Counting interrupts and notifications *)

Lemma interrupts_app l1 l2 :
  interrupts (l1 ++ l2) = (interrupts l1 + interrupts l2)%nat.
Proof. unfold interrupts. now rewrite List.filter_app, length_app. Qed.

Lemma interrupts_hook c d :
  interrupts (hook_effects c d) =
  if polling_hook (hook d) && notification_completes c d && aborted d
  then 1%nat else 0%nat.
Proof.
  destruct d as [cb sr ab]. unfold notification_completes.
  cbn [hook send_result aborted].
  destruct cb as [| |info|data|err pid]; cbn [polling_hook andb].
  - rewrite hook_effects_start. destruct (guard_token (meta c)), sr; reflexivity.
  - rewrite hook_effects_pending. destruct (guard_token (meta c)), sr, ab; reflexivity.
  - rewrite hook_effects_progress. destruct (guard_token (meta c)), sr, ab; reflexivity.
  - destruct (hook_effects_finished c sr ab data) as (e & -> & [[url ->]|[err ->]]);
      reflexivity.
  - reflexivity.
Qed.

Lemma interrupts_events c evs :
  interrupts (events_effects c evs) = length (List.filter (interrupting c) evs).
Proof.
  induction evs as [|ev evs IH]; [reflexivity|].
  cbn [events_effects flat_map List.filter].
  fold (events_effects c evs). rewrite interrupts_app, IH.
  destruct ev as [d]; cbn [interrupting].
  rewrite interrupts_hook. now destruct (_ && _ && _).
Qed.

(** X16: the number of interrupt requests of a call is the number of
    [onPending] and [onProgress] invocations at which the signal was aborted
    and whose own notification, if any, was not rejected; a hook whose
    [sendNotification] rejects requests no interrupt, and nothing outside
    those hooks requests one. *)
Theorem interrupts_counted env c prompt w :
  interrupts (trace_of env c prompt w) =
  if reaches_job c w then length (List.filter (interrupting c) (events w)) else 0%nat.
Proof.
  rewrite trace_of_shape. unfold reaches_job.
  destruct (init_result w), (builder_result w); try reflexivity.
  destruct (guard_token (meta c)), (prestart_send w), (wrapper_result w);
    cbn -[interrupts events_effects]; try reflexivity;
    change (?a :: ?b :: ?l) with ([a] ++ b :: l);
    change (Submit ?p ?sd :: ?l) with ([Submit p sd] ++ l);
    rewrite ?interrupts_app, interrupts_events; reflexivity.
Qed.

Lemma notifications_app l1 l2 :
  notifications (l1 ++ l2) = notifications l1 ++ notifications l2.
Proof. apply omap_app. Qed.

Lemma notifications_hook c d tok :
  guard_token (meta c) = Some tok ->
  length (notifications (hook_effects c d)) =
  if terminal (hook d) then 0%nat else 1%nat.
Proof.
  intros Htok. destruct d as [cb sr ab]. cbn [hook].
  destruct cb as [| |info|data|err pid]; cbn [terminal].
  - rewrite hook_effects_start, Htok. destruct sr; reflexivity.
  - rewrite hook_effects_pending, Htok. destruct sr, ab; reflexivity.
  - rewrite hook_effects_progress, Htok. destruct sr, ab; reflexivity.
  - destruct (hook_effects_finished c sr ab data) as (e & -> & [[url ->]|[err ->]]);
      reflexivity.
  - reflexivity.
Qed.

Lemma notifications_events c evs tok :
  guard_token (meta c) = Some tok ->
  length (notifications (events_effects c evs)) = length (List.filter reporting evs).
Proof.
  intros Htok. induction evs as [|ev evs IH]; [reflexivity|].
  cbn [events_effects flat_map List.filter].
  fold (events_effects c evs). rewrite notifications_app, length_app, IH.
  destruct ev as [d]; cbn [reporting].
  rewrite (notifications_hook c d tok Htok). now destruct (terminal (hook d)).
Qed.

(** X17: with a progress token, a call that submits its job calls
    [sendNotification] once before the job and once in every [onStart],
    [onPending] and [onProgress] invocation, wherever it falls in the
    sequence (also after the terminal callback) and whether or not the send
    is then rejected. *)
Theorem notifications_counted env c prompt w tok :
  guard_token (meta c) = Some tok ->
  reaches_job c w = true ->
  length (notifications (trace_of env c prompt w))
  = S (length (List.filter reporting (events w))).
Proof.
  intros Htok. rewrite trace_of_shape. unfold reaches_job. rewrite Htok.
  destruct (init_result w), (builder_result w); try discriminate.
  destruct (prestart_send w), (wrapper_result w); try discriminate.
  intros _.
  match goal with
  | |- context [notifications (?a :: ?b :: ?l)] =>
      change (a :: b :: l) with ([a; b] ++ l)
  end.
  rewrite notifications_app, length_app, (notifications_events c (events w) tok Htok).
  reflexivity.
Qed.

Lemma notifications_counted_witness :
  length (notifications
            (trace_of Sample.s3_off Sample.with_token "smiling, outdoors"
               (Sample.world_of Cases.busy_events Sample.upload_fine)))
  = S (length (List.filter reporting Cases.busy_events)).
Proof.
  apply (notifications_counted Sample.s3_off Sample.with_token "smiling, outdoors"
           (Sample.world_of Cases.busy_events Sample.upload_fine)
           (TokString "tok-1")); reflexivity.
Defined.

(** *** What the terminal callback makes of the call *)

Lemma gate_closed env :
  Upload.S3_UPLOAD_ENABLED env <> "true" ->
  truthy_string (Upload.S3_UPLOAD_ENABLED env)
    && bool_decide (is_Some (Upload.s3Client env)) = false.
Proof.
  intros Hoff. unfold Upload.s3Client.
  destruct (String.eqb_spec (Upload.S3_UPLOAD_ENABLED env) "true"); [contradiction|].
  rewrite andb_false_iff. right. apply bool_decide_eq_false_2.
  now intros [? [=]].
Qed.

Lemma deliver_first_image c s images rest img sr ab :
  images = img :: rest ->
  awaited (deliver c s (Delivery (OnFinished (JobOutput (Some (NodeOutput (Some images)))))
                                 sr ab))
  = match getPathImage c img with
    | inr url => resolve url (awaited s)
    | inl e => reject (to_Error e) (awaited s)
    end.
Proof.
  intros ->. destruct s as [p tr]. run_m. cbn.
  destruct (getPathImage c img); reflexivity.
Qed.

(** X18: when the first terminal callback is an [onFinished] with a
    non-empty image list and storage is off, the call succeeds with the URL
    the remote client builds for the first image; the other images play no
    part. *)
Theorem first_image_is_returned env c prompt w pre img rest sr ab post url :
  reaches_job c w = true ->
  events w = pre ++ Hook (Delivery
                (OnFinished (JobOutput (Some (NodeOutput (Some (img :: rest)))))) sr ab)
               :: post ->
  no_terminal pre = true ->
  getPathImage c img = inr url ->
  Upload.S3_UPLOAD_ENABLED env <> "true" ->
  result_of env c prompt w = Done (ToolResult [TextContent "text" url] None).
Proof.
  intros Hreach Hevs Hpre Hurl Hoff.
  rewrite (call_reached env c prompt w Hreach), Hevs.
  rewrite first_terminal_decides by (assumption || reflexivity).
  cbn [react]. rewrite (deliver_first_image c initial _ rest img sr ab eq_refl), Hurl.
  cbn [resolve awaited initial]. now rewrite (gate_closed env Hoff).
Qed.

Lemma first_image_is_returned_witness :
  result_of Sample.s3_off Sample.without_token "smiling, outdoors"
    (Sample.world_of
       ([Sample.hook_of OnStart]
          ++ Hook (Delivery (OnFinished (JobOutput (Some (NodeOutput
                     (Some (Sample.selfie :: [Cases.second])))))) None false)
          :: [Sample.hook_of Sample.failed])
       Sample.upload_fine)
  = Done (ToolResult
            [TextContent "text" "http://comfy:8188/view?filename=selfie_00001_.png"]
            None).
Proof.
  apply (first_image_is_returned Sample.s3_off Sample.without_token
           "smiling, outdoors" _ [Sample.hook_of OnStart] Sample.selfie
           [Cases.second] None false [Sample.hook_of Sample.failed]);
    try reflexivity.
  discriminate.
Defined.

(** X19: when [api.getPathImage] throws on the first image, the error is
    caught inside [onFinished], wrapped into an [Error] if it is not one,
    and the call returns it as an error result: the text is the prefix
    followed by the message, or by [String(value)] for a thrown non-error. *)
Theorem path_failure_is_reported env c prompt w pre img rest sr ab post e :
  reaches_job c w = true ->
  events w = pre ++ Hook (Delivery
                (OnFinished (JobOutput (Some (NodeOutput (Some (img :: rest)))))) sr ab)
               :: post ->
  no_terminal pre = true ->
  getPathImage c img = inl e ->
  awaited (run_events c (events w) initial) = Rejected (to_Error e) /\
  result_of env c prompt w
  = Done (ToolResult
            [TextContent "text" ("Error generating image: " +:+ error_message e)]
            (Some true)).
Proof.
  intros Hreach Hevs Hpre Hthrow.
  assert (Hrej : awaited (run_events c (events w) initial) = Rejected (to_Error e)).
  { rewrite Hevs, first_terminal_decides by (assumption || reflexivity).
    cbn [react].
    now rewrite (deliver_first_image c initial _ rest img sr ab eq_refl), Hthrow. }
  split; [exact Hrej|].
  rewrite (call_reached env c prompt w Hreach), Hrej. now destruct e.
Qed.

Lemma path_failure_is_reported_witness :
  awaited (run_events (Context None Cases.broken_path)
             ([] ++ Hook (Delivery (OnFinished (JobOutput (Some (NodeOutput
                            (Some (Sample.selfie :: [])))))) None false) :: [])
             initial)
  = Rejected (JsError "boom") /\
  result_of Sample.s3_on (Context None Cases.broken_path) "smiling, outdoors"
    (Sample.world_of
       ([] ++ Hook (Delivery (OnFinished (JobOutput (Some (NodeOutput
                      (Some (Sample.selfie :: [])))))) None false) :: [])
       Sample.upload_fine)
  = Done (ToolResult [TextContent "text" "Error generating image: boom"] (Some true)).
Proof.
  apply (path_failure_is_reported Sample.s3_on (Context None Cases.broken_path)
           "smiling, outdoors"
           (Sample.world_of
              ([] ++ Hook (Delivery (OnFinished (JobOutput (Some (NodeOutput
                             (Some (Sample.selfie :: [])))))) None false) :: [])
              Sample.upload_fine)
           [] Sample.selfie [] None false [] (JsThrown "boom")); reflexivity.
Defined.

(** X20: when the first terminal callback is [onFailed], the call returns
    the remote error as an error result, its message behind the prefix,
    whatever the storage settings: nothing is uploaded for a failed job. *)
Theorem remote_failure_is_reported env c prompt w pre err pid sr ab post :
  reaches_job c w = true ->
  events w = pre ++ Hook (Delivery (OnFailed err pid) sr ab) :: post ->
  no_terminal pre = true ->
  result_of env c prompt w
  = Done (ToolResult
            [TextContent "text" ("Error generating image: " +:+ error_message err)]
            (Some true)).
Proof.
  intros Hreach Hevs Hpre.
  rewrite (call_reached env c prompt w Hreach), Hevs.
  rewrite first_terminal_decides by (assumption || reflexivity).
  reflexivity.
Qed.

Lemma remote_failure_is_reported_witness :
  result_of Sample.s3_on Sample.with_token "smiling, outdoors"
    (Sample.world_of
       ([Sample.hook_of OnStart]
          ++ Hook (Delivery (OnFailed (JsError "Execution failed") (Some "prompt-1"))
                            None false)
          :: [Sample.hook_of (Sample.finished_with [Sample.selfie])])
       Sample.upload_fine)
  = Done (ToolResult [TextContent "text" "Error generating image: Execution failed"]
                     (Some true)).
Proof.
  apply (remote_failure_is_reported Sample.s3_on Sample.with_token
           "smiling, outdoors" _ [Sample.hook_of OnStart]
           (JsError "Execution failed") (Some "prompt-1") None false
           [Sample.hook_of (Sample.finished_with [Sample.selfie])]);
    reflexivity.
Defined.

(** *** Storage *)

(** X21: re-hosting never decides whether a call succeeds: under any two
    storage settings and any two behaviours of the upload the same call
    waits in both or returns in both, returns the very same error result in
    both, or succeeds in both (with possibly different URLs). *)
Theorem rehosting_never_flips_outcome env env' o' c prompt w :
  match result_of env c prompt w,
        result_of env' c prompt (with_upload o' w) with
  | Done r, Done r' =>
      is_error r = is_error r' /\ (is_error r = true -> r' = r)
  | Waiting, Waiting => True
  | _, _ => False
  end.
Proof.
  destruct (reaches_job c w) eqn:Hreach.
  - rewrite (call_reached env c prompt w Hreach).
    rewrite (call_reached env' c prompt (with_upload o' w)) by exact Hreach.
    cbn [events upload with_upload].
    destruct (awaited (run_events c (events w) initial)); cbn; auto.
    split; [reflexivity|discriminate].
  - pose proof (result_not_reached_any env env' c prompt w (events w) o' Hreach) as Hsame.
    change (with_upload o' (with_events (events w) w)) with (with_upload o' w) in Hsame.
    rewrite Hsame.
    destruct (call_not_reached env c prompt w Hreach) as [e ->]. cbn. auto.
Qed.

(** X22: unless [S3_UPLOAD_ENABLED] is ["true"] the upload is never
    consulted, although the string ["false"] is itself truthy: the result
    of a call is the same whatever the upload would do. *)
Theorem storage_off_never_uploads env c prompt w o' :
  Upload.S3_UPLOAD_ENABLED env <> "true" ->
  result_of env c prompt (with_upload o' w) = result_of env c prompt w.
Proof.
  intros Hoff. destruct (reaches_job c w) eqn:Hreach.
  - rewrite (call_reached env c prompt w Hreach).
    rewrite (call_reached env c prompt (with_upload o' w)) by exact Hreach.
    cbn [events upload with_upload]. now rewrite (gate_closed env Hoff).
  - pose proof (result_not_reached_any env env c prompt w (events w) o' Hreach) as Hsame.
    exact Hsame.
Qed.

Lemma storage_off_never_uploads_witness :
  result_of Sample.s3_off Sample.with_token "smiling, outdoors"
    (with_upload Sample.upload_denied
       (Sample.world_of [Sample.hook_of (Sample.finished_with [Sample.selfie])]
                        Sample.upload_fine))
  = result_of Sample.s3_off Sample.with_token "smiling, outdoors"
      (Sample.world_of [Sample.hook_of (Sample.finished_with [Sample.selfie])]
                       Sample.upload_fine).
Proof.
  apply (storage_off_never_uploads Sample.s3_off Sample.with_token
           "smiling, outdoors" _ Sample.upload_denied).
  discriminate.
Defined.

(** X23: with storage on, a job that succeeded and an upload that
    completed, the call answers with the storage URL instead of the remote
    engine's. *)
Theorem completed_upload_replaces_url env c prompt w url hosted :
  Upload.S3_UPLOAD_ENABLED env = "true" ->
  reaches_job c w = true ->
  awaited (run_events c (events w) initial) = Fulfilled url ->
  Upload.uploadToS3 env (upload w) url = inr hosted ->
  result_of env c prompt w = Done (ToolResult [TextContent "text" hosted] None).
Proof.
  intros Hon Hreach Hjob Hup.
  rewrite (call_reached env c prompt w Hreach), Hjob, Hup.
  now rewrite (UploadFacts.s3Client_enabled env Hon), Hon.
Qed.

Lemma completed_upload_replaces_url_witness :
  result_of Sample.s3_on Sample.with_token "smiling, outdoors"
    (Sample.world_of [Sample.hook_of (Sample.finished_with [Sample.selfie])]
                     Sample.upload_fine)
  = Done (ToolResult
            [TextContent "text" "https://cdn.example.org/selfie/1700000000000-k3j9x0a1.jpg"]
            None).
Proof.
  apply (completed_upload_replaces_url Sample.s3_on Sample.with_token
           "smiling, outdoors" _
           "http://comfy:8188/view?filename=selfie_00001_.png"); reflexivity.
Defined.

(** X24: from the process environment to the answer: for an accepted
    environment and a job that succeeded, the switch at ["false"] returns
    the remote engine's URL whatever the other storage variables hold;
    at ["true"], a completed upload returns the value of
    [S3_PUBLIC_ENDPOINT], a slash, the key prefix (["selfie/"] when
    [S3_KEY_PREFIX] is not set), the time stamp, a dash, the random string
    and one of the four extensions. *)
Theorem environment_decides_returned_url is_url vars e c prompt w url :
  Config.parse is_url vars = inr e ->
  reaches_job c w = true ->
  awaited (run_events c (events w) initial) = Fulfilled url ->
  (vars !! "S3_UPLOAD_ENABLED" = Some "false" ->
   result_of (Config.upload_environment e) c prompt w
   = Done (ToolResult [TextContent "text" url] None)) /\
  (vars !! "S3_UPLOAD_ENABLED" = Some "true" ->
   forall hosted,
     Upload.uploadToS3 (Config.upload_environment e) (upload w) url = inr hosted ->
     result_of (Config.upload_environment e) c prompt w
     = Done (ToolResult [TextContent "text" hosted] None) /\
     exists pub ext,
       vars !! "S3_PUBLIC_ENDPOINT" = Some pub /\
       ext ∈ UploadCalls.extensions /\
       hosted = pub +:+ "/" +:+
                (default "selfie/" (vars !! "S3_KEY_PREFIX")
                   +:+ pretty (Upload.now (upload w)) +:+ "-"
                   +:+ Upload.randomString (upload w) +:+ ext)).
Proof.
  intros He Hreach Hjob.
  apply ConfigFacts.parse_inv in He as [_ Hst].
  apply ConfigFacts.parse_storage_inv in Hst.
  unfold Config.upload_environment.
  destruct (Config.store e) as [s|].
  - destruct Hst as [Hon Hs3]. apply ConfigFacts.parse_s3_inv in Hs3.
    destruct Hs3 as (_ & _ & _ & _ & _ & _ & Hpub & _ & Hprefix).
    split; [congruence|]. intros _ hosted Hup. split.
    + rewrite (call_reached _ c prompt w Hreach), Hjob, Hup. reflexivity.
    + apply UploadFacts.uploadToS3_success in Hup as (resp & _ & _ & _ & ->).
      cbn [Upload.S3_PUBLIC_ENDPOINT Upload.S3_KEY_PREFIX].
      exists (Config.S3_PUBLIC_ENDPOINT s), (Upload.fileExtension (Upload.contentType resp)).
      split; [exact Hpub|]. split; [apply UploadCallsFacts.fileExtension_in|].
      now rewrite Hprefix.
  - split; [|congruence]. intros _.
    rewrite (call_reached _ c prompt w Hreach), Hjob. reflexivity.
Qed.

Lemma environment_decides_returned_url_witness :
  result_of
    (Config.upload_environment
       (Config.Env
          (Config.Base "http://comfy:8188" "workflow.json" "6" "text" "9" "3" "seed" 8000)
          Config.StorageOff))
    Sample.with_token "smiling, outdoors"
    (Sample.world_of [Sample.hook_of (Sample.finished_with [Sample.selfie])]
                     Sample.upload_fine)
  = Done (ToolResult
            [TextContent "text" "http://comfy:8188/view?filename=selfie_00001_.png"]
            None).
Proof.
  apply (proj1 (environment_decides_returned_url Cases.accept_http Cases.minimal_vars
                  (Config.Env
                     (Config.Base "http://comfy:8188" "workflow.json" "6" "text" "9"
                                  "3" "seed" 8000)
                     Config.StorageOff)
                  Sample.with_token "smiling, outdoors"
                  (Sample.world_of [Sample.hook_of (Sample.finished_with [Sample.selfie])]
                                   Sample.upload_fine)
                  "http://comfy:8188/view?filename=selfie_00001_.png"
                  eq_refl eq_refl eq_refl)).
  reflexivity.
Defined.

(** *** Seeds over many calls *)

(** X25: seeds must repeat: among the seeds of any 1,000,001 or more
    invocations two are equal, since a run of invocations with pairwise
    different seeds has at most 1,000,000 members. *)
Theorem distinct_seeds_are_at_most_a_million draws :
  Forall Seed.valid_draw draws ->
  NoDup (Seed.seeds_of draws) ->
  Z.of_nat (length draws) <= 1000000.
Proof.
  intros Hvalid Hnodup.
  set (n := Z.to_nat 1000000).
  assert (Hn : Z.of_nat n = 1000000) by (subst n; apply Z2Nat.id; lia).
  clearbody n.
  assert (Hsub : Seed.seeds_of draws ⊆+ (Z.of_nat <$> seq 0 n)).
  { apply NoDup_submseteq; [exact Hnodup|].
    intros sd Hsd. unfold Seed.seeds_of in Hsd.
    apply list_elem_of_fmap in Hsd as (d & -> & Hd).
    rewrite Forall_forall in Hvalid.
    pose proof (SeedFacts.generate_seed_range d (Hvalid d Hd)) as Hrange.
    apply list_elem_of_fmap. exists (Z.to_nat (Seed.generate_seed d)).
    split; [lia|]. apply elem_of_seq. lia. }
  apply submseteq_length in Hsub.
  unfold Seed.seeds_of in Hsub. rewrite !length_fmap, length_seq in Hsub. lia.
Qed.

Lemma distinct_seeds_are_at_most_a_million_witness :
  Z.of_nat (length [Sample.half; Seed.UnitDouble 1 53]) <= 1000000.
Proof.
  apply (distinct_seeds_are_at_most_a_million [Sample.half; Seed.UnitDouble 1 53]).
  - repeat constructor; apply SeedFacts.valid_drawb_spec; reflexivity.
  - apply (bool_decide_unpack _). exact I.
Defined.

End CallFacts.

Module LoopFacts.
Import Js Adapter Tool Loop AdapterFacts ToolFacts CallFacts.

Ltac run_loop :=
  unfold step, invoke, settle, notify_then, on_core, resume in *;
  cbn [core suspended interrupts_settled exited] in *.

(** *** Turns and whole hooks *)

(** A terminal hook awaits nothing: its one turn is the whole hook. *)
Lemma core_invoke_terminal c cb ab sr ab' p :
  terminal cb = true ->
  invoke c cb ab p
  = Process (deliver c (core p) (Delivery cb sr ab')) (suspended p)
            (interrupts_settled p) (exited p).
Proof.
  destruct p as [[pr tr] q n x], cb as [| |info|data|err pid]; try discriminate;
    intros _; run_loop; run_m; [|reflexivity].
  f_equal. split_hook; reflexivity.
Qed.

(** Without a token a hook awaits nothing either. *)
Lemma core_invoke_plain c cb ab sr p :
  guard_token (meta c) = None ->
  invoke c cb ab p
  = Process (deliver c (core p) (Delivery cb sr ab)) (suspended p)
            (interrupts_settled p) (exited p).
Proof.
  intros Htok. destruct (terminal cb) eqn:Hcb; [now apply core_invoke_terminal|].
  destruct p as [[pr tr] q n x], cb as [| |info|data|err pid]; try discriminate;
    run_loop; run_m; rewrite Htok; cbn; try reflexivity; destruct ab; reflexivity.
Qed.

(** With a token a hook hands its notification over and stops. *)
Lemma invoke_token c cb ab tok p :
  guard_token (meta c) = Some tok -> terminal cb = false ->
  invoke c cb ab p =
  Process (State (awaited (core p))
                 (trace (core p)
                    ++ [Notify (ProgressNotification "notifications/progress" (sent cb) tok)]))
          (suspended p ++ [cb]) (interrupts_settled p) (exited p).
Proof.
  intros Htok Hcb. destruct cb as [| |info|data|err pid]; try discriminate;
    run_loop; rewrite Htok; reflexivity.
Qed.

Lemma resume_spec cb ab s :
  snd (resume cb ab s) = State (awaited s) (trace s ++ checked cb ab).
Proof.
  destruct s as [pr tr]. unfold resume, checked.
  destruct (polling_hook cb); run_m; cbn.
  - destruct ab; cbn; rewrite <- ?app_assoc; reflexivity.
  - now rewrite app_nil_r.
Qed.

Lemma added_app c p t new :
  trace (core (step c p t)) = trace (core p) ++ new -> added c p t = new.
Proof. unfold added. intros ->. apply drop_app_length. Qed.

(** What a turn adds, case by case. *)
Lemma step_invoke_terminal c p cb ab :
  exited p = None -> terminal cb = true ->
  step c p (Invoke cb ab)
  = Process (deliver c (core p) (Delivery cb None false)) (suspended p)
            (interrupts_settled p) None.
Proof.
  intros Hx Hcb. unfold step. rewrite Hx.
  rewrite (core_invoke_terminal c cb ab None false p Hcb). now rewrite Hx.
Qed.

Lemma added_spec c p t :
  exited p = None ->
  trace (core (step c p t)) = trace (core p) ++ added c p t /\
  added c p t =
  match t with
  | Invoke cb ab =>
      if terminal cb then hook_effects c (Delivery cb None false)
      else match guard_token (meta c) with
           | Some tok =>
               [Notify (ProgressNotification "notifications/progress" (sent cb) tok)]
           | None => checked cb ab
           end
  | Settle i r ab =>
      match suspended p !! i with
      | None => []
      | Some cb => match r with
                   | None => checked cb ab
                   | Some e => [HookRejected e]
                   end
      end
  | InterruptSettled _ => []
  end.
Proof.
  intros Hx.
  assert (H : trace (core (step c p t)) = trace (core p) ++
    match t with
    | Invoke cb ab =>
        if terminal cb then hook_effects c (Delivery cb None false)
        else match guard_token (meta c) with
             | Some tok =>
                 [Notify (ProgressNotification "notifications/progress" (sent cb) tok)]
             | None => checked cb ab
             end
    | Settle i r ab =>
        match suspended p !! i with
        | None => []
        | Some cb => match r with
                     | None => checked cb ab
                     | Some e => [HookRejected e]
                     end
        end
    | InterruptSettled _ => []
    end).
  { destruct t as [cb ab|i r ab|r].
    - destruct (terminal cb) eqn:Hcb.
      + rewrite step_invoke_terminal by assumption. cbn [core]. apply trace_deliver.
      + unfold step. rewrite Hx.
        destruct (guard_token (meta c)) as [tok|] eqn:Htok.
        * now rewrite (invoke_token c cb ab tok p Htok Hcb).
        * rewrite (core_invoke_plain c cb ab None p Htok). cbn [core].
          rewrite trace_deliver. f_equal.
          destruct cb as [| |info|data|err pid]; try discriminate.
          -- rewrite hook_effects_start, Htok. reflexivity.
          -- rewrite hook_effects_pending, Htok. reflexivity.
          -- rewrite hook_effects_progress, Htok. reflexivity.
    - unfold step, settle. rewrite Hx.
      destruct (suspended p !! i) as [cb|]; [|now rewrite app_nil_r].
      destruct r as [e|]; cbn [core].
      + reflexivity.
      + now rewrite resume_spec.
    - unfold step, interrupt_settled. rewrite Hx.
      destruct (_ <? _)%nat; now rewrite app_nil_r. }
  split; [|apply added_app; exact H].
  rewrite H. f_equal. symmetry. apply added_app. exact H.
Qed.

Lemma awaited_step c p t :
  verdict t = false -> awaited (core (step c p t)) = awaited (core p).
Proof.
  intros Hv. unfold step. destruct (exited p); [reflexivity|].
  destruct t as [cb ab|i r ab|r]; cbn [verdict] in Hv.
  - destruct (guard_token (meta c)) as [tok|] eqn:Htok.
    + now rewrite (invoke_token c cb ab tok p Htok Hv).
    + rewrite (core_invoke_plain c cb ab None p Htok). cbn [core].
      now apply awaited_deliver_nonterminal.
  - unfold settle. destruct (suspended p !! i) as [cb|]; [|reflexivity].
    destruct r as [e|]; cbn [core]; [reflexivity|]. now rewrite resume_spec.
  - unfold interrupt_settled. now destruct (_ <? _)%nat.
Qed.

Lemma exited_step c p t :
  exited p = None -> rejected t = false -> exited (step c p t) = None.
Proof.
  intros Hx Hr. unfold step. rewrite Hx.
  destruct t as [cb ab|i r ab|r].
  - destruct (terminal cb) eqn:Hcb.
    + now rewrite (core_invoke_terminal c cb ab None false p Hcb).
    + destruct (guard_token (meta c)) as [tok|] eqn:Htok.
      * now rewrite (invoke_token c cb ab tok p Htok Hcb).
      * now rewrite (core_invoke_plain c cb ab None p Htok).
  - unfold settle. destruct (suspended p !! i) as [cb|]; [|assumption].
    destruct r as [e|]; [discriminate|assumption].
  - unfold interrupt_settled. destruct (_ <? _)%nat; [|assumption].
    destruct r as [e|]; [discriminate|assumption].
Qed.

Lemma delete_none {A} (l : list A) : forall i, l !! i = None -> delete i l = l.
Proof.
  induction l as [|x l IH]; intros [|i]; cbn; try reflexivity; try discriminate.
  intros H. f_equal. now apply IH.
Qed.

Lemma suspended_step c p t :
  exited p = None ->
  suspended (step c p t) =
  match t with
  | Invoke cb _ =>
      suspended p ++
      (if bool_decide (is_Some (guard_token (meta c))) && negb (terminal cb)
       then [cb] else [])
  | Settle i _ _ => delete i (suspended p)
  | InterruptSettled _ => suspended p
  end.
Proof.
  intros Hx. unfold step. rewrite Hx.
  destruct t as [cb ab|i r ab|r].
  - destruct (terminal cb) eqn:Hcb.
    + rewrite (core_invoke_terminal c cb ab None false p Hcb). cbn [suspended].
      now rewrite andb_false_r, app_nil_r.
    + destruct (guard_token (meta c)) as [tok|] eqn:Htok.
      * now rewrite (invoke_token c cb ab tok p Htok Hcb).
      * rewrite (core_invoke_plain c cb ab None p Htok). cbn [suspended].
        now rewrite app_nil_r.
  - unfold settle. destruct (suspended p !! i) as [cb|] eqn:Hi.
    + destruct r; reflexivity.
    + symmetry. now apply delete_none.
  - unfold interrupt_settled. now destruct (_ <? _)%nat.
Qed.

(** A hook resumed at once is the hook run in one piece. *)
Lemma run_turns_of c d p :
  suspended p = [] -> exited p = None ->
  core (run c (turns_of d) p) = deliver c (core p) d /\
  suspended (run c (turns_of d) p) = [] /\
  exited (run c (turns_of d) p) = match fst (run_hook c d (core p)) with
                                  | Threw e => Some e
                                  | _ => None
                                  end.
Proof.
  destruct d as [cb sr ab], p as [[pr tr] q n x]. cbn [suspended exited core].
  intros -> ->. unfold run, turns_of. cbn [foldl hook aborted send_result].
  destruct (guard_token (meta c)) as [tok|] eqn:Htok.
  - destruct cb as [| |info|data|err pid];
      run_loop; run_m; rewrite ?Htok; cbn;
      try (destruct sr, ab; cbn; rewrite <- ?app_assoc; auto);
      split_hook; cbn; auto.
  - destruct cb as [| |info|data|err pid];
      run_loop; run_m; rewrite ?Htok; cbn;
      try (destruct ab; cbn; rewrite <- ?app_assoc; auto);
      split_hook; cbn; auto.
Qed.

(** *** Whole runs *)

Lemma run_cons c t ts p : run c (t :: ts) p = run c ts (step c p t).
Proof. reflexivity. Qed.


Lemma no_verdict_cons t ts : no_verdict (t :: ts) = negb (verdict t) && no_verdict ts.
Proof. reflexivity. Qed.

Lemma no_rejection_cons t ts :
  no_rejection (t :: ts) = negb (rejected t) && no_rejection ts.
Proof. reflexivity. Qed.

(** A terminal hook settles the promise it finds. *)
Lemma settled_step_verdict c p t :
  exited p = None -> verdict t = true ->
  settled (awaited (core (step c p t))) = true.
Proof.
  intros Hx Hv. destruct t as [cb ab|i r ab|r]; [|discriminate|discriminate].
  rewrite step_invoke_terminal by assumption. cbn [core].
  now apply awaited_deliver_terminal.
Qed.

(** While nothing settles the promise and nothing is rejected, the turns
    are all run. *)
Lemma run_to_verdict_quiet c ts : forall p,
  exited p = None -> awaited (core p) = Pending ->
  no_rejection ts = true -> no_verdict ts = true ->
  run_to_verdict c ts p = run c ts p /\
  exited (run c ts p) = None /\ awaited (core (run c ts p)) = Pending.
Proof.
  induction ts as [|t ts IH]; intros p Hx Hp Hr Hv; [now cbn|].
  rewrite no_rejection_cons in Hr. rewrite no_verdict_cons in Hv.
  apply andb_prop in Hr as [Hr Hrs]. apply andb_prop in Hv as [Hv Hvs].
  apply negb_true_iff in Hr. apply negb_true_iff in Hv.
  cbn [run_to_verdict]. rewrite run_cons.
  pose proof (exited_step c p t Hx Hr) as Hx'.
  pose proof (awaited_step c p t Hv) as Hp'. rewrite Hp in Hp'.
  rewrite Hp', Hx'. cbn [settled orb].
  rewrite bool_decide_eq_false_2 by (intros [? [=]]).
  now apply IH.
Qed.

(** After turns that settle and reject nothing, the next turn is run from
    the state they leave. *)
Lemma run_to_verdict_after_quiet c t post ts : forall p,
  exited p = None -> awaited (core p) = Pending ->
  no_rejection ts = true -> no_verdict ts = true ->
  run_to_verdict c (ts ++ t :: post) p
  = (let q := step c (run c ts p) t in
     if settled (awaited (core q)) || bool_decide (is_Some (exited q))
     then q else run_to_verdict c post q).
Proof.
  induction ts as [|t' ts IH]; intros p Hx Hp Hrs Hvs; [reflexivity|].
  rewrite no_rejection_cons in Hrs. rewrite no_verdict_cons in Hvs.
  apply andb_prop in Hrs as [Hr1 Hrs]. apply andb_prop in Hvs as [Hv1 Hvs].
  apply negb_true_iff in Hr1. apply negb_true_iff in Hv1.
  cbn [app run_to_verdict]. rewrite run_cons.
  pose proof (exited_step c p t' Hx Hr1) as Hx'.
  pose proof (awaited_step c p t' Hv1) as Hp'. rewrite Hp in Hp'.
  rewrite Hp', Hx'. cbn [settled orb].
  rewrite bool_decide_eq_false_2 by (intros [? [=]]).
  now apply IH.
Qed.

(** With no rejected notification the process lives on to the verdict,
    and the promise is settled exactly when a terminal hook was called. *)
Lemma verdict_reached c ts : forall p,
  exited p = None -> awaited (core p) = Pending -> no_rejection ts = true ->
  exited (run_to_verdict c ts p) = None /\
  settled (awaited (core (run_to_verdict c ts p))) = negb (no_verdict ts).
Proof.
  induction ts as [|t ts IH]; intros p Hx Hp Hr.
  - cbn. now rewrite Hp.
  - rewrite no_rejection_cons in Hr. apply andb_prop in Hr as [Hr Hrs].
    apply negb_true_iff in Hr.
    cbn [run_to_verdict]. rewrite no_verdict_cons.
    pose proof (exited_step c p t Hx Hr) as Hx'. rewrite Hx'.
    rewrite (bool_decide_eq_false_2 (is_Some None)) by (intros [? [=]]).
    rewrite orb_false_r.
    destruct (verdict t) eqn:Hv; cbn [negb andb].
    + rewrite (settled_step_verdict c p t Hx Hv). now rewrite settled_step_verdict.
    + pose proof (awaited_step c p t Hv) as Hp'. rewrite Hp in Hp'.
      rewrite Hp'. cbn [settled]. now apply IH.
Qed.

(** The rest of the handler returns what the promise says. *)
Lemma conclude_spec env o s :
  fst (conclude env o s) =
  match awaited s with
  | Pending => Waiting
  | Rejected e =>
      Done (ToolResult [TextContent "text" ("Error generating image: " +:+ error_message e)]
                       (Some true))
  | Fulfilled url =>
      Done (ToolResult
              [TextContent "text"
                 (if truthy_string (Upload.S3_UPLOAD_ENABLED env)
                     && bool_decide (is_Some (Upload.s3Client env))
                  then match Upload.uploadToS3 env o url with
                       | inr hosted => hosted
                       | inl _ => url
                       end
                  else url)]
              None)
  end.
Proof.
  destruct s as [p tr]. unfold conclude, rehost, lift_result, await_result, catch_block.
  run_m. destruct p as [|url|e]; cbn; try reflexivity.
  destruct (truthy_string _ && _); cbn; try reflexivity.
  destruct (Upload.uploadToS3 env o url); reflexivity.
Qed.

Lemma conclude_returns env o s :
  match fst (conclude env o s) with
  | Done r => settled (awaited s) = true /\ well_formed r
  | Threw _ => False
  | Waiting => awaited s = Pending
  end.
Proof.
  rewrite conclude_spec. destruct (awaited s) as [|url|e]; cbn.
  - reflexivity.
  - split; [reflexivity|apply well_formed_success].
  - split; [reflexivity|apply well_formed_error].
Qed.

(** *** Hooks run in one piece *)

Lemma run_hook_completes c d s :
  notification_completes c d = true ->
  match fst (run_hook c d s) with
  | Threw _ => False
  | _ => True
  end.
Proof.
  destruct d as [cb sr ab], s as [p tr]. unfold notification_completes.
  cbn [send_result]. intros H. run_m.
  destruct cb as [| |info|data|err pid]; cbn [hook];
    destruct (guard_token (meta c)), sr; try discriminate; cbn;
    try (destruct ab; exact I); try exact I;
    split_hook; exact I.
Qed.

(** When every hook is resumed at once and no notification is rejected,
    the promise at the verdict is the one [run_events] computes. *)
Lemma run_to_verdict_atomic c ds : forall p,
  suspended p = [] -> exited p = None ->
  Forall (fun d => notification_completes c d = true) ds ->
  exited (run_to_verdict c (flat_map turns_of ds) p) = None /\
  awaited (core (run_to_verdict c (flat_map turns_of ds) p))
  = awaited (run_events c (Hook <$> ds) (core p)).
Proof.
  induction ds as [|d ds IH]; intros p Hq Hx Hall; [now cbn|].
  apply Forall_cons in Hall as [Hd Hall].
  destruct (run_turns_of c d p Hq Hx) as (Hcore & Hsusp & Hexit).
  pose proof (run_hook_completes c d (core p) Hd) as Hok.
  assert (Hexit' : exited (run c (turns_of d) p) = None).
  { rewrite Hexit. destruct (fst (run_hook c d (core p))); tauto || reflexivity. }
  clear Hexit Hok.
  cbn [flat_map fmap list_fmap]. rewrite run_events_cons. cbn [react].
  unfold turns_of in *. cbn [app run_to_verdict].
  unfold run in Hcore, Hsusp, Hexit'. cbn [foldl] in Hcore, Hsusp, Hexit'.
  set (p1 := step c p (Invoke (hook d) (aborted d))) in *.
  set (p2 := step c p1 (Settle 0 (send_result d) (aborted d))) in *.
  assert (Hx1 : exited p1 = None) by (now apply exited_step).
  assert (Haw : awaited (core p2) = awaited (core p1))
    by (now apply awaited_step).
  rewrite Hx1, (bool_decide_eq_false_2 (is_Some None)) by (intros [? [=]]).
  rewrite orb_false_r.
  destruct (settled (awaited (core p1))) eqn:Hs1.
  - split; [exact Hx1|].
    rewrite awaited_run_settled by (rewrite <- Hcore, Haw; exact Hs1).
    now rewrite <- Hcore, Haw.
  - rewrite Haw, Hs1, Hexit', (bool_decide_eq_false_2 (is_Some None))
      by (intros [? [=]]).
    cbn [orb]. rewrite <- Hcore. now apply IH.
Qed.

(** With no rejected notification, the caller gets what the handler run
    with whole hooks returns. *)
Lemma reply_of_atomic env c prompt w ds :
  Forall (fun d => notification_completes c d = true) ds ->
  reply_of env c prompt w (flat_map turns_of ds)
  = of_outcome (result_of env c prompt (with_events (Hook <$> ds) w)).
Proof.
  intros Hall. unfold reply_of.
  destruct (reaches_job c w) eqn:Hreach.
  - destruct (run_to_verdict_atomic c ds start eq_refl eq_refl Hall) as [Hx Haw].
    rewrite Hx, conclude_spec, Haw.
    rewrite (call_reached env c prompt (with_events _ w)) by exact Hreach.
    reflexivity.
  - f_equal. symmetry.
    rewrite <- (result_not_reached_any env env c prompt w (Hook <$> ds) (upload w) Hreach).
    reflexivity.
Qed.

(** C3: the handler's own [try]/[catch] lets nothing out.  In every run
    in which no notification awaited inside a hook is rejected, the reply
    is never a fault of the handler and the process does not end; the call
    returns a well-formed result (a success with one URL text, or an error
    result with [isError: true] and a description) as soon as a step
    before the job fails or a terminal callback is delivered, and until
    then it is left waiting: the handler has no timeout. *)
Theorem handler_answers_once_job_settles env c prompt w ts :
  no_rejection ts = true ->
  (forall e, reply_of env c prompt w ts <> Faulted e) /\
  (forall e, reply_of env c prompt w ts <> ProcessExited e) /\
  (if reaches_job c w && no_verdict ts
   then reply_of env c prompt w ts = NoReply
   else exists r, reply_of env c prompt w ts = Answered r /\ well_formed r).
Proof.
  intros Hr. unfold reply_of.
  destruct (reaches_job c w) eqn:Hreach; cbn [andb].
  - destruct (verdict_reached c ts start eq_refl eq_refl Hr) as [Hx Hs].
    rewrite Hx.
    pose proof (conclude_returns env (upload w) (core (run_to_verdict c ts start))) as Hc.
    destruct (fst (conclude env (upload w) (core (run_to_verdict c ts start))))
      as [r|e|]; cbn [of_outcome].
    + destruct Hc as [Hset Hwf]. rewrite Hset in Hs.
      destruct (no_verdict ts); [discriminate|].
      repeat split; try (intros; discriminate). eauto.
    + destruct Hc.
    + rewrite Hc in Hs. cbn in Hs.
      destruct (no_verdict ts); [|discriminate].
      repeat split; intros; discriminate.
  - destruct (call_not_reached env c prompt w Hreach) as [e He].
    rewrite He. cbn [of_outcome].
    repeat split; try (intros; discriminate).
    eexists. split; [reflexivity|]. apply well_formed_error.
Qed.

Lemma handler_answers_once_job_settles_witness :
  exists r,
    reply_of Sample.s3_off Sample.with_token "smiling, outdoors"
      (Sample.world_of [] Sample.upload_fine)
      [Invoke OnStart false; Settle 0 None false;
       Invoke (Sample.finished_with [Sample.selfie]) false]
    = Answered r /\ well_formed r.
Proof.
  pose proof (handler_answers_once_job_settles Sample.s3_off Sample.with_token
                "smiling, outdoors" (Sample.world_of [] Sample.upload_fine)
                [Invoke OnStart false; Settle 0 None false;
                 Invoke (Sample.finished_with [Sample.selfie]) false]
                eq_refl) as (_ & _ & H).
  exact H.
Defined.

(** The job is submitted, [onStart] and [onPending] arrive and their
    notifications go through, and the remote engine delivers nothing
    more: the call has no reply. *)
Lemma hung_job_gets_no_reply :
  reply_of Sample.s3_off Sample.with_token "smiling, outdoors"
    (Sample.world_of [] Sample.upload_fine)
    [Invoke OnStart false; Settle 0 None false;
     Invoke OnPending false; Settle 0 None false]
  = NoReply /\
  result_of Sample.s3_off Sample.with_token "smiling, outdoors"
    (Sample.world_of [Sample.hook_of OnStart; Sample.hook_of OnPending]
                     Sample.upload_fine)
  = Waiting.
Proof. split; reflexivity. Qed.

(** *** Cancellation *)

Lemma polls_checked cb ab :
  polls (checked cb ab) = if polling_hook cb then [ab] else [].
Proof. unfold checked. destruct (polling_hook cb), ab; reflexivity. Qed.

Lemma interrupt_follows_check cb ab i :
  checked cb ab !! i = Some (ReadAborted true) ->
  checked cb ab !! S i = Some Interrupt.
Proof. unfold checked. destruct (polling_hook cb), ab; by_position i. Qed.

Lemma terminal_not_polling cb : terminal cb = true -> polling_hook cb = false.
Proof. destruct cb; cbn; congruence. Qed.

(** The handler's own steps, before the job and around it, read nothing. *)
Lemma polls_outside_hooks env c prompt w :
  polls (trace_of env c prompt (with_events [] w)) = [].
Proof.
  rewrite trace_of_shape. cbn [init_result builder_result wrapper_result
    prestart_send draw events with_events events_effects flat_map].
  destruct (init_result w), (builder_result w), (wrapper_result w),
    (guard_token (meta c)), (prestart_send w); reflexivity.
Qed.

(** C6: [signal.aborted] is read by [onPending] and [onProgress] only,
    once per invocation: in the turn of the call when there is no progress
    token, else in the turn in which the hook is resumed after its
    notification has gone through; the handler's own steps do not read
    it.  Whenever it is read as set, [api.interrupt()] is the next effect,
    in the same turn.  Such a turn does not touch the awaited promise and
    does not end the process: a promise that was pending is still pending,
    and the call goes on waiting for a terminal callback. *)
Theorem signal_read_by_pending_and_progress_only env c prompt w p t :
  exited p = None ->
  rejected t = false ->
  polls (trace_of env c prompt (with_events [] w)) = [] /\
  polls (added c p t) = (if reads_signal c p t then [signal_of t] else []) /\
  (forall i, added c p t !! i = Some (ReadAborted true) ->
             added c p t !! S i = Some Interrupt) /\
  (verdict t = false -> awaited (core (step c p t)) = awaited (core p)) /\
  suspended (step c p t)
  = match t with
    | Invoke cb _ =>
        suspended p ++
        (if bool_decide (is_Some (guard_token (meta c))) && negb (terminal cb)
         then [cb] else [])
    | Settle i _ _ => delete i (suspended p)
    | InterruptSettled _ => suspended p
    end /\
  exited (step c p t) = None.
Proof.
  intros Hx Hr.
  destruct (added_spec c p t Hx) as [_ Hadd].
  split; [apply polls_outside_hooks|].
  split; [|split; [|split; [|split]]].
  - rewrite Hadd. destruct t as [cb ab|i r ab|r]; cbn [reads_signal signal_of];
      [| |reflexivity].
    + destruct (terminal cb) eqn:Hcb.
      * rewrite polls_hook_effects. cbn [hook].
        now rewrite (terminal_not_polling cb Hcb).
      * destruct (guard_token (meta c)) as [tok|].
        -- rewrite (bool_decide_eq_true_2 (is_Some (Some tok))) by eauto.
           now rewrite andb_false_r.
        -- rewrite (bool_decide_eq_false_2 (is_Some None)) by (intros [? [=]]).
           rewrite andb_true_r. apply polls_checked.
    + destruct r as [e|]; [discriminate|].
      destruct (suspended p !! i) as [cb|]; [apply polls_checked|reflexivity].
  - intros i. rewrite Hadd. destruct t as [cb ab|j r ab|r]; [| |by_position i].
    + destruct (terminal cb).
      * apply interrupt_follows_poll.
      * destruct (guard_token (meta c)); [by_position i|apply interrupt_follows_check].
    + destruct (suspended p !! j) as [cb|]; [|by_position i].
      destruct r; [by_position i|apply interrupt_follows_check].
  - apply awaited_step.
  - now apply suspended_step.
  - now apply exited_step.
Qed.

Lemma signal_read_by_pending_and_progress_only_witness :
  polls (added Sample.with_token
           (run Sample.with_token [Invoke OnPending false] start)
           (Settle 0 None true)) = [true] /\
  added Sample.with_token
    (run Sample.with_token [Invoke OnPending false] start)
    (Settle 0 None true) !! 1%nat = Some Interrupt /\
  awaited (core (run Sample.with_token
                   [Invoke OnPending false; Settle 0 None true] start)) = Pending.
Proof.
  pose proof (signal_read_by_pending_and_progress_only Sample.s3_off
                Sample.with_token "smiling, outdoors"
                (Sample.world_of [] Sample.upload_fine)
                (run Sample.with_token [Invoke OnPending false] start)
                (Settle 0 None true) eq_refl eq_refl)
    as (_ & Hpolls & Hint & Hkeep & _ & _).
  split; [exact Hpolls|]. split.
  - apply (Hint 0%nat). reflexivity.
  - apply (Hkeep eq_refl).
Defined.

(** The interrupt is not ordered against the settlement.  An [onPending]
    that is delivered after [onFinished], or that was waiting for its
    notification while [onFinished] ran, reads the signal and interrupts
    a job whose result has already settled. *)
Lemma interrupt_after_settlement :
  trace (core (run Sample.without_token
                 [Invoke (Sample.finished_with [Sample.selfie]) false;
                  Invoke OnPending true] start))
  = [CallResolve "http://comfy:8188/view?filename=selfie_00001_.png";
     ReadAborted true; Interrupt] /\
  trace (core (run Sample.with_token
                 [Invoke OnPending false;
                  Invoke (Sample.finished_with [Sample.selfie]) false;
                  Settle 0 None true] start))
  = [Notify (ProgressNotification "notifications/progress" progress_zero
               (TokString "tok-1"));
     CallResolve "http://comfy:8188/view?filename=selfie_00001_.png";
     ReadAborted true; Interrupt] /\
  hook_effects Sample.without_token
    (Delivery OnPending None true) = [ReadAborted true; Interrupt] /\
  awaited (run_events Sample.without_token
             [Sample.hook_of (Sample.finished_with [Sample.selfie])] initial)
  = Fulfilled "http://comfy:8188/view?filename=selfie_00001_.png".
Proof. repeat split; reflexivity. Qed.

(** *** Connection loss *)



(** *** A notification rejected inside a hook *)

(** X15: a [sendNotification] that rejects inside [onStart], [onPending] or
    [onProgress] before the terminal callback is caught by nobody: the
    process ends on the unhandled rejection and the call gets no reply,
    neither a result nor an error. *)
Theorem rejected_hook_notification_ends_process env c prompt w pre i cb e ab post :
  reaches_job c w = true ->
  no_verdict pre = true ->
  no_rejection pre = true ->
  suspended (run c pre start) !! i = Some cb ->
  reply_of env c prompt w (pre ++ Settle i (Some e) ab :: post) = ProcessExited e.
Proof.
  intros Hreach Hv Hr Hi. unfold reply_of. rewrite Hreach.
  rewrite run_to_verdict_after_quiet by (assumption || reflexivity). cbv zeta.
  destruct (run_to_verdict_quiet c pre start eq_refl eq_refl Hr Hv) as (_ & Hx & _).
  assert (Hstep : exited (step c (run c pre start) (Settle i (Some e) ab)) = Some e).
  { unfold step. rewrite Hx. unfold settle. now rewrite Hi. }
  rewrite Hstep, (bool_decide_eq_true_2 (is_Some (Some e))) by eauto.
  rewrite orb_true_r. now rewrite Hstep.
Qed.

Lemma rejected_hook_notification_ends_process_witness :
  reply_of Sample.s3_off Sample.with_token "smiling, outdoors"
    (Sample.world_of [] Sample.upload_fine)
    ([Invoke OnStart false; Settle 0 None false; Invoke OnPending true]
       ++ Settle 0 (Some (JsError "Not connected")) true
       :: [Invoke (Sample.finished_with [Sample.selfie]) false])
  = ProcessExited (JsError "Not connected").
Proof.
  apply (rejected_hook_notification_ends_process Sample.s3_off Sample.with_token
           "smiling, outdoors" (Sample.world_of [] Sample.upload_fine)
           [Invoke OnStart false; Settle 0 None false; Invoke OnPending true]
           0%nat OnPending (JsError "Not connected") true
           [Invoke (Sample.finished_with [Sample.selfie]) false]);
    reflexivity.
Defined.

End LoopFacts.

Module LegacyFacts.
Import Js Registry Legacy.

Lemma awaited_send_progress transports sid p s :
  awaited (snd (send_progress transports sid p s)) = awaited s.
Proof.
  unfold send_progress. destruct sid as [id|]; [|reflexivity].
  destruct (truthy_string id); [|reflexivity].
  now destruct (get transports id).
Qed.






Lemma get_no_channel id :
  id ∉ object_prototype_keys -> get ∅ id = Undefined.
Proof. intros H. unfold get. now rewrite lookup_empty, bool_decide_eq_false_2. Qed.

Lemma fst_send_progress transports sid p s :
  (forall id, sid = Some id -> id ∉ object_prototype_keys) ->
  fst (send_progress transports sid p s) = Adapter.Done tt.
Proof.
  intros Hsid. unfold send_progress, get. destruct sid as [id|]; [|reflexivity].
  destruct (truthy_string id); [|reflexivity].
  destruct (transports !! id); [reflexivity|].
  now rewrite bool_decide_eq_false_2 by now apply Hsid.
Qed.

Lemma send_progress_no_channel sid p s :
  (forall id, sid = Some id -> id ∉ object_prototype_keys) ->
  send_progress ∅ sid p s = (Adapter.Done tt, s).
Proof.
  intros Hsid. unfold send_progress. destruct sid as [id|]; [|reflexivity].
  destruct (truthy_string id); [|reflexivity].
  now rewrite get_no_channel by now apply Hsid.
Qed.

Lemma awaited_deliver_any sid gp s s' d d' :
  awaited s = awaited s' -> hook d = hook d' ->
  awaited (deliver sid gp s d) = awaited (deliver sid gp s' d').
Proof.
  intros Hs Hd. unfold deliver. rewrite <- Hd.
  destruct (hook d); rewrite ?awaited_send_progress; cbn; congruence.
Qed.

Lemma deliver_no_channel sid gp s d :
  (forall id, sid = Some id -> id ∉ object_prototype_keys) ->
  outbox (deliver sid gp s (Delivery (hook d) ∅)) = outbox s.
Proof.
  intros Hsid. unfold deliver. cbn [hook transports_now].
  destruct (hook d); rewrite ?send_progress_no_channel by assumption; reflexivity.
Qed.

Lemma run_no_channel sid gp ds :
  (forall id, sid = Some id -> id ∉ object_prototype_keys) ->
  forall s s', awaited s = awaited s' -> outbox s' = [] ->
  awaited (foldl (deliver sid gp) s' ((fun d => Delivery (hook d) ∅) <$> ds))
  = awaited (foldl (deliver sid gp) s ds) /\
  outbox (foldl (deliver sid gp) s' ((fun d => Delivery (hook d) ∅) <$> ds)) = [].
Proof.
  intros Hsid. induction ds as [|d ds IH]; intros s s' Hs Hout; cbn; [auto|].
  apply IH.
  - now apply awaited_deliver_any.
  - now rewrite (deliver_no_channel sid gp s' d Hsid).
Qed.

(** X27: progress is best effort: with the session's channel gone, at the
    start or at any moment of the job, the call sends nothing and returns
    exactly what it returns with the channel in place (for the identifiers
    the transport generates, or for a call without a session). *)
Theorem missing_channel_changes_nothing sid gp w :
  (forall id, sid = Some id -> id ∉ object_prototype_keys) ->
  fst (generateSelfie sid gp (without_channels w)) = fst (generateSelfie sid gp w) /\
  outbox (snd (generateSelfie sid gp (without_channels w))) = [].
Proof.
  intros Hsid. unfold generateSelfie, without_channels.
  cbn [init_result builder_result transports_at_start wrapper_result deliveries].
  destruct (init_result w); [auto|].
  destruct (builder_result w); [auto|].
  rewrite (send_progress_no_channel sid ZeroPercent initial Hsid).
  pose proof (fst_send_progress (transports_at_start w) sid ZeroPercent initial Hsid) as Hfst.
  pose proof (awaited_send_progress (transports_at_start w) sid ZeroPercent initial) as Haw.
  destruct (send_progress (transports_at_start w) sid ZeroPercent initial) as [o s].
  cbn [fst snd] in Hfst, Haw. subst o.
  destruct (wrapper_result w); [auto|]. cbn zeta.
  destruct (run_no_channel sid gp (deliveries w) Hsid s initial Haw eq_refl)
    as [Hsame Hempty].
  rewrite Hsame.
  destruct (awaited (foldl (deliver sid gp) s (deliveries w))); cbn; auto.
Qed.

Lemma missing_channel_changes_nothing_witness :
  fst (generateSelfie (Some (sessionId Cases.alice)) Sample.comfy_path
         (without_channels Cases.legacy_call))
  = fst (generateSelfie (Some (sessionId Cases.alice)) Sample.comfy_path
           Cases.legacy_call) /\
  outbox (snd (generateSelfie (Some (sessionId Cases.alice)) Sample.comfy_path
                 (without_channels Cases.legacy_call))) = [].
Proof.
  apply (missing_channel_changes_nothing (Some (sessionId Cases.alice))
           Sample.comfy_path Cases.legacy_call).
  intros id [= <-]. apply (bool_decide_unpack _). exact I.
Defined.

Lemma awaited_deliver_modern sid c s s' d :
  awaited s = Adapter.awaited s' ->
  awaited (deliver sid (Adapter.getPathImage c) s d)
  = Adapter.awaited (Adapter.deliver c s' (Adapter.Delivery (hook d) None false)).
Proof.
  intros Hs. destruct s' as [p tr]. cbn [Adapter.awaited] in Hs.
  rewrite (AdapterFacts.awaited_deliver_trace c p tr).
  unfold deliver. destruct (hook d) as [| |info|data|err pid].
  - rewrite awaited_send_progress, AdapterFacts.awaited_deliver_nonterminal; auto.
  - rewrite awaited_send_progress, AdapterFacts.awaited_deliver_nonterminal; auto.
  - rewrite awaited_send_progress, AdapterFacts.awaited_deliver_nonterminal; auto.
  - cbn [awaited settle]. rewrite Hs.
    unfold Adapter.deliver, Adapter.run_hook. cbn [Adapter.hook].
    destruct (Adapter.onFinished (Adapter.getPathImage c) data (Adapter.State p []))
      as [[a|e|] s1]; reflexivity.
  - cbn [awaited settle]. now rewrite Hs.
Qed.

Lemma awaited_run_modern sid c ds : forall s s',
  awaited s = Adapter.awaited s' ->
  awaited (foldl (deliver sid (Adapter.getPathImage c)) s ds)
  = Adapter.awaited
      (Adapter.run_events c
         ((fun x => Adapter.Hook (Adapter.Delivery (hook x) None false)) <$> ds) s').
Proof.
  induction ds as [|d ds IH]; intros s s' Hs; [exact Hs|].
  cbn [foldl fmap list_fmap]. rewrite AdapterFacts.run_events_cons.
  apply IH. cbn [Adapter.react]. now apply awaited_deliver_modern.
Qed.

(** X28: the two handlers agree on the answer.  For the same behaviour of
    the remote client, a session identifier that is no name on
    [Object.prototype] (or no session) and whichever channels are
    registered, the earlier handler returns what the later one returns
    with storage off when every progress notification of the later
    handler goes through. *)
Theorem earlier_and_later_handler_agree sid env c prompt d o w :
  (forall id, sid = Some id -> id ∉ object_prototype_keys) ->
  Upload.S3_UPLOAD_ENABLED env <> "true" ->
  fst (generateSelfie sid (Adapter.getPathImage c) w)
  = Tool.result_of env c prompt (as_modern d o w).
Proof.
  intros Hsid Hoff.
  destruct (Tool.reaches_job c (as_modern d o w)) eqn:Hreach.
  - rewrite (ToolFacts.call_reached env c prompt _ Hreach).
    rewrite (CallFacts.gate_closed env Hoff).
    revert Hreach. unfold Tool.reaches_job, generateSelfie, as_modern.
    cbn [Tool.init_result Tool.builder_result Tool.prestart_send
         Tool.wrapper_result Tool.events].
    destruct (init_result w); [discriminate|].
    destruct (builder_result w); [discriminate|].
    destruct (wrapper_result w);
      [rewrite andb_false_r; discriminate|]. intros _.
    pose proof (fst_send_progress (transports_at_start w) sid ZeroPercent initial Hsid)
      as Hfst.
    pose proof (awaited_send_progress (transports_at_start w) sid ZeroPercent initial)
      as Haw.
    destruct (send_progress (transports_at_start w) sid ZeroPercent initial) as [r s].
    cbn [fst snd] in Hfst, Haw. subst r. cbn zeta.
    rewrite (awaited_run_modern sid c (deliveries w) s Adapter.initial Haw).
    now destruct (Adapter.awaited _).
  - revert Hreach. unfold Tool.reaches_job, generateSelfie, as_modern.
    ToolFacts.run_tool. cbn.
    destruct (init_result w); [reflexivity|].
    destruct (builder_result w); [reflexivity|].
    pose proof (fst_send_progress (transports_at_start w) sid ZeroPercent initial Hsid)
      as Hfst.
    destruct (send_progress (transports_at_start w) sid ZeroPercent initial) as [r s].
    cbn [fst] in Hfst. subst r.
    destruct (wrapper_result w).
    + destruct (Adapter.guard_token (Adapter.meta c)); reflexivity.
    + destruct (Adapter.guard_token (Adapter.meta c)); discriminate.
Qed.

Lemma earlier_and_later_handler_agree_witness :
  fst (generateSelfie (Some (sessionId Cases.alice))
         (Adapter.getPathImage Sample.with_token) Cases.legacy_call)
  = Tool.result_of Sample.s3_off Sample.with_token "smiling, outdoors"
      (as_modern Sample.half Sample.upload_fine Cases.legacy_call).
Proof.
  apply (earlier_and_later_handler_agree (Some (sessionId Cases.alice))
           Sample.s3_off Sample.with_token "smiling, outdoors" Sample.half
           Sample.upload_fine Cases.legacy_call).
  - intros id [= <-]. apply (bool_decide_unpack _). exact I.
  - discriminate.
Defined.

End LegacyFacts.
